(** * DriveGraphEnv: a shallow embedding of the traffic simulation service

    The development follows [api/services/traffic.py] (the environment
    class [DriveGraphEnv]) and the session handler of [api/main.py].

    Modelling conventions.
    - Python [float] values are exact rationals ([Q]): every finite double
      is a rational, and the statements below are about the structure of
      the computations, not about IEEE rounding.  Comparisons of the source
      become the boolean comparisons [Qltb], [Qleb].
    - Python [int] values are [Z]; node ids are [Z].
    - A [dict] is a finite map ([gmap]); a [set] is a [gset].
    - An exception is a value of [exn]; a method that can raise returns a
      [res], and a method of the environment is a state transformer that
      hands back the state reached when the exception was raised.
    - [numpy] arrays of two floats are pairs and are copied by value.
    - The map-data provider, the shortest-path routine, the Euclidean norm
      and the random generator are an interface ([Providers]); the cache
      directory is a finite map from paths to files.
    - Logging, printing, the node tables kept for display
      ([graph_gdf_nodes_proj], [graph_gdf_nodes_unproj]) and the display
      geometry ([road_network_data]) have no effect on what is stated here
      and are left out.  The methods are run to completion one at a time:
      suspension points and task scheduling are not part of the model. *)

From Stdlib Require Import ZArith QArith Qround Qabs Qminmax Lqa Lia.
From Stdlib Require Import String Ascii List.
From stdpp Require Import gmap strings list fin_maps pretty.

Open Scope Z_scope.

(** ** Exceptions and results *)

Inductive exn : Type :=
| AttributeError
| KeyError
| IndexError
| ZeroDivisionError
| ValueError
| ProviderError.

Inductive res (A : Type) : Type :=
| Ok (a : A)
| Raise (e : exn).
Arguments Ok {A} a.
Arguments Raise {A} e.

Definition res_bind {A B} (r : res A) (k : A -> res B) : res B :=
  match r with
  | Ok a => k a
  | Raise e => Raise e
  end.

(** ** Floats as rationals *)

Definition Qleb (x y : Q) : bool := Qle_bool x y.
Definition Qltb (x y : Q) : bool := negb (Qle_bool y x).

(** [x / y] of two floats: Python raises on a zero divisor. *)
Definition float_div (x y : Q) : res Q :=
  if Qeq_bool y 0 then Raise ZeroDivisionError else Ok (x / y)%Q.

(** [math.floor] and [math.ceil] return an [int]. *)
Definition math_floor (x : Q) : Z := Qfloor x.
Definition math_ceil (x : Q) : Z := Qceiling x.

(** ** Bounds *)

Record Bounds : Type := mkBounds {
  minLat : Q;
  maxLat : Q;
  minLng : Q;
  maxLng : Q
}.

(** [_generate_snapped_bounds]: floor the minima and ceil the maxima to
    multiples of [snap_resolution], then force one resolution step where
    the maximum does not exceed the minimum. *)
Definition _generate_snapped_bounds (bounds : Bounds) (snap_resolution : Q)
  : res Bounds :=
  res_bind (float_div (minLat bounds) snap_resolution) (fun q_min_lat =>
  let snapped_min_lat := (inject_Z (math_floor q_min_lat) * snap_resolution)%Q in
  res_bind (float_div (maxLat bounds) snap_resolution) (fun q_max_lat =>
  let snapped_max_lat := (inject_Z (math_ceil q_max_lat) * snap_resolution)%Q in
  res_bind (float_div (minLng bounds) snap_resolution) (fun q_min_lng =>
  let snapped_min_lng := (inject_Z (math_floor q_min_lng) * snap_resolution)%Q in
  res_bind (float_div (maxLng bounds) snap_resolution) (fun q_max_lng =>
  let snapped_max_lng := (inject_Z (math_ceil q_max_lng) * snap_resolution)%Q in
  let snapped_max_lat :=
    if Qleb snapped_max_lat snapped_min_lat
    then (snapped_min_lat + snap_resolution)%Q else snapped_max_lat in
  let snapped_max_lng :=
    if Qleb snapped_max_lng snapped_min_lng
    then (snapped_min_lng + snap_resolution)%Q else snapped_max_lng in
  Ok {| minLat := snapped_min_lat; maxLat := snapped_max_lat;
        minLng := snapped_min_lng; maxLng := snapped_max_lng |})))).

(** The clamp of [_get_required_tile_bounds]: when either span exceeds
    [max_zoom], both maxima are recomputed from the minima.  The source
    writes the new maxima into the dictionary it was given. *)
Definition clamp_bounds (max_zoom : Q) (bounds : Bounds) : Bounds :=
  let lat_span := (maxLat bounds - minLat bounds)%Q in
  let lng_span := (maxLng bounds - minLng bounds)%Q in
  if Qltb max_zoom lat_span || Qltb max_zoom lng_span then
    {| minLat := minLat bounds;
       maxLat := (minLat bounds + Qmin lat_span max_zoom)%Q;
       minLng := minLng bounds;
       maxLng := (minLng bounds + Qmin lng_span max_zoom)%Q |}
  else bounds.

(** [_get_required_tile_bounds] on the configuration it reads from [self]:
    the clamped dictionary (the caller's dictionary after the call) and the
    one-element list of tiles. *)
Definition required_tile_bounds (max_zoom snap_resolution : Q) (bounds : Bounds)
  : Bounds * res (list Bounds) :=
  let bounds' := clamp_bounds max_zoom bounds in
  (bounds',
   res_bind (_generate_snapped_bounds bounds' snap_resolution) (fun snapped_bounds =>
   Ok [snapped_bounds])).

Definition lat_span (b : Bounds) : Q := (maxLat b - minLat b)%Q.
Definition lng_span (b : Bounds) : Q := (maxLng b - minLng b)%Q.

(** ** SHA-1 ([hashlib.sha1]) on byte strings

    Words are 32-bit integers kept in [Z], reduced modulo [2^32] after
    every addition and rotation. *)

Module SHA1.

Definition w32 (x : Z) : Z := x mod 2 ^ 32.

Definition rotl (n : Z) (x : Z) : Z :=
  w32 (Z.lor (Z.shiftl x n) (Z.shiftr x (32 - n))).

Definition not32 (x : Z) : Z := 2 ^ 32 - 1 - x.

(** Message padding: a [0x80] byte, zeros up to 56 modulo 64, then the bit
    length as a 64-bit big-endian integer. *)
Definition be_bytes (n : nat) (x : Z) : list Z :=
  map (fun i => Z.shiftr x (8 * Z.of_nat i) mod 256) (rev (seq 0 n)).

Definition pad (msg : list Z) : list Z :=
  let len := Z.of_nat (length msg) in
  let zeros := Z.to_nat ((55 - len) mod 64) in
  msg ++ [128] ++ repeat 0 zeros ++ be_bytes 8 (8 * len).

Fixpoint be_words (bytes : list Z) : list Z :=
  match bytes with
  | b0 :: b1 :: b2 :: b3 :: rest =>
      (b0 * 2 ^ 24 + b1 * 2 ^ 16 + b2 * 2 ^ 8 + b3) :: be_words rest
  | _ => []
  end.

Fixpoint chunks16 (fuel : nat) (ws : list Z) : list (list Z) :=
  match fuel with
  | O => []
  | S fuel' =>
      match ws with
      | [] => []
      | _ => firstn 16 ws :: chunks16 fuel' (skipn 16 ws)
      end
  end.

(** The message schedule, most recent word first: [w[i]] is computed from
    [w[i-3]], [w[i-8]], [w[i-14]] and [w[i-16]]. *)
Fixpoint extend (n : nat) (rev_w : list Z) : list Z :=
  match n with
  | O => rev_w
  | S n' =>
      let x := Z.lxor (Z.lxor (nth 2 rev_w 0) (nth 7 rev_w 0))
                      (Z.lxor (nth 13 rev_w 0) (nth 15 rev_w 0)) in
      extend n' (rotl 1 x :: rev_w)
  end.

Definition schedule (chunk : list Z) : list Z :=
  rev (extend 64 (rev chunk)).

Record state : Type := mkState { ha : Z; hb : Z; hc : Z; hd : Z; he : Z }.

Definition init : state :=
  mkState 0x67452301 0xEFCDAB89 0x98BADCFE 0x10325476 0xC3D2E1F0.

Definition round_fk (i : nat) (b c d : Z) : Z * Z :=
  if (i <? 20)%nat then
    (Z.lor (Z.land b c) (Z.land (not32 b) d), 0x5A827999)
  else if (i <? 40)%nat then
    (Z.lxor (Z.lxor b c) d, 0x6ED9EBA1)
  else if (i <? 60)%nat then
    (Z.lor (Z.lor (Z.land b c) (Z.land b d)) (Z.land c d), 0x8F1BBCDC)
  else
    (Z.lxor (Z.lxor b c) d, 0xCA62C1D6).

Definition round (s : state) (iw : nat * Z) : state :=
  let '(i, w) := iw in
  let '(f, k) := round_fk i (hb s) (hc s) (hd s) in
  let temp := w32 (rotl 5 (ha s) + f + he s + k + w) in
  mkState temp (ha s) (rotl 30 (hb s)) (hc s) (hd s).

Definition compress (h : state) (chunk : list Z) : state :=
  let w := schedule chunk in
  let s := fold_left round (combine (seq 0 80) w) h in
  mkState (w32 (ha h + ha s)) (w32 (hb h + hb s)) (w32 (hc h + hc s))
          (w32 (hd h + hd s)) (w32 (he h + he s)).

Definition digest (msg : list Z) : list Z :=
  let ws := be_words (pad msg) in
  let h := fold_left compress (chunks16 (length ws) ws) init in
  flat_map (be_bytes 4) [ha h; hb h; hc h; hd h; he h].

Definition hex_digit (d : Z) : ascii :=
  if d <? 10 then ascii_of_nat (48 + Z.to_nat d)
  else ascii_of_nat (87 + Z.to_nat d).

Fixpoint hex (bytes : list Z) : string :=
  match bytes with
  | [] => EmptyString
  | b :: rest => String (hex_digit (b / 16)) (String (hex_digit (b mod 16)) (hex rest))
  end.

Fixpoint encode (s : string) : list Z :=
  match s with
  | EmptyString => []
  | String c rest => Z.of_nat (nat_of_ascii c) :: encode rest
  end.

(** [hashlib.sha1(s.encode()).hexdigest()] for an ASCII string. *)
Definition hexdigest (s : string) : string := hex (digest (encode s)).

End SHA1.

(** ** Rendering a float with four decimals and the cache key *)

(** Round to the nearest integer, ties to the even one: the rounding of
    Python's float formatting, which is exact on the value of the float. *)
Definition round_half_even (q : Q) : Z :=
  let f := Qfloor q in
  match Qcompare (q - inject_Z f) (1 # 2) with
  | Lt => f
  | Gt => f + 1
  | Eq => if Z.even f then f else f + 1
  end.

Definition digit_char (d : Z) : ascii := ascii_of_nat (48 + Z.to_nat d).

(** [f"{x:.4f}"]: an optional minus sign, the integer part, a point and
    exactly four decimals.  A negative value that rounds to zero keeps its
    sign ([-0.0000]). *)
Definition format_4f (x : Q) : string :=
  let n := round_half_even (Qabs x * 10000) in
  let frac := n mod 10000 in
  ((if Qltb x 0 then "-" else "") ++
   pretty (n / 10000) ++ "." ++
   String (digit_char (frac / 1000))
     (String (digit_char (frac / 100 mod 10))
        (String (digit_char (frac / 10 mod 10))
           (String (digit_char (frac mod 10)) EmptyString))))%string.

(** [os.path.join] of a directory and a relative file name. *)
Fixpoint ends_with_slash (s : string) : bool :=
  match s with
  | EmptyString => false
  | String c EmptyString => Ascii.eqb c "/"
  | String _ rest => ends_with_slash rest
  end.

Definition path_join (dir file : string) : string :=
  match dir with
  | EmptyString => file
  | _ => if ends_with_slash dir then (dir ++ file)%string
         else (dir ++ "/" ++ file)%string
  end.

Definition bounds_str (bounds_for_cache : Bounds) : string :=
  (format_4f (minLat bounds_for_cache) ++ "," ++
   format_4f (maxLat bounds_for_cache) ++ "," ++
   format_4f (minLng bounds_for_cache) ++ "," ++
   format_4f (maxLng bounds_for_cache))%string.

(** [_get_cache_path]: the SHA-1 of the rendered bounds names the cache
    file inside [cache_dir]. *)
Definition _get_cache_path (cache_dir : string) (bounds_for_cache : Bounds) : string :=
  let filename := (SHA1.hexdigest (bounds_str bounds_for_cache) ++ ".json")%string in
  path_join cache_dir filename.

(** The two readings of "the bounds differ only beyond the fourth decimal
    place".  [agree_to_4_decimals] follows the words: same sign, and the
    same digits up to the fourth decimal (the magnitudes truncate to the
    same multiple of 0.0001).  [round_alike_4] is what the renderer sees:
    same sign, and both magnitudes strictly within half a unit of the
    fourth decimal of a common multiple of 0.0001. *)
Definition agree_to_4_decimals (x y : Q) : Prop :=
  Qltb x 0 = Qltb y 0 /\
  Qfloor (Qabs x * 10000) = Qfloor (Qabs y * 10000).

Definition round_alike_4 (x y : Q) : Prop :=
  Qltb x 0 = Qltb y 0 /\
  exists k : Z,
    (inject_Z k - (1 # 2) < Qabs x * 10000 /\ Qabs x * 10000 < inject_Z k + (1 # 2))%Q /\
    (inject_Z k - (1 # 2) < Qabs y * 10000 /\ Qabs y * 10000 < inject_Z k + (1 # 2))%Q.

Definition bounds_related (R : Q -> Q -> Prop) (b1 b2 : Bounds) : Prop :=
  R (minLat b1) (minLat b2) /\ R (maxLat b1) (maxLat b2) /\
  R (minLng b1) (minLng b2) /\ R (maxLng b1) (maxLng b2).

(** ** Road graphs ([networkx.MultiDiGraph]) *)

Definition vec : Type := (Q * Q)%type.

Definition vzero : vec := (0%Q, 0%Q).
Definition vadd (a b : vec) : vec := ((fst a + fst b)%Q, (snd a + snd b)%Q).
Definition vsub (a b : vec) : vec := ((fst a - fst b)%Q, (snd a - snd b)%Q).
Definition vscale (a : vec) (k : Q) : vec := ((fst a * k)%Q, (snd a * k)%Q).
Definition vdiv (a : vec) (k : Q) : vec := ((fst a / k)%Q, (snd a / k)%Q).

Record EdgeAttrs : Type := mkEdge {
  length_m : Q;
  speed_kph : option Q
}.

(** Nodes carry their [(y, x)] coordinates; the parallel edges between two
    nodes are indexed by their integer key; [crs] is the graph attribute. *)
Record Graph : Type := mkGraph {
  g_nodes : gmap Z vec;
  g_adj : gmap (Z * Z) (gmap Z EdgeAttrs);
  g_crs : option string
}.

Definition empty_graph (crs : option string) : Graph :=
  {| g_nodes := ∅; g_adj := ∅; g_crs := crs |}.

(** Truth value of a graph: it has a node. *)
Definition graph_truthy (G : Graph) : bool :=
  negb (bool_decide (g_nodes G = ∅)).

(** [G.get_edge_data(u, v)]: the keyed edges between [u] and [v], or
    [None]. *)
Definition get_edge_data (G : Graph) (u v : Z) : option (gmap Z EdgeAttrs) :=
  g_adj G !! (u, v).

(** [nx.compose]: union of nodes and edges, the second graph winning on
    common nodes, edge keys and attributes. *)
Definition compose (G H : Graph) : Graph :=
  {| g_nodes := g_nodes H ∪ g_nodes G;
     g_adj := union_with (fun eh eg => Some (eh ∪ eg)) (g_adj H) (g_adj G);
     g_crs := match g_crs H with Some c => Some c | None => g_crs G end |}.

(** [nx.compose_all] of a non-empty list. *)
Definition compose_all (G : Graph) (rest : list Graph) : Graph :=
  fold_left compose rest G.

(** ** Tiles *)

Record Tile : Type := mkTile {
  tile_drive_graph_proj : Graph;
  tile_drive_graph_unproj : Graph;
  tile_valid_vehicle_node_ids : list Z;
  tile_node_positions : gmap Z vec
}.

Definition empty_tile : Tile :=
  {| tile_drive_graph_proj := empty_graph None;
     tile_drive_graph_unproj := empty_graph (Some "epsg:4326"%string);
     tile_valid_vehicle_node_ids := [];
     tile_node_positions := ∅ |}.

(** A file of the cache directory: of size zero, not parseable as JSON, or
    the serialisation of a tile (serialising then parsing is taken to give
    the tile back). *)
Inductive cache_file : Type :=
| EmptyFile
| Unreadable
| Cached (t : Tile).

(** ** Traffic lights and agents *)

Inductive light : Type := red | green.

#[global] Instance light_eq_dec : EqDecision light.
Proof. solve_decision. Defined.

Definition flip (s : light) : light :=
  match s with red => green | green => red end.

Record cycle : Type := mkCycle { cycle_red : Z; cycle_green : Z }.

(** [cycle_times[state]] *)
Definition cycle_time (c : cycle) (s : light) : Z :=
  match s with red => cycle_red c | green => cycle_green c end.

Record AgentState : Type := mkAgent {
  agent_id : string;
  position : vec;
  velocity : vec;
  goal : vec;
  path : option (list Z);
  path_index : Z;
  path_positions : option (list vec)
}.

(** [to_tensor]: position, velocity and goal side by side. *)
Definition to_tensor (a : AgentState) : list Q :=
  [fst (position a); snd (position a); fst (velocity a); snd (velocity a);
   fst (goal a); snd (goal a)].

(** [not agent.path]: no path, or an empty one. *)
Definition path_falsy (p : option (list Z)) : bool :=
  match p with
  | None => true
  | Some [] => true
  | Some _ => false
  end.

(** [l[i]] on a Python list: negative indices count from the end, and an
    index out of range raises. *)
Definition py_index {A} (l : list A) (i : Z) : res A :=
  let n := Z.of_nat (length l) in
  let j := if i <? 0 then i + n else i in
  if (j <? 0) || (n <=? j) then Raise IndexError
  else match l !! Z.to_nat j with
       | Some x => Ok x
       | None => Raise IndexError
       end.

(** ** The environment *)

(** Constructor arguments that are never reassigned. *)
Record Config : Type := mkConfig {
  force_osm_refresh : bool;
  max_agents : Z;
  max_steps : Z;
  snap_resolution : Q;
  cache_dir : string;
  max_zoom : Q
}.

(** The viewport and the display flags. *)
Record View : Type := mkView {
  bounds : Bounds;
  show_traffic_lights : bool;
  show_traffic_lanes : bool
}.

(** What [_load_and_merge_graph_tiles] maintains.  A tile whose load
    failed is recorded as [None]. *)
Record Network : Type := mkNetwork {
  tile_graphs : gmap string (option Tile);
  node_positions : gmap Z vec;
  valid_vehicle_node_ids : list Z;
  traffic_signals : gset Z;
  drive_graph_proj : Graph;
  drive_graph_unproj : Graph
}.

(** The three traffic-light attributes; each is absent ([None]) until
    [_initialize_traffic_lights] creates it. *)
Record Lights : Type := mkLights {
  traffic_light_states : option (gmap Z light);
  traffic_light_timers : option (gmap Z Z);
  traffic_light_cycle_times : option (gmap Z cycle)
}.

Record Pool : Type := mkPool {
  agents : gmap string AgentState;
  active_agents : gset string;
  next_agent_id : Z
}.

(** The object, together with the two pieces of the outside world its
    methods act on: the cache directory ([disk]) and the position reached
    in the stream of random draws ([rng_pos]). *)
Record DriveGraphEnv : Type := mkEnv {
  cfg : Config;
  view : View;
  net : Network;
  lights : Lights;
  pool : Pool;
  num_agents : Z;
  steps : Z;
  disk : gmap string cache_file;
  rng_pos : nat
}.

Definition set_view (v : View) (e : DriveGraphEnv) : DriveGraphEnv :=
  {| cfg := cfg e; view := v; net := net e; lights := lights e; pool := pool e;
     num_agents := num_agents e; steps := steps e; disk := disk e;
     rng_pos := rng_pos e |}.

Definition set_net (n : Network) (e : DriveGraphEnv) : DriveGraphEnv :=
  {| cfg := cfg e; view := view e; net := n; lights := lights e; pool := pool e;
     num_agents := num_agents e; steps := steps e; disk := disk e;
     rng_pos := rng_pos e |}.

Definition set_lights (l : Lights) (e : DriveGraphEnv) : DriveGraphEnv :=
  {| cfg := cfg e; view := view e; net := net e; lights := l; pool := pool e;
     num_agents := num_agents e; steps := steps e; disk := disk e;
     rng_pos := rng_pos e |}.

Definition set_pool (p : Pool) (e : DriveGraphEnv) : DriveGraphEnv :=
  {| cfg := cfg e; view := view e; net := net e; lights := lights e; pool := p;
     num_agents := num_agents e; steps := steps e; disk := disk e;
     rng_pos := rng_pos e |}.

Definition set_num_agents_field (n : Z) (e : DriveGraphEnv) : DriveGraphEnv :=
  {| cfg := cfg e; view := view e; net := net e; lights := lights e; pool := pool e;
     num_agents := n; steps := steps e; disk := disk e; rng_pos := rng_pos e |}.

Definition set_steps (n : Z) (e : DriveGraphEnv) : DriveGraphEnv :=
  {| cfg := cfg e; view := view e; net := net e; lights := lights e; pool := pool e;
     num_agents := num_agents e; steps := n; disk := disk e; rng_pos := rng_pos e |}.

Definition set_disk (d : gmap string cache_file) (e : DriveGraphEnv) : DriveGraphEnv :=
  {| cfg := cfg e; view := view e; net := net e; lights := lights e; pool := pool e;
     num_agents := num_agents e; steps := steps e; disk := d; rng_pos := rng_pos e |}.

Definition set_rng_pos (p : nat) (e : DriveGraphEnv) : DriveGraphEnv :=
  {| cfg := cfg e; view := view e; net := net e; lights := lights e; pool := pool e;
     num_agents := num_agents e; steps := steps e; disk := disk e; rng_pos := p |}.

(** Methods: state transformers that may raise.  The state is returned in
    both cases, as it was when the method returned or raised. *)
Definition M (A : Type) : Type := DriveGraphEnv -> res A * DriveGraphEnv.

Definition ret {A} (a : A) : M A := fun e => (Ok a, e).
Definition raise {A} (x : exn) : M A := fun e => (Raise x, e).
Definition bind {A B} (m : M A) (k : A -> M B) : M B :=
  fun e => match m e with
           | (Ok a, e') => k a e'
           | (Raise x, e') => (Raise x, e')
           end.
Definition get : M DriveGraphEnv := fun e => (Ok e, e).
Definition modify (f : DriveGraphEnv -> DriveGraphEnv) : M unit :=
  fun e => (Ok tt, f e).
Definition lift {A} (r : res A) : M A := fun e => (r, e).

#[global] Instance M_ret : MRet M := @ret.
#[global] Instance M_bind : MBind M := fun A B k m => bind m k.

(** [for x in xs: body(x)] *)
Fixpoint for_each {A} (xs : list A) (body : A -> M unit) : M unit :=
  match xs with
  | [] => ret tt
  | x :: rest => body x ;; for_each rest body
  end.

(** ** The collaborators outside the class

    The map-data provider ([osmnx]), the shortest-path routine
    ([networkx]), the Euclidean norm ([numpy]) and the random generator are
    taken as an interface.  [rand] is the stream of raw draws of the
    generator; the methods below consume it in order. *)

Inductive fetch_result : Type :=
| Fetched (G : Graph)
| InsufficientResponse
| FetchFailed.

Inductive sp_result : Type :=
| Path (p : list Z)
| NoPath
| NodeNotFound
| OtherError.

Class Providers : Type := {
  (** [ox.graph_from_bbox] followed by the normalisation of its [crs] *)
  graph_from_bbox : Bounds -> fetch_result;
  (** [ox.add_edge_speeds] and [ox.add_edge_travel_times]; [None] when
      they raise *)
  add_edge_speeds : Graph -> option Graph;
  (** [ox.project_graph] and the conversions that follow it; [None] when
      they raise *)
  project_graph : Graph -> option Graph;
  (** [ox.features_from_bbox] restricted to point features; [None] when it
      raises *)
  features_from_bbox : Bounds -> option (list vec);
  (** [ox.nearest_nodes] *)
  nearest_nodes : Graph -> list vec -> list Z;
  (** [nx.shortest_path] with [weight='length'] *)
  shortest_path : Graph -> Z -> Z -> sp_result;
  (** [np.linalg.norm] *)
  norm : vec -> Q;
  (** the raw draws of [np.random] *)
  rand : nat -> nat
}.

Section Environment.

Context {providers : Providers}.

(** *** Small helpers for attributes, keys and random draws *)

(** [self.attr] of an attribute that may not have been created. *)
Definition attr {A} (o : option A) : M A :=
  match o with
  | Some a => ret a
  | None => raise AttributeError
  end.

(** [d[k]] *)
Definition key {K} `{Countable K} {A} (d : gmap K A) (k : K) : M A :=
  match d !! k with
  | Some a => ret a
  | None => raise KeyError
  end.

(** One raw draw of the generator. *)
Definition draw : M nat :=
  fun e => (Ok (rand (rng_pos e)), set_rng_pos (S (rng_pos e)) e).

(** [np.random.choice(['red', 'green'])] *)
Definition light_of_draw (r : nat) : light :=
  if Nat.even r then red else green.

(** [np.random.randint(20, 40)]: the upper end is excluded. *)
Definition randint_20_40 (r : nat) : Z := 20 + Z.of_nat (r mod 20).

(** [np.random.choice(l, 2, replace=False)] from two raw draws: two
    entries of [l] at distinct positions. *)
Definition choose2 (l : list Z) (r1 r2 : nat) : Z * Z :=
  let n := length l in
  let i := (r1 mod n)%nat in
  let j0 := (r2 mod (n - 1))%nat in
  let j := if (j0 <? i)%nat then j0 else S j0 in
  (nth i l 0, nth j l 0).

(** *** Tiles *)

Definition _get_required_tile_bounds (b : Bounds) : M (Bounds * list Bounds) :=
  e ← get;
  let '(b', r) := required_tile_bounds (max_zoom (cfg e)) (snap_resolution (cfg e)) b in
  tiles ← lift r;
  mret (b', tiles).

Definition cache_path_of (e : DriveGraphEnv) (tile_bounds : Bounds) : string :=
  _get_cache_path (cache_dir (cfg e)) tile_bounds.

(** [os.path.exists(p) and os.path.getsize(p) > 0] *)
Definition cache_usable (d : gmap string cache_file) (p : string) : bool :=
  match d !! p with
  | Some EmptyFile | None => false
  | Some _ => true
  end.

(** Write to a temporary file, then move it over [cache_path]. *)
Definition write_cache (cache_path : string) (t : Tile) : M unit :=
  modify (fun e => set_disk (<[cache_path := Cached t]> (disk e)) e).

(** [_load_tile_graph].  A cache file that cannot be parsed is logged and
    the method then reaches its end, returning [None]: the download sits in
    the [else] branch of the test that chose the cache.  Only
    [InsufficientResponseError] is caught around the download itself. *)
Definition _load_tile_graph (tile_bounds : Bounds) : M (option Tile) :=
  e ← get;
  let cache_path := cache_path_of e tile_bounds in
  if negb (force_osm_refresh (cfg e)) && cache_usable (disk e) cache_path then
    match disk e !! cache_path with
    | Some (Cached t) => mret (Some t)
    | _ => mret None
    end
  else
    match graph_from_bbox tile_bounds with
    | InsufficientResponse =>
        write_cache cache_path empty_tile;;
        mret (Some empty_tile)
    | FetchFailed => raise ProviderError
    | Fetched G_unproj =>
        match add_edge_speeds G_unproj with
        | None => mret None
        | Some G_unproj =>
            match project_graph G_unproj with
            | None => mret None
            | Some G_proj =>
                let node_positions := g_nodes G_unproj in
                let valid_vehicle_node_ids := (map_to_list node_positions).*1 in
                let t := {| tile_drive_graph_proj := G_proj;
                            tile_drive_graph_unproj := G_unproj;
                            tile_valid_vehicle_node_ids := valid_vehicle_node_ids;
                            tile_node_positions := node_positions |} in
                write_cache cache_path t;;
                mret (Some t)
            end
        end
    end.

(** [_load_traffic_signals_for_bbox]: every failure of the provider is
    logged and ignored. *)
Definition _load_traffic_signals_for_bbox : M unit :=
  e ← get;
  match features_from_bbox (bounds (view e)) with
  | None => mret tt
  | Some traffic_signal_points =>
      let G := drive_graph_unproj (net e) in
      if negb (bool_decide (traffic_signal_points = [])) && graph_truthy G then
        let nearest := nearest_nodes G traffic_signal_points in
        let n := net e in
        modify (set_net
          {| tile_graphs := tile_graphs n;
             node_positions := node_positions n;
             valid_vehicle_node_ids := valid_vehicle_node_ids n;
             traffic_signals := traffic_signals n ∪ list_to_set nearest;
             drive_graph_proj := drive_graph_proj n;
             drive_graph_unproj := drive_graph_unproj n |})
      else mret tt
  end.

(** The first graph of the list that carries a [crs]. *)
Definition first_crs (gs : list Graph) : option string :=
  match filter (fun g => is_Some (g_crs g)) gs with
  | g :: _ => g_crs g
  | [] => None
  end.

Definition with_crs (c : option string) (G : Graph) : Graph :=
  {| g_nodes := g_nodes G; g_adj := g_adj G; g_crs := c |}.

Definition merge_proj (gs : list Graph) : Graph :=
  match gs with
  | [] => empty_graph None
  | g :: rest =>
      let G := compose_all g rest in
      if graph_truthy G then
        match first_crs gs with
        | Some c => with_crs (Some c) G
        | None => G
        end
      else G
  end.

Definition merge_unproj (gs : list Graph) : Graph :=
  match gs with
  | [] => empty_graph (Some "epsg:4326"%string)
  | g :: rest =>
      let G := compose_all g rest in
      if graph_truthy G then
        match first_crs gs with
        | Some c => with_crs (Some c) G
        | None => with_crs (Some "epsg:4326"%string) G
        end
      else with_crs (Some "epsg:4326"%string) G
  end.

(** The tile loop of [_load_and_merge_graph_tiles]: load what is not in
    memory (or failed before); a tile that has a graph is added to the
    merge list and its positions and node ids are taken over. *)
Fixpoint load_tiles (required_tiles : list Bounds) (to_merge : list Tile)
  : M (list Tile) :=
  match required_tiles with
  | [] => mret to_merge
  | tile_bounds :: rest =>
      e ← get;
      let tile_key := cache_path_of e tile_bounds in
      (match tile_graphs (net e) !! tile_key with
       | Some (Some _) => mret tt
       | _ =>
           t ← _load_tile_graph tile_bounds;
           modify (fun e =>
             let n := net e in
             set_net {| tile_graphs := <[tile_key := t]> (tile_graphs n);
                        node_positions := node_positions n;
                        valid_vehicle_node_ids := valid_vehicle_node_ids n;
                        traffic_signals := traffic_signals n;
                        drive_graph_proj := drive_graph_proj n;
                        drive_graph_unproj := drive_graph_unproj n |} e)
       end);;
      e ← get;
      match tile_graphs (net e) !! tile_key with
      | Some (Some tile_data) =>
          if graph_truthy (tile_drive_graph_proj tile_data) then
            modify (fun e =>
              let n := net e in
              set_net {| tile_graphs := tile_graphs n;
                         node_positions := tile_node_positions tile_data ∪ node_positions n;
                         valid_vehicle_node_ids :=
                           valid_vehicle_node_ids n ++ tile_valid_vehicle_node_ids tile_data;
                         traffic_signals := traffic_signals n;
                         drive_graph_proj := drive_graph_proj n;
                         drive_graph_unproj := drive_graph_unproj n |} e);;
            load_tiles rest (to_merge ++ [tile_data])
          else load_tiles rest to_merge
      | _ => load_tiles rest to_merge
      end
  end.

(** [_load_and_merge_graph_tiles(bounds)].  Both callers pass the
    dictionary that [self.bounds] refers to, so the clamp of
    [_get_required_tile_bounds] is visible in [self.bounds]. *)
Definition _load_and_merge_graph_tiles : M unit :=
  e ← get;
  '(b', required_tiles) ← _get_required_tile_bounds (bounds (view e));
  modify (fun e =>
    set_view {| bounds := b';
                show_traffic_lights := show_traffic_lights (view e);
                show_traffic_lanes := show_traffic_lanes (view e) |} e);;
  modify (fun e =>
    let n := net e in
    set_net {| tile_graphs := tile_graphs n;
               node_positions := ∅;
               valid_vehicle_node_ids := [];
               traffic_signals := ∅;
               drive_graph_proj := drive_graph_proj n;
               drive_graph_unproj := drive_graph_unproj n |} e);;
  ts ← load_tiles required_tiles [];
  modify (fun e =>
    let n := net e in
    set_net {| tile_graphs := tile_graphs n;
               node_positions := node_positions n;
               valid_vehicle_node_ids :=
                 elements (list_to_set (C := gset Z) (valid_vehicle_node_ids n));
               traffic_signals := traffic_signals n;
               drive_graph_proj := merge_proj (map tile_drive_graph_proj ts);
               drive_graph_unproj := merge_unproj (map tile_drive_graph_unproj ts) |} e);;
  e ← get;
  if show_traffic_lights (view e) then _load_traffic_signals_for_bbox else mret tt.

(** *** Traffic lights *)

(** The body of the loop of [_initialize_traffic_lights] for one node:
    a random state, a zero timer and two random durations. *)
Definition init_light
    (acc : gmap Z light * gmap Z Z * gmap Z cycle * nat) (node_id : Z)
  : gmap Z light * gmap Z Z * gmap Z cycle * nat :=
  let '(states, timers, cycles, p) := acc in
  let st := light_of_draw (rand p) in
  let c := {| cycle_red := randint_20_40 (rand (S p));
              cycle_green := randint_20_40 (rand (S (S p))) |} in
  (<[node_id := st]> states, <[node_id := 0]> timers, <[node_id := c]> cycles,
   S (S (S p))).

(** [_initialize_traffic_lights]: nothing when lights are not shown;
    otherwise three new tables, filled for every node of
    [traffic_signals]. *)
Definition _initialize_traffic_lights : M unit :=
  e ← get;
  if negb (show_traffic_lights (view e)) then mret tt
  else
    let '(states, timers, cycles, p) :=
      fold_left init_light (elements (traffic_signals (net e)))
                (∅, ∅, ∅, rng_pos e) in
    modify (fun e =>
      set_rng_pos p
        (set_lights {| traffic_light_states := Some states;
                       traffic_light_timers := Some timers;
                       traffic_light_cycle_times := Some cycles |} e)).

(** The body of the signal loop of [step] for one node. *)
Definition advance_light (node_id : Z) : M unit :=
  e ← get;
  timers ← attr (traffic_light_timers (lights e));
  t ← key timers node_id;
  let timers := <[node_id := t + 1]> timers in
  modify (fun e =>
    set_lights {| traffic_light_states := traffic_light_states (lights e);
                  traffic_light_timers := Some timers;
                  traffic_light_cycle_times := traffic_light_cycle_times (lights e) |} e);;
  states ← attr (traffic_light_states (lights e));
  current_state ← key states node_id;
  cycles ← attr (traffic_light_cycle_times (lights e));
  c ← key cycles node_id;
  if cycle_time c current_state <=? t + 1 then
    modify (fun e =>
      set_lights {| traffic_light_states := Some (<[node_id := flip current_state]> states);
                    traffic_light_timers := Some (<[node_id := 0]> timers);
                    traffic_light_cycle_times := traffic_light_cycle_times (lights e) |} e)
  else mret tt.

(** The signal loop of [step]. *)
Definition advance_lights : M unit :=
  e ← get;
  timers ← attr (traffic_light_timers (lights e));
  for_each (map_to_list timers).*1 advance_light.

(** *** Agents *)

(** [get_nodes_in_bounds] *)
Definition in_bounds (b : Bounds) (pos : vec) : bool :=
  Qleb (minLat b) (fst pos) && Qleb (fst pos) (maxLat b) &&
  Qleb (minLng b) (snd pos) && Qleb (snd pos) (maxLng b).

Definition get_nodes_in_bounds (e : DriveGraphEnv) (b : Bounds) : list Z :=
  let valid_nodes_set : gset Z := list_to_set (valid_vehicle_node_ids (net e)) in
  (filter (fun kv => bool_decide (kv.1 ∈ valid_nodes_set) && in_bounds b kv.2)
          (map_to_list (node_positions (net e)))).*1.

(** [get_node_position] *)
Definition get_node_position (e : DriveGraphEnv) (node_id : Z) : option vec :=
  node_positions (net e) !! node_id.

(** The candidates of [respawn_agent]: the valid nodes of the viewport,
    or all valid nodes when the viewport has fewer than two. *)
Definition planning_candidates (e : DriveGraphEnv) : list Z :=
  let nodes_in_viewport := get_nodes_in_bounds e (bounds (view e)) in
  if (length nodes_in_viewport <? 2)%nat
  then valid_vehicle_node_ids (net e) else nodes_in_viewport.

(** The retry loop of [respawn_agent]: [n] attempts are left, [p] is the
    position in the random stream, [last] holds [start_node_id] and
    [goal_node_id] as the previous attempt left them, [used] counts the
    attempts made.  Every exception of the body is caught and leads to the
    next attempt. *)
Fixpoint plan_attempts (G : Graph) (nodes : list Z) (n : nat) (p : nat)
    (last : option (Z * Z)) (used : nat)
  : option (list Z) * option (Z * Z) * nat * nat :=
  match n with
  | O => (None, last, p, used)
  | S n' =>
      let '(start_node_id, goal_node_id) := choose2 nodes (rand p) (rand (S p)) in
      match shortest_path G start_node_id goal_node_id with
      | Path new_path =>
          if (1 <? length new_path)%nat then
            (Some new_path, Some (start_node_id, goal_node_id), S (S p), S used)
          else plan_attempts G nodes n' (S (S p))
                 (Some (start_node_id, goal_node_id)) (S used)
      | _ => plan_attempts G nodes n' (S (S p))
               (Some (start_node_id, goal_node_id)) (S used)
      end
  end.

Definition with_path (a : AgentState) (p : option (list Z)) : AgentState :=
  {| agent_id := agent_id a; position := position a; velocity := velocity a;
     goal := goal a; path := p; path_index := path_index a;
     path_positions := path_positions a |}.

(** The [i]-th attempt of a planning that starts at position [p] of the
    random stream: the pair it draws and what the shortest-path routine
    answers for it. *)
Definition attempt_pair (nodes : list Z) (p i : nat) : Z * Z :=
  choose2 nodes (rand (p + 2 * i)) (rand (S (p + 2 * i))).

Definition attempt (G : Graph) (nodes : list Z) (p i : nat) : sp_result :=
  shortest_path G (fst (attempt_pair nodes p i)) (snd (attempt_pair nodes p i)).

(** An answer is accepted when it is a path of at least two nodes. *)
Definition accepted (r : sp_result) : option (list Z) :=
  match r with
  | Path l => if (1 <? length l)%nat then Some l else None
  | _ => None
  end.

(** Are the positions of the end points and of every node of a path
    known? *)
Definition positions_known (e : DriveGraphEnv) (ends : Z * Z) (l : list Z) : Prop :=
  is_Some (get_node_position e (fst ends)) /\
  is_Some (get_node_position e (snd ends)) /\
  forall n, n ∈ l -> is_Some (get_node_position e n).

(** [respawn_agent]: the agent as the method leaves it. *)
Definition respawn_agent (agent : AgentState) : M AgentState :=
  e ← get;
  let nodes_in_viewport := planning_candidates e in
  if (length nodes_in_viewport <? 2)%nat then mret (with_path agent None)
  else
    let '(new_path, last, p, _) :=
      plan_attempts (drive_graph_proj (net e)) nodes_in_viewport 20 (rng_pos e) None 0 in
    modify (set_rng_pos p);;
    match new_path, last with
    | Some new_path, Some (start_node_id, goal_node_id) =>
        match get_node_position e start_node_id, get_node_position e goal_node_id with
        | Some start_pos, Some goal_pos =>
            let path_nodes := map (get_node_position e) new_path in
            match mapM id path_nodes with
            | Some ps =>
                mret {| agent_id := agent_id agent; position := start_pos;
                        velocity := velocity agent; goal := goal_pos;
                        path := Some new_path; path_index := 0;
                        path_positions := Some ps |}
            | None =>
                mret {| agent_id := agent_id agent; position := start_pos;
                        velocity := velocity agent; goal := goal_pos;
                        path := None; path_index := 0;
                        path_positions := path_positions agent |}
            end
        | _, _ =>
            mret {| agent_id := agent_id agent; position := position agent;
                    velocity := velocity agent; goal := goal agent;
                    path := None; path_index := 0;
                    path_positions := path_positions agent |}
        end
    | _, _ => mret (with_path agent None)
    end.

Definition store_agent (id : string) (a : AgentState) : M unit :=
  modify (fun e =>
    set_pool {| agents := <[id := a]> (agents (pool e));
                active_agents := active_agents (pool e);
                next_agent_id := next_agent_id (pool e) |} e).

(** [add_agent] *)
Definition add_agent : M (option string) :=
  e ← get;
  if max_agents (cfg e) <=? Z.of_nat (size (agents (pool e))) then mret None
  else
    let id := ("vehicle_" ++ pretty (next_agent_id (pool e)))%string in
    let agent_state :=
      {| agent_id := id; position := vzero; velocity := vzero; goal := vzero;
         path := None; path_index := 0; path_positions := None |} in
    modify (fun e =>
      set_pool {| agents := <[id := agent_state]> (agents (pool e));
                  active_agents := {[id]} ∪ active_agents (pool e);
                  next_agent_id := next_agent_id (pool e) + 1 |} e);;
    a ← respawn_agent agent_state;
    store_agent id a;;
    mret (Some id).

(** [remove_agent] *)
Definition remove_agent (id : string) : M bool :=
  e ← get;
  match agents (pool e) !! id with
  | Some _ =>
      modify (fun e =>
        set_pool {| agents := delete id (agents (pool e));
                    active_agents := active_agents (pool e) ∖ {[id]};
                    next_agent_id := next_agent_id (pool e) |} e);;
      mret true
  | None => mret false
  end.

(** [for _ in range(n): await self.add_agent()] *)
Fixpoint add_agents (n : nat) : M unit :=
  match n with
  | O => mret tt
  | S n' => add_agent;; add_agents n'
  end.

(** [reset] (without a seed) *)
Definition reset : M unit :=
  modify (fun e =>
    set_steps 0
      (set_pool {| agents := ∅; active_agents := ∅; next_agent_id := 0 |} e));;
  e ← get;
  add_agents (Z.to_nat (num_agents e)).

(** [np.random.choice(l, size=k, replace=False)]: one raw draw per chosen
    entry. *)
Fixpoint sample {A} (l : list A) (k : nat) : M (list A) :=
  match k with
  | O => mret []
  | S k' =>
      r ← draw;
      let i := (r mod length l)%nat in
      match l !! i with
      | Some x => rest ← sample (take i l ++ drop (S i) l) k'; mret (x :: rest)
      | None => mret []
      end
  end.

(** [set_num_agents] *)
Definition set_num_agents (new_num_agents : Z) : M unit :=
  modify (set_num_agents_field new_num_agents);;
  e ← get;
  let current_agent_count := Z.of_nat (size (agents (pool e))) in
  let diff := new_num_agents - current_agent_count in
  if 0 <? diff then add_agents (Z.to_nat diff)
  else if diff <? 0 then
    let agents_to_remove_count := Z.abs diff in
    let ids := (map_to_list (agents (pool e))).*1 in
    agents_to_remove ←
      (if current_agent_count <? agents_to_remove_count then mret ids
       else sample ids (Z.to_nat agents_to_remove_count));
    for_each agents_to_remove (fun id => remove_agent id;; mret tt)
  else mret tt.

(** Degrees covered in one tick at [speed_limit_kph]: kilometres per hour
    to metres per second, then to degrees at 111.32 km per degree. *)
Definition max_speed_degrees_of (speed_limit_kph : Q) : Q :=
  let max_speed_this_step := (speed_limit_kph * 1000 / 3600)%Q in
  (max_speed_this_step / ((11132 # 100) * 1000))%Q.

Definition with_velocity (a : AgentState) (v : vec) : AgentState :=
  {| agent_id := agent_id a; position := position a; velocity := v;
     goal := goal a; path := path a; path_index := path_index a;
     path_positions := path_positions a |}.

Definition with_position (a : AgentState) (pos : vec) (i : Z) : AgentState :=
  {| agent_id := agent_id a; position := pos; velocity := velocity a;
     goal := goal a; path := path a; path_index := i;
     path_positions := path_positions a |}.

(** The agent object is shared between the local variable of the loop and
    the table: a change is seen in the table as long as the object is
    still in it ([attached]). *)
Definition put_agent (attached : bool) (id : string) (a : AgentState) : M unit :=
  if attached then store_agent id a else mret tt.

(** The kinematic part of the loop body of [step], from the edge lookup
    on; [agent_path] is the non-empty [agent.path]. *)
Definition move_agent (attached : bool) (id : string) (agent : AgentState)
    (agent_path : list Z) (current_node_id next_node_id : Z) : M unit :=
  e ← get;
  match get_edge_data (drive_graph_proj (net e)) current_node_id next_node_id with
  | None => mret tt
  | Some edge_data =>
      if bool_decide (dom edge_data = ∅) then mret tt
      else
        edge_data ← key edge_data 0;
        let speed_limit_kph := default 30%Q (speed_kph edge_data) in
        let max_speed_degrees := max_speed_degrees_of speed_limit_kph in
        match get_node_position e current_node_id, get_node_position e next_node_id with
        | Some current_node_pos, Some next_node_pos =>
            let direction_vector := vsub next_node_pos (position agent) in
            let distance := norm direction_vector in
            is_red ←
              (if bool_decide (next_node_id ∈ traffic_signals (net e)) then
                 states ← attr (traffic_light_states (lights e));
                 mret (bool_decide (states !! next_node_id = Some red))
               else mret false);
            let agent :=
              if is_red : bool then with_velocity agent vzero
              else if Qltb 0 distance
                   then with_velocity agent
                          (vscale (vdiv direction_vector distance) max_speed_degrees)
                   else agent in
            if Qltb distance max_speed_degrees then
              let agent := with_position agent next_node_pos (path_index agent + 1) in
              put_agent attached id agent;;
              if Z.of_nat (length agent_path) - 1 <=? path_index agent then
                remove_agent id;; add_agent;; mret tt
              else mret tt
            else
              put_agent attached id
                (with_position agent (vadd (position agent) (velocity agent))
                               (path_index agent))
        | _, _ => mret tt
        end
  end.

(** The loop body of [step] for one agent id of the snapshot. *)
Definition step_agent (id : string) : M unit :=
  e ← get;
  match agents (pool e) !! id with
  | None => mret tt
  | Some agent =>
      agent ←
        (if path_falsy (path agent) then
           a ← respawn_agent agent; store_agent id a;; mret a
         else mret agent);
      match path agent with
      | None | Some [] => mret tt
      | Some agent_path =>
          attached ←
            (if Z.of_nat (length agent_path) - 1 <=? path_index agent then
               remove_agent id;; add_agent;; mret false
             else mret true);
          current_node_id ← lift (py_index agent_path (path_index agent));
          next_node_id ← lift (py_index agent_path (path_index agent + 1));
          move_agent attached id agent agent_path current_node_id next_node_id
      end
  end.

(** [step]: one tick.  The result maps every agent id to its tensor. *)
Definition step : M (gmap string (list Q)) :=
  modify (fun e => set_steps (steps e + 1) e);;
  advance_lights;;
  e ← get;
  for_each (elements (active_agents (pool e))) step_agent;;
  e ← get;
  mret (to_tensor <$> agents (pool e)).

(** [n] ticks in a row, stopping at the first that raises. *)
Fixpoint steps_n (n : nat) : M unit :=
  match n with
  | O => mret tt
  | S n' => step;; steps_n n'
  end.

(** *** Construction and bounds updates *)

(** [__init__]: the object under construction, starting from the cache
    directory [d] and the stream position [p]. *)
Definition new_env (b : Bounds) (force_osm_refresh show_traffic_lights
    show_traffic_lanes : bool) (max_agents max_steps : Z) (snap_resolution : Q)
    (num_agents : Z) (cache_dir : string) (max_zoom : Q)
    (d : gmap string cache_file) (p : nat) : res unit * DriveGraphEnv :=
  let e0 :=
    {| cfg := {| force_osm_refresh := force_osm_refresh; max_agents := max_agents;
                 max_steps := max_steps; snap_resolution := snap_resolution;
                 cache_dir := cache_dir; max_zoom := max_zoom |};
       view := {| bounds := b; show_traffic_lights := show_traffic_lights;
                  show_traffic_lanes := show_traffic_lanes |};
       net := {| tile_graphs := ∅; node_positions := ∅;
                 valid_vehicle_node_ids := []; traffic_signals := ∅;
                 drive_graph_proj := empty_graph None;
                 drive_graph_unproj := empty_graph None |};
       lights := {| traffic_light_states := None; traffic_light_timers := None;
                    traffic_light_cycle_times := None |};
       pool := {| agents := ∅; active_agents := ∅; next_agent_id := 0 |};
       num_agents := num_agents; steps := 0; disk := d; rng_pos := p |} in
  (_load_and_merge_graph_tiles;;
   _initialize_traffic_lights;;
   modify (fun e =>
     set_steps 0
       (set_pool {| agents := ∅; active_agents := ∅;
                    next_agent_id := next_agent_id (pool e) |} e))) e0.

(** Are all required tiles in memory, with a successful load? *)
Definition tiles_loaded (e : DriveGraphEnv) (required_tiles : list Bounds) : bool :=
  forallb (fun tile_bounds =>
             match tile_graphs (net e) !! cache_path_of e tile_bounds with
             | Some (Some _) => true
             | _ => false
             end) required_tiles.

(** [update_bounds] (the display geometry of [road_network_data] is left
    out). *)
Definition update_bounds (b : Bounds) (show_lights show_lanes : bool) : M unit :=
  e ← get;
  let old_show_traffic_lights := show_traffic_lights (view e) in
  modify (fun e =>
    set_view {| bounds := bounds (view e); show_traffic_lights := show_lights;
                show_traffic_lanes := show_lanes |} e);;
  '(b', required_tiles) ← _get_required_tile_bounds b;
  e ← get;
  modify (fun e =>
    set_view {| bounds := b'; show_traffic_lights := show_lights;
                show_traffic_lanes := show_lanes |} e);;
  if tiles_loaded e required_tiles then
    if show_lights && negb old_show_traffic_lights then
      if bool_decide (traffic_signals (net e) = ∅) then
        _load_traffic_signals_for_bbox;; _initialize_traffic_lights
      else mret tt
    else mret tt
  else
    _load_and_merge_graph_tiles;;
    _initialize_traffic_lights.

End Environment.

(** ** The session handler ([websocket_endpoint_traffic])

    The handler is modelled by what it does with its two task handles.
    Handling one message yields the new session and the trace of the
    actions performed on tasks and on the socket, in program order.  The
    trace alphabet has an action for awaiting a task, so that a
    cancel-then-await discipline can be stated; whether a task has
    finished ([task.done()]) is an input, since it depends on the
    scheduler. *)

Inductive task_kind : Type := TickLoop | Resize.

#[global] Instance task_kind_eq_dec : EqDecision task_kind.
Proof. solve_decision. Defined.

Inductive event : Type :=
| EvCancel (t : nat)
| EvAwaitTask (t : nat)
| EvCreate (k : task_kind) (t : nat)
| EvSend (ty : string).

#[global] Instance event_eq_dec : EqDecision event.
Proof. solve_decision. Defined.

Record Flags : Type := mkFlags {
  f_show_traffic_lights : bool;
  f_show_traffic_lanes : bool;
  f_show_bart_lines : bool;
  f_show_muni_stops : bool;
  f_show_sf_parcels : bool
}.

(** The control messages, with the defaults of [data.get] applied; a
    missing or empty [bounds], or a missing [num_agents], is [None]. *)
Inductive message : Type :=
| MsgStart (b : option Bounds) (n : Z) (f : Flags)
| MsgUpdateBounds (b : option Bounds) (f : Flags)
| MsgSetNumAgents (n : option Z)
| MsgStop
| MsgOther
| Disconnect.

Record Session : Type := mkSession {
  env : option DriveGraphEnv;
  simulation_task : option nat;
  agent_setter_task : option nat;
  next_task_id : nat;
  (** the cache directory and random stream before any environment
      exists *)
  world_disk : gmap string cache_file;
  world_rng : nat;
  (** does the static-dataset service have the two files? *)
  bart_data : bool;
  muni_data : bool
}.

(** The task handle of a kind. *)
Definition task_of (k : task_kind) (s : Session) : option nat :=
  match k with
  | TickLoop => simulation_task s
  | Resize => agent_setter_task s
  end.

Definition cancel_if_set (t : option nat) : list event :=
  match t with
  | Some t => [EvCancel t]
  | None => []
  end.

(** The dataset messages that follow the road network. *)
Definition dataset_sends (s : Session) (f : Flags) : list event :=
  (if f_show_bart_lines f && bart_data s then [EvSend "bart_lines"] else []) ++
  (if f_show_muni_stops f && muni_data s then [EvSend "muni_stops"] else []) ++
  (if f_show_sf_parcels f then [EvSend "sf_parcels"] else []).

Section Handler.

Context {providers : Providers}.

(** One iteration of the receive loop: the session afterwards, the trace,
    and whether the loop goes on. *)
Definition handle (done : nat -> bool) (msg : message) (s : Session)
  : Session * list event * bool :=
  match msg with
  | MsgStart None _ _ => (s, [EvSend "error"], true)
  | MsgStart (Some b) n f =>
      let cancels :=
        cancel_if_set (simulation_task s) ++ cancel_if_set (agent_setter_task s) in
      let '(d, p) :=
        match env s with
        | Some e => (disk e, rng_pos e)
        | None => (world_disk s, world_rng s)
        end in
      match new_env b false (f_show_traffic_lights f) (f_show_traffic_lanes f)
                    100000 1000 (1 # 20) n "./cache" (1 # 2) d p with
      | (Raise _, e) =>
          ({| env := env s; simulation_task := simulation_task s;
              agent_setter_task := agent_setter_task s;
              next_task_id := next_task_id s;
              world_disk := disk e; world_rng := rng_pos e;
              bart_data := bart_data s; muni_data := muni_data s |},
           cancels ++ [EvSend "error"], false)
      | (Ok _, e) =>
          match reset e with
          | (Raise _, e) =>
              ({| env := Some e; simulation_task := simulation_task s;
                  agent_setter_task := agent_setter_task s;
                  next_task_id := next_task_id s;
                  world_disk := disk e; world_rng := rng_pos e;
                  bart_data := bart_data s; muni_data := muni_data s |},
               cancels ++ [EvSend "error"], false)
          | (Ok _, e) =>
              let t := next_task_id s in
              ({| env := Some e; simulation_task := Some t;
                  agent_setter_task := agent_setter_task s;
                  next_task_id := S t;
                  world_disk := disk e; world_rng := rng_pos e;
                  bart_data := bart_data s; muni_data := muni_data s |},
               cancels ++ [EvSend "initial_road_network"] ++ dataset_sends s f ++
                 [EvCreate TickLoop t],
               true)
          end
      end
  | MsgUpdateBounds None _ => (s, [EvSend "error"], true)
  | MsgUpdateBounds (Some b) f =>
      match env s with
      | None => (s, [EvSend "error"], true)
      | Some e =>
          match update_bounds b (f_show_traffic_lights f) (f_show_traffic_lanes f) e with
          | (Raise _, e) =>
              ({| env := Some e; simulation_task := simulation_task s;
                  agent_setter_task := agent_setter_task s;
                  next_task_id := next_task_id s;
                  world_disk := disk e; world_rng := rng_pos e;
                  bart_data := bart_data s; muni_data := muni_data s |},
               [EvSend "error"], false)
          | (Ok _, e) =>
              ({| env := Some e; simulation_task := simulation_task s;
                  agent_setter_task := agent_setter_task s;
                  next_task_id := next_task_id s;
                  world_disk := disk e; world_rng := rng_pos e;
                  bart_data := bart_data s; muni_data := muni_data s |},
               [EvSend "road_network_update"] ++ dataset_sends s f, true)
          end
      end
  | MsgSetNumAgents n =>
      match env s, n with
      | None, _ => (s, [EvSend "error"], true)
      | Some _, None => (s, [EvSend "error"], true)
      | Some _, Some _ =>
          let cancels :=
            match agent_setter_task s with
            | Some t => if done t then [] else [EvCancel t]
            | None => []
            end in
          let t := next_task_id s in
          ({| env := env s; simulation_task := simulation_task s;
              agent_setter_task := Some t; next_task_id := S t;
              world_disk := world_disk s; world_rng := world_rng s;
              bart_data := bart_data s; muni_data := muni_data s |},
           cancels ++ [EvSend "info"; EvCreate Resize t], true)
      end
  | MsgStop =>
      ({| env := env s; simulation_task := None; agent_setter_task := None;
          next_task_id := next_task_id s;
          world_disk := world_disk s; world_rng := world_rng s;
          bart_data := bart_data s; muni_data := muni_data s |},
       cancel_if_set (simulation_task s) ++ cancel_if_set (agent_setter_task s) ++
         [EvSend "info"], true)
  | MsgOther => (s, [], true)
  | Disconnect =>
      (s, cancel_if_set (simulation_task s) ++ cancel_if_set (agent_setter_task s),
       false)
  end.

End Handler.

(** The discipline of the specification, on a trace: when a task of kind
    [k] is created while [t] is the task of that kind still in flight,
    [t] was cancelled and then awaited earlier in the trace. *)
Definition cancelled_and_awaited_before_create (k : task_kind) (t : nat)
    (tr : list event) : Prop :=
  forall pre t' post, tr = pre ++ EvCreate k t' :: post ->
    exists a b c, pre = a ++ EvCancel t :: b ++ EvAwaitTask t :: c.

(** What the handler does: the cancellation is requested earlier in the
    trace. *)
Definition cancelled_before_create (k : task_kind) (t : nat)
    (tr : list event) : Prop :=
  forall pre t' post, tr = pre ++ EvCreate k t' :: post -> EvCancel t ∈ pre.

(** ** Reference behaviour of one signal

    [advance_signal] follows the words of the specification: increment the
    timer; if it has reached the duration configured for the current state,
    reset it to zero and flip the state. *)
Definition advance_signal (c : cycle) (st : light * Z) : light * Z :=
  let t := st.2 + 1 in
  if cycle_time c st.1 <=? t then (flip st.1, 0) else (st.1, t).

(** The signal of a node, when all three tables have it. *)
Definition signal_at (l : Lights) (k : Z) : option (light * Z * cycle) :=
  states ← traffic_light_states l;
  timers ← traffic_light_timers l;
  cycles ← traffic_light_cycle_times l;
  s ← states !! k;
  t ← timers !! k;
  c ← cycles !! k;
  Some (s, t, c).

(** Every node with a timer also has a state and cycle durations. *)
Definition lights_complete (l : Lights) : Prop :=
  exists states timers cycles,
    l = {| traffic_light_states := Some states;
           traffic_light_timers := Some timers;
           traffic_light_cycle_times := Some cycles |} /\
    forall k, is_Some (timers !! k) ->
              is_Some (states !! k) /\ is_Some (cycles !! k).

(** Three tables that exist. *)
Definition mkL (states : gmap Z light) (timers : gmap Z Z) (cycles : gmap Z cycle)
  : Lights :=
  {| traffic_light_states := Some states;
     traffic_light_timers := Some timers;
     traffic_light_cycle_times := Some cycles |}.

(** A signal one tick later. *)
Definition advanced (x : light * Z * cycle) : light * Z * cycle :=
  let '(s, t, c) := x in
  ((advance_signal c (s, t)).1, (advance_signal c (s, t)).2, c).

(** A signal [n] ticks later. *)
Definition advanced_n (n : nat) (x : light * Z * cycle) : light * Z * cycle :=
  Nat.iter n advanced x.

(** The phase of the cycle [{red: 20, green: 30}] that starts red with a
    zero timer, [n] ticks later. *)
Definition phase_20_30 (n : nat) : light * Z :=
  let m := Z.of_nat n mod 50 in
  if m <? 20 then (red, m) else (green, m - 20).

(** A method that returns on every state. *)
Definition total {A} (m : M A) : Prop :=
  forall e, exists a, (m e).1 = Ok a.

(** A projection of the state that a method leaves alone. *)
Definition preserves {X A} (pi : DriveGraphEnv -> X) (m : M A) : Prop :=
  forall e, pi (m e).2 = pi e.

(** ** A small concrete world

    Three nodes in a row, one road from node 1 through node 2 to node 3,
    and a traffic signal at node 2.  Node 2 lies 0.00001 degrees north of
    node 1, less than the 0.0000748 degrees covered in one tick at 30 kph. *)

Module Demo.

Definition pos1 : vec := (3776 # 100, -12244 # 100)%Q.
Definition pos2 : vec := (3776001 # 100000, -12244 # 100)%Q.
Definition pos3 : vec := (3777 # 100, -12244 # 100)%Q.

Definition road : Graph :=
  {| g_nodes := {[ 1 := pos1; 2 := pos2; 3 := pos3 ]};
     g_adj := {[ (1, 2) := {[ 0 := mkEdge 1 None ]};
                 (2, 3) := {[ 0 := mkEdge 1110 (Some 50%Q) ]} ]};
     g_crs := Some "epsg:4326"%string |}.

(** Shortest paths of the row: upwards along the road, none downwards. *)
Definition row_path (G : Graph) (s g : Z) : sp_result :=
  match g_nodes G !! s, g_nodes G !! g with
  | Some _, Some _ =>
      if s <=? g then Path (map (fun i => s + Z.of_nat i) (seq 0 (Z.to_nat (g - s + 1))))
      else NoPath
  | _, _ => NodeNotFound
  end.

(** The Euclidean norm, rounded down to the grid of the denominator of
    the squared length; exact on the distances used here. *)
Definition norm_floor (v : vec) : Q :=
  let s := Qred (fst v * fst v + snd v * snd v) in
  Qred (Z.sqrt (Qnum s * Zpos (Qden s)) # Qden s).

#[local] Instance providers : Providers := {
  graph_from_bbox := fun _ => Fetched road;
  add_edge_speeds := fun G => Some G;
  project_graph := fun G => Some G;
  features_from_bbox := fun _ => Some [pos2];
  nearest_nodes := fun _ _ => [2];
  shortest_path := row_path;
  norm := norm_floor;
  rand := fun n => n
}.

(** The same world when the provider cannot be reached: the download
    raises an error other than [InsufficientResponseError]. *)
Definition offline : Providers := {|
  graph_from_bbox := fun _ => FetchFailed;
  add_edge_speeds := fun G => Some G;
  project_graph := fun G => Some G;
  features_from_bbox := fun _ => None;
  nearest_nodes := fun _ _ => [];
  shortest_path := row_path;
  norm := norm_floor;
  rand := fun n => n
|}.

Definition viewport : Bounds :=
  mkBounds (3775 # 100) (3778 # 100) (-12245 # 100) (-12243 # 100).

(** A viewport further north, in another tile. *)
Definition viewport_north : Bounds :=
  mkBounds (3795 # 100) (3798 # 100) (-12245 # 100) (-12243 # 100).

(** The environment as the session handler builds it for a [start]
    message with one agent: constructed with the defaults, then reset.
    The signal at node 2 starts red; the agent starts on node 1 with the
    path 1, 2, 3. *)
Definition constructed (show_traffic_lights : bool) : DriveGraphEnv :=
  (new_env viewport false show_traffic_lights true 100000 1000 (1 # 20) 1
           "./cache" (1 # 2) ∅ 0).2.

Definition started : DriveGraphEnv := (reset (constructed true)).2.

(** The constructed environment, without agents, some ticks later: its
    signal has been red for five ticks. *)
Definition running : DriveGraphEnv :=
  set_lights (mkL {[ 2 := red ]} {[ 2 := 5 ]} {[ 2 := mkCycle 20 30 ]})
             (constructed true).

(** The constructed environment with a signal of durations 20 and 30 that
    has just turned red. *)
Definition just_red : DriveGraphEnv :=
  set_lights (mkL {[ 2 := red ]} {[ 2 := 0 ]} {[ 2 := mkCycle 20 30 ]})
             (constructed true).

End Demo.

(** The agent as the snap branch of [step] leaves it when the next node
    shows red: on the node, one step further along its path, at rest. *)
Definition arrived_at_red (agent : AgentState) (next_node_pos : vec) : AgentState :=
  {| agent_id := agent_id agent; position := next_node_pos; velocity := vzero;
     goal := goal agent; path := path agent; path_index := path_index agent + 1;
     path_positions := path_positions agent |}.

(** Is the viewport flag for traffic lights set? *)
Definition lights_shown (e : DriveGraphEnv) : bool := show_traffic_lights (view e).

(** No traffic-light table exists. *)
Definition no_lights : Lights :=
  {| traffic_light_states := None; traffic_light_timers := None;
     traffic_light_cycle_times := None |}.

(** The durations drawn by [np.random.randint(20, 40)]. *)
Definition cycle_in_range (c : cycle) : Prop :=
  20 <= cycle_red c < 40 /\ 20 <= cycle_green c < 40.

(** The tables as [_initialize_traffic_lights] builds them: an entry with
    a zero timer for every node of [traffic_signals], and no other
    entry. *)
Definition freshly_initialized (e : DriveGraphEnv) : Prop :=
  exists states timers cycles,
    lights e = mkL states timers cycles /\
    forall k,
      (k ∈ traffic_signals (net e) ->
         exists s c, states !! k = Some s /\ timers !! k = Some 0 /\
                     cycles !! k = Some c /\ cycle_in_range c) /\
      (k ∉ traffic_signals (net e) ->
         states !! k = None /\ timers !! k = None /\ cycles !! k = None).

(** The reading of the specification: re-initialization keeps the signal
    of every node that already has one. *)
Definition keeps_existing_signals (before after : DriveGraphEnv) : Prop :=
  forall k x, signal_at (lights before) k = Some x ->
              signal_at (lights after) k = Some x.

Definition is_create (ev : event) : bool :=
  match ev with EvCreate _ _ => true | _ => false end.

Definition is_await (ev : event) : bool :=
  match ev with EvAwaitTask _ => true | _ => false end.

(** The trace of handling [msg]. *)
Definition trace_of {providers : Providers} (done : nat -> bool) (msg : message)
    (s : Session) : list event :=
  (handle done msg s).1.2.

Module DemoSession.

(** A session in which a tick loop (task 0) and a resize (task 1) are in
    flight. *)
Definition busy : Session :=
  {| env := Some Demo.started; simulation_task := Some 0%nat;
     agent_setter_task := Some 1%nat; next_task_id := 2;
     world_disk := ∅; world_rng := 0;
     bart_data := true; muni_data := true |}.

Definition nothing_done : nat -> bool := fun _ => false.

Definition start_msg : message :=
  MsgStart (Some Demo.viewport) 1 (mkFlags true true false false false).

End DemoSession.

(** ** Further notions for the bounds *)

(** [x] is an integer multiple of the resolution [r]. *)
Definition multiple_of (r x : Q) : Prop :=
  exists k : Z, (x == inject_Z k * r)%Q.

Definition on_grid (r : Q) (b : Bounds) : Prop :=
  multiple_of r (minLat b) /\ multiple_of r (maxLat b) /\
  multiple_of r (minLng b) /\ multiple_of r (maxLng b).

(** [outer] contains [inner]. *)
Definition covers (outer inner : Bounds) : Prop :=
  (minLat outer <= minLat inner)%Q /\ (maxLat inner <= maxLat outer)%Q /\
  (minLng outer <= minLng inner)%Q /\ (maxLng inner <= maxLng outer)%Q.

(** ** Further notions for the signals *)

(** The timer of a signal is below the duration of its current state. *)
Definition timer_in_range (x : light * Z * cycle) : Prop :=
  let '(s, t, c) := x in 0 <= t < cycle_time c s.

Definition positive_cycle (c : cycle) : Prop :=
  0 < cycle_red c /\ 0 < cycle_green c.

(** The state and timer, [n] ticks after turning red, of a signal with
    durations [c]. *)
Definition phase (c : cycle) (n : Z) : light * Z :=
  let m := n mod (cycle_red c + cycle_green c) in
  if m <? cycle_red c then (red, m) else (green, m - cycle_red c).

(** ** Further notions for the agent pool *)

(** The id that [add_agent] gives to the agent numbered [k]. *)
Definition vehicle_id (k : Z) : string := ("vehicle_" ++ pretty k)%string.

(** Every agent of the table carries an id that the counter has already
    passed. *)
Definition ids_issued (p : Pool) : Prop :=
  forall id, is_Some (agents p !! id) ->
             exists k, k < next_agent_id p /\ id = vehicle_id k.

(** The active set is the set of keys of the table. *)
Definition pool_in_sync (p : Pool) : Prop :=
  active_agents p = dom (agents p).

(** A well-formed pool of [n] agents under the cap [cap]. *)
Definition pool_ok (cap : Z) (n : nat) (p : Pool) : Prop :=
  ids_issued p /\ pool_in_sync p /\ size (agents p) = n /\ Z.of_nat n <= cap.

Definition env_pool_ok (n : nat) (e : DriveGraphEnv) : Prop :=
  pool_ok (max_agents (cfg e)) n (pool e).

(** The three ways in which the methods change the pool. *)
Definition pool_store (id : string) (a : AgentState) (p : Pool) : Pool :=
  {| agents := <[id := a]> (agents p);
     active_agents := active_agents p;
     next_agent_id := next_agent_id p |}.

Definition pool_remove (id : string) (p : Pool) : Pool :=
  {| agents := delete id (agents p);
     active_agents := active_agents p ∖ {[id]};
     next_agent_id := next_agent_id p |}.

Definition pool_add (a : AgentState) (p : Pool) : Pool :=
  {| agents := <[vehicle_id (next_agent_id p) := a]> (agents p);
     active_agents := {[vehicle_id (next_agent_id p)]} ∪ active_agents p;
     next_agent_id := next_agent_id p + 1 |}.

(** ** Triples for methods

    [hoare P m Q E]: from a state that satisfies [P], the method [m]
    either returns [a] in a state that satisfies [Q a], or raises in a
    state that satisfies [E]. *)
Definition hoare {A} (P : DriveGraphEnv -> Prop) (m : M A)
    (Q : A -> DriveGraphEnv -> Prop) (E : DriveGraphEnv -> Prop) : Prop :=
  forall e, P e ->
    match m e with
    | (Ok a, e') => Q a e'
    | (Raise _, e') => E e'
    end.

(** A well-formed pool of [n] agents in which [id] is present. *)
Definition env_pool_with (n : nat) (id : string) (e : DriveGraphEnv) : Prop :=
  env_pool_ok n e /\ is_Some (agents (pool e) !! id).


(** ** Agents on their way *)

(** The agent stands between the nodes [c] and [nx] of its path: its
    index points at [c], and [nx] follows. *)
Definition en_route (agent : AgentState) (c nx : Z) : Prop :=
  exists p, path agent = Some p /\ 0 <= path_index agent /\
    p !! Z.to_nat (path_index agent) = Some c /\
    p !! Z.to_nat (path_index agent + 1) = Some nx.

(** The loaded network offers no way from [c] to [nx]: the driving graph
    has no edge between them, or the position of one of them is unknown. *)
Definition off_network (nw : Network) (c nx : Z) : Prop :=
  match get_edge_data (drive_graph_proj nw) c nx with
  | None => True
  | Some edges =>
      edges = ∅ \/
      (is_Some (edges !! 0) /\
       (node_positions nw !! c = None \/ node_positions nw !! nx = None))
  end.

(** The record of [id0] and the network are as given. *)
Definition agent_and_net_are (id0 : string) (agent0 : AgentState) (nw : Network)
    (e : DriveGraphEnv) : Prop :=
  agents (pool e) !! id0 = Some agent0 /\ net e = nw.

(** The rest of a tick, after the step counter has been advanced. *)
Definition tick_body {providers : Providers} : M (gmap string (list Q)) :=
  advance_lights;;
  e ← get;
  for_each (elements (active_agents (pool e))) step_agent;;
  e ← get;
  mret (to_tensor <$> agents (pool e)).

(** A well-formed pool of [n] agents together with a further property
    [K] of the state; in the second form [id] is present in the table. *)
Definition pool_ok_and (n : nat) (K : DriveGraphEnv -> Prop) (e : DriveGraphEnv) : Prop :=
  env_pool_ok n e /\ K e.

Definition pool_with_and (n : nat) (id : string) (K : DriveGraphEnv -> Prop)
    (e : DriveGraphEnv) : Prop :=
  env_pool_with n id e /\ K e.
(** * Properties *)

(** ** Comparisons *)

Lemma Qleb_le x y : Qleb x y = true <-> (x <= y)%Q.
Proof. apply Qle_bool_iff. Qed.

Lemma Qltb_lt x y : Qltb x y = true <-> (x < y)%Q.
Proof.
  unfold Qltb. rewrite negb_true_iff, <- not_true_iff_false, Qle_bool_iff.
  split; [apply Qnot_le_lt | apply Qlt_not_le].
Qed.

Lemma Qltb_ge x y : Qltb x y = false <-> (y <= x)%Q.
Proof.
  unfold Qltb. rewrite negb_false_iff. apply Qle_bool_iff.
Qed.

(** ** Snapping *)

Lemma float_div_pos x r : (0 < r)%Q -> float_div x r = Ok (x / r)%Q.
Proof.
  intros Hr. unfold float_div.
  destruct (Qeq_bool r 0) eqn:E; [|reflexivity].
  apply Qeq_bool_iff in E. lra.
Qed.

Lemma floor_step_le x r :
  (0 < r)%Q -> (inject_Z (math_floor (x / r)) * r <= x)%Q.
Proof.
  intros Hr. unfold math_floor.
  assert (H := Qfloor_le (x / r)).
  assert (E : (x / r * r == x)%Q) by (field; lra).
  rewrite <- E at 2. apply Qmult_le_compat_r; lra.
Qed.

Lemma floor_step_gt x r :
  (0 < r)%Q -> (x - r < inject_Z (math_floor (x / r)) * r)%Q.
Proof.
  intros Hr. unfold math_floor.
  assert (H := Qlt_floor (x / r)).
  rewrite inject_Z_plus in H.
  assert (E : (x / r * r == x)%Q) by (field; lra).
  assert (H' : (x / r * r < (inject_Z (Qfloor (x / r)) + inject_Z 1) * r)%Q)
    by (apply Qmult_lt_compat_r; assumption).
  rewrite E in H'. change (inject_Z 1) with 1%Q in H'. lra.
Qed.

Lemma ceil_step_ge x r :
  (0 < r)%Q -> (x <= inject_Z (math_ceil (x / r)) * r)%Q.
Proof.
  intros Hr. unfold math_ceil.
  assert (H := Qle_ceiling (x / r)).
  assert (E : (x / r * r == x)%Q) by (field; lra).
  rewrite <- E at 1. apply Qmult_le_compat_r; lra.
Qed.

Lemma ceil_step_lt x r :
  (0 < r)%Q -> (inject_Z (math_ceil (x / r)) * r < x + r)%Q.
Proof.
  intros Hr. unfold math_ceil.
  assert (H := Qceiling_lt (x / r)).
  unfold Z.sub in H. rewrite inject_Z_plus in H.
  assert (E : (x / r * r == x)%Q) by (field; lra).
  assert (H' : ((inject_Z (Qceiling (x / r)) + inject_Z (-1)) * r < x / r * r)%Q)
    by (apply Qmult_lt_compat_r; assumption).
  rewrite E in H'. change (inject_Z (-1)) with (-1)%Q in H'. lra.
Qed.

Lemma clamp_lat_span zoom b : (lat_span (clamp_bounds zoom b) <= zoom)%Q.
Proof.
  unfold clamp_bounds, lat_span.
  destruct (Qltb zoom (maxLat b - minLat b)) eqn:E1;
  destruct (Qltb zoom (maxLng b - minLng b)) eqn:E2; simpl.
  1,2,3: assert (H := Q.le_min_r (maxLat b - minLat b) zoom); lra.
  apply Qltb_ge in E1. lra.
Qed.

Lemma clamp_lng_span zoom b : (lng_span (clamp_bounds zoom b) <= zoom)%Q.
Proof.
  unfold clamp_bounds, lng_span.
  destruct (Qltb zoom (maxLat b - minLat b)) eqn:E1;
  destruct (Qltb zoom (maxLng b - minLng b)) eqn:E2; simpl.
  1,2,3: assert (H := Q.le_min_r (maxLng b - minLng b) zoom); lra.
  apply Qltb_ge in E2. lra.
Qed.

(** One axis of the snap: the forced step keeps the maximum above the
    minimum, and the snapped span exceeds the span it was given by less
    than two resolution steps. *)
Lemma snap_axis lo hi r zoom :
  (0 < r)%Q -> (0 <= zoom)%Q -> (hi - lo <= zoom)%Q ->
  let smin := (inject_Z (math_floor (lo / r)) * r)%Q in
  let smax := (inject_Z (math_ceil (hi / r)) * r)%Q in
  let smax' := if Qleb smax smin then (smin + r)%Q else smax in
  (smin < smax' /\ smax' - smin < zoom + 2 * r)%Q.
Proof.
  intros Hr Hz Hspan smin smax smax'.
  assert (H1 := floor_step_gt lo r Hr). assert (H2 := ceil_step_lt hi r Hr).
  fold smin in H1. fold smax in H2.
  subst smax'. destruct (Qleb smax smin) eqn:E.
  - split; lra.
  - assert (smin < smax)%Q by (apply Qltb_lt; unfold Qltb, Qleb in *; now rewrite E).
    split; lra.
Qed.




(** ** Cache keys *)

Example sha1_abc : SHA1.hexdigest "abc" = "a9993e364706816aba3e25717850c26c9cd0d89d"%string.
Proof. vm_compute. reflexivity. Qed.

Example sha1_empty : SHA1.hexdigest "" = "da39a3ee5e6b4b0d3255bfef95601890afd80709"%string.
Proof. vm_compute. reflexivity. Qed.

Example sha1_two_blocks :
  SHA1.hexdigest "abcdbcdecdefdefgefghfghighijhijkijkljklmklmnlmnomnopnopq"
  = "84983e441c3bd26ebaae4aa1f95129e5e54670f1"%string.
Proof. vm_compute. reflexivity. Qed.

Example format_4f_tie : format_4f (1 # 32) = "0.0312"%string.
Proof. vm_compute. reflexivity. Qed.

Example format_4f_negative_zero : format_4f (-1 # 100000) = "-0.0000"%string.
Proof. vm_compute. reflexivity. Qed.

Lemma Qfloor_unique (q : Q) (k : Z) :
  (inject_Z k <= q)%Q -> (q < inject_Z (k + 1))%Q -> Qfloor q = k.
Proof.
  intros H1 H2.
  assert (A := Qfloor_le q). assert (B := Qlt_floor q).
  assert (C : (inject_Z (Qfloor q) < inject_Z (k + 1))%Q) by lra.
  assert (D : (inject_Z k < inject_Z (Qfloor q + 1))%Q) by lra.
  rewrite <- Zlt_Qlt in C, D. lia.
Qed.

Lemma inject_Z_pred (k : Z) : (inject_Z (k - 1) == inject_Z k - 1)%Q.
Proof.
  unfold Z.sub. rewrite inject_Z_plus, inject_Z_opp.
  change (inject_Z 1) with 1%Q. ring.
Qed.

Lemma inject_Z_succ (k : Z) : (inject_Z (k + 1) == inject_Z k + 1)%Q.
Proof. rewrite inject_Z_plus. reflexivity. Qed.

Lemma round_half_even_near (q : Q) (k : Z) :
  (inject_Z k - (1 # 2) < q)%Q -> (q < inject_Z k + (1 # 2))%Q ->
  round_half_even q = k.
Proof.
  intros H1 H2. unfold round_half_even.
  destruct (Qlt_le_dec q (inject_Z k)) as [Hlt | Hge].
  - assert (F : Qfloor q = k - 1).
    { apply Qfloor_unique.
      - rewrite inject_Z_pred. lra.
      - replace (k - 1 + 1) with k by lia. assumption. }
    rewrite F.
    destruct (Qcompare_spec (q - inject_Z (k - 1)) (1 # 2)) as [E | E | E];
      rewrite inject_Z_pred in E; try lra. lia.
  - assert (F : Qfloor q = k).
    { apply Qfloor_unique; [assumption|]. rewrite inject_Z_succ. lra. }
    rewrite F.
    destruct (Qcompare_spec (q - inject_Z k) (1 # 2)) as [E | E | E]; try lra.
    reflexivity.
Qed.

Lemma round_alike_format (x y : Q) :
  round_alike_4 x y -> format_4f x = format_4f y.
Proof.
  intros [Hs (k & [Hx1 Hx2] & [Hy1 Hy2])]. unfold format_4f.
  rewrite (round_half_even_near _ k Hx1 Hx2), (round_half_even_near _ k Hy1 Hy2).
  rewrite Hs. reflexivity.
Qed.

(** C4, amended: bounds whose four fields pairwise have the same sign and
    round to the same multiple of 0.0001 (both magnitudes strictly within
    half a unit of the fourth decimal of it) get the same cache path. *)
Theorem cache_key_stable (cache_dir : string) (b1 b2 : Bounds) :
  bounds_related round_alike_4 b1 b2 ->
  _get_cache_path cache_dir b1 = _get_cache_path cache_dir b2.
Proof.
  intros (H1 & H2 & H3 & H4). unfold _get_cache_path, bounds_str.
  rewrite (round_alike_format _ _ H1), (round_alike_format _ _ H2),
    (round_alike_format _ _ H3), (round_alike_format _ _ H4).
  reflexivity.
Qed.

Lemma cache_key_stable_witness :
  let b1 := mkBounds (3777004 # 100000) (378 # 10) (-12245 # 100) (-1224 # 10) in
  let b2 := mkBounds (3776996 # 100000) (378 # 10) (-12245 # 100) (-1224 # 10) in
  bounds_related round_alike_4 b1 b2 /\
  _get_cache_path "./cache" b1 = _get_cache_path "./cache" b2.
Proof.
  intros b1 b2.
  assert (H : bounds_related round_alike_4 b1 b2).
  { repeat split.
    - exists 377700. vm_compute. repeat split.
    - exists 378000. vm_compute. repeat split.
    - exists 1224500. vm_compute. repeat split.
    - exists 1224000. vm_compute. repeat split. }
  split; [exact H | exact (cache_key_stable "./cache" b1 b2 H)].
Defined.

(** C4 as stated fails: 37.77004 and 37.77006 have the same digits up to
    the fourth decimal, yet they render as 37.7700 and 37.7701 and hash to
    different cache files. *)
Lemma cache_key_differs_beyond_4th_decimal :
  let b1 := mkBounds (3777004 # 100000) (378 # 10) (-12245 # 100) (-1224 # 10) in
  let b2 := mkBounds (3777006 # 100000) (378 # 10) (-12245 # 100) (-1224 # 10) in
  bounds_related agree_to_4_decimals b1 b2 /\
  _get_cache_path "./cache" b1 <> _get_cache_path "./cache" b2.
Proof.
  split.
  - repeat split.
  - vm_compute. discriminate.
Qed.

(** ** Frame rules *)

Section Frames.

Context {providers : Providers}.
Context {X : Type} (pi : DriveGraphEnv -> X).

Lemma preserves_ret {A} (a : A) : preserves pi (mret a).
Proof. intros e. reflexivity. Qed.

Lemma preserves_raise {A} (x : exn) : preserves pi (raise (A := A) x).
Proof. intros e. reflexivity. Qed.

Lemma preserves_lift {A} (r : res A) : preserves pi (lift r).
Proof. intros e. reflexivity. Qed.

Lemma preserves_get : preserves pi get.
Proof. intros e. reflexivity. Qed.

Lemma preserves_modify (f : DriveGraphEnv -> DriveGraphEnv) :
  (forall e, pi (f e) = pi e) -> preserves pi (modify f).
Proof. intros Hf e. apply Hf. Qed.

Lemma preserves_bind {A B} (m : M A) (k : A -> M B) :
  preserves pi m -> (forall a, preserves pi (k a)) -> preserves pi (m ≫= k).
Proof.
  intros Hm Hk e. unfold mbind, M_bind, bind.
  specialize (Hm e). destruct (m e) as [[a | x] e']; simpl in *.
  - rewrite Hk. exact Hm.
  - exact Hm.
Qed.

Lemma preserves_for_each {A} (xs : list A) (body : A -> M unit) :
  (forall x, preserves pi (body x)) -> preserves pi (for_each xs body).
Proof.
  intros Hb. induction xs as [| x xs IH]; simpl.
  - apply preserves_ret.
  - apply preserves_bind; auto.
Qed.

Lemma preserves_attr {A} (o : option A) : preserves pi (attr o).
Proof. destruct o; [apply preserves_ret | apply preserves_raise]. Qed.

Lemma preserves_key {K} `{Countable K} {A} (d : gmap K A) (k : K) :
  preserves pi (key d k).
Proof. unfold key. destruct (d !! k); [apply preserves_ret | apply preserves_raise]. Qed.

End Frames.

(** ** Methods that cannot raise *)

Lemma total_ret {A} (a : A) : total (mret a).
Proof. intros e. exists a. reflexivity. Qed.

Lemma total_get : total get.
Proof. intros e. exists e. reflexivity. Qed.

Lemma total_modify f : total (modify f).
Proof. intros e. exists tt. reflexivity. Qed.

Lemma total_bind {A B} (m : M A) (k : A -> M B) :
  total m -> (forall a, total (k a)) -> total (m ≫= k).
Proof.
  intros Hm Hk e. unfold mbind, M_bind, bind.
  destruct (Hm e) as [a Ha]. destruct (m e) as [r e']. simpl in Ha. subst r.
  apply Hk.
Qed.

Lemma total_for_each {A} (xs : list A) (body : A -> M unit) :
  (forall x, total (body x)) -> total (for_each xs body).
Proof.
  intros Hb. induction xs as [| x xs IH]; simpl.
  - apply total_ret.
  - apply total_bind; auto.
Qed.

Create HintDb totals.

Ltac totality :=
  repeat first
    [ solve [auto with totals nocore]
    | apply total_ret
    | apply total_get
    | apply total_modify
    | apply total_bind; [| intros ]
    | apply total_for_each; intros
    | match goal with
      | |- total (if ?b then _ else _) => destruct b
      | |- total (match ?x with _ => _ end) => destruct x
      | |- total (let '(_, _) := ?x in _) => destruct x
      | |- total (let _ := _ in _) => cbv zeta
      end ].

Section Totality.

Context {providers : Providers}.

Lemma respawn_agent_total a : total (respawn_agent a).
Proof. unfold respawn_agent. totality. Qed.
#[local] Hint Resolve respawn_agent_total : totals.

Lemma store_agent_total id a : total (store_agent id a).
Proof. unfold store_agent. totality. Qed.
#[local] Hint Resolve store_agent_total : totals.

Lemma add_agent_total : total add_agent.
Proof. unfold add_agent. totality. Qed.
#[local] Hint Resolve add_agent_total : totals.

Lemma remove_agent_total id : total (remove_agent id).
Proof. unfold remove_agent. totality. Qed.

Lemma add_agents_total n : total (add_agents n).
Proof. induction n; simpl; totality. Qed.
#[local] Hint Resolve add_agents_total : totals.

Lemma reset_total : total reset.
Proof. unfold reset. totality. Qed.

End Totality.

Create HintDb frames.

(** Decomposes a method into its statements; the methods already treated
    are taken from the hint database. *)
Ltac frame :=
  repeat first
    [ solve [auto with frames nocore]
    | apply preserves_ret
    | apply preserves_raise
    | apply preserves_lift
    | apply preserves_get
    | apply preserves_attr
    | apply preserves_key
    | apply preserves_bind; [| intros ]
    | apply preserves_for_each; intros
    | apply preserves_modify; intros; reflexivity
    | match goal with
      | |- preserves _ (if ?b then _ else _) => destruct b
      | |- preserves _ (match ?x with _ => _ end) => destruct x
      | |- preserves _ (let '(_, _) := ?x in _) => destruct x
      | |- preserves _ (let _ := _ in _) => cbv zeta
      end ].

Section LightFrames.

Context {providers : Providers}.

Lemma respawn_agent_lights a : preserves lights (respawn_agent a).
Proof. unfold respawn_agent. frame. Qed.
#[local] Hint Resolve respawn_agent_lights : frames.

Lemma store_agent_lights id a : preserves lights (store_agent id a).
Proof. unfold store_agent. frame. Qed.
#[local] Hint Resolve store_agent_lights : frames.

Lemma add_agent_lights : preserves lights add_agent.
Proof. unfold add_agent. frame. Qed.
#[local] Hint Resolve add_agent_lights : frames.

Lemma remove_agent_lights id : preserves lights (remove_agent id).
Proof. unfold remove_agent. frame. Qed.
#[local] Hint Resolve remove_agent_lights : frames.

Lemma add_agents_lights n : preserves lights (add_agents n).
Proof. induction n; simpl; frame. Qed.
#[local] Hint Resolve add_agents_lights : frames.

Lemma reset_lights : preserves lights reset.
Proof. unfold reset. frame. Qed.

Lemma move_agent_lights att id a p c n : preserves lights (move_agent att id a p c n).
Proof. unfold move_agent, put_agent. frame. Qed.
#[local] Hint Resolve move_agent_lights : frames.

Lemma step_agent_lights id : preserves lights (step_agent id).
Proof. unfold step_agent. frame. Qed.

End LightFrames.

(** ** Traffic lights *)

Section LightProps.

Context {providers : Providers}.

Lemma set_lights_twice l1 l2 e : set_lights l1 (set_lights l2 e) = set_lights l1 e.
Proof. reflexivity. Qed.

(** One node of the signal loop, on complete tables. *)
Lemma advance_light_spec k e states timers cycles s t c :
  lights e = mkL states timers cycles ->
  states !! k = Some s -> timers !! k = Some t -> cycles !! k = Some c ->
  advance_light k e =
    (Ok tt,
     set_lights (mkL (<[k := (advance_signal c (s, t)).1]> states)
                     (<[k := (advance_signal c (s, t)).2]> timers)
                     cycles) e).
Proof.
  intros HL Hs Ht Hc. destruct e as [c0 v0 n0 l0 p0 na0 st0 d0 r0].
  simpl in HL. subst l0.
  unfold advance_light, mbind, M_bind, bind, get, key, attr. simpl.
  rewrite Ht. simpl. rewrite Hs. simpl. rewrite Hc. simpl.
  unfold advance_signal. simpl.
  destruct (cycle_time c s <=? t + 1) eqn:E; simpl.
  - unfold modify, set_lights, mkL. simpl. rewrite insert_insert_eq. reflexivity.
  - unfold mret, M_ret, ret, set_lights, mkL. simpl. do 4 f_equal.
    symmetry. apply insert_id. assumption.
Qed.

(** The signal loop over a duplicate-free list of nodes that all have a
    timer, a state and durations: the nodes of the list are advanced, the
    others are untouched. *)
Lemma advance_loop_spec ks :
  NoDup ks ->
  forall e states timers cycles,
  lights e = mkL states timers cycles ->
  (forall k, k ∈ ks ->
     is_Some (states !! k) /\ is_Some (timers !! k) /\ is_Some (cycles !! k)) ->
  exists states' timers',
    for_each ks advance_light e = (Ok tt, set_lights (mkL states' timers' cycles) e) /\
    (forall k s t c, k ∈ ks ->
       states !! k = Some s -> timers !! k = Some t -> cycles !! k = Some c ->
       states' !! k = Some (advance_signal c (s, t)).1 /\
       timers' !! k = Some (advance_signal c (s, t)).2) /\
    (forall k, k ∉ ks -> states' !! k = states !! k /\ timers' !! k = timers !! k).
Proof.
  induction 1 as [| k ks Hk Hnd IH]; intros e states timers cycles HL Hall.
  - exists states, timers. simpl. split; [| split].
    + unfold mret, M_ret, ret. f_equal. rewrite <- HL. destruct e; reflexivity.
    + intros k s t c Hin. inversion Hin.
    + auto.
  - destruct (Hall k) as ([s Hs] & [t Ht] & [c Hc]); [left|].
    simpl. unfold mbind, M_bind, bind.
    rewrite (advance_light_spec k e states timers cycles s t c HL Hs Ht Hc).
    set (states1 := <[k := (advance_signal c (s, t)).1]> states).
    set (timers1 := <[k := (advance_signal c (s, t)).2]> timers).
    destruct (IH (set_lights (mkL states1 timers1 cycles) e) states1 timers1 cycles)
      as (states' & timers' & Hrun & Hin & Hout).
    + reflexivity.
    + intros k' Hk'. assert (k ≠ k') by (intros ->; contradiction).
      subst states1 timers1. rewrite !lookup_insert_ne by assumption.
      apply Hall. right. assumption.
    + exists states', timers'. rewrite Hrun. split; [reflexivity | split].
      * intros k' s' t' c' Hk' Hs' Ht' Hc'.
        apply elem_of_cons in Hk' as [-> | Hk'].
        -- destruct (Hout k Hk) as [-> ->]. subst states1 timers1.
           rewrite !lookup_insert_eq.
           rewrite Hs in Hs'. rewrite Ht in Ht'. rewrite Hc in Hc'.
           inversion Hs'; inversion Ht'; inversion Hc'; subst. auto.
        -- assert (k ≠ k') by (intros ->; contradiction).
           apply Hin; try assumption;
             subst states1 timers1; rewrite lookup_insert_ne; assumption.
      * intros k' Hk'. apply not_elem_of_cons in Hk' as [Hne Hk'].
        destruct (Hout k' Hk') as [-> ->]. subst states1 timers1.
        rewrite !lookup_insert_ne by auto. auto.
Qed.

(** [advance_lights] on complete tables advances every signal by
    [advance_signal] and nothing else. *)
Lemma advance_lights_spec e :
  lights_complete (lights e) ->
  exists l',
    advance_lights e = (Ok tt, set_lights l' e) /\
    lights_complete l' /\
    forall k,
      signal_at l' k =
      (fun '(s, t, c) => ((advance_signal c (s, t)).1, (advance_signal c (s, t)).2, c))
        <$> signal_at (lights e) k.
Proof.
  intros (states & timers & cycles & HL & Hdom).
  destruct (advance_loop_spec (map_to_list timers).*1
              (NoDup_fst_map_to_list timers) e states timers cycles HL)
    as (states' & timers' & Hrun & Hin & Hout).
  { intros k Hk. apply list_elem_of_fmap in Hk as ([k' t] & -> & Hk).
    apply elem_of_map_to_list in Hk. simpl.
    destruct (Hdom k') as [? ?]; eauto. }
  assert (Hkeys : forall k t, timers !! k = Some t -> k ∈ (map_to_list timers).*1).
  { intros k t Ht. apply list_elem_of_fmap. exists (k, t). split; [reflexivity|].
    apply elem_of_map_to_list. assumption. }
  assert (Hnokeys : forall k, timers !! k = None -> k ∉ (map_to_list timers).*1).
  { intros k Ht Hk. apply list_elem_of_fmap in Hk as ([k' t] & Heq & Hk).
    simpl in Heq. subst k'. apply elem_of_map_to_list in Hk. congruence. }
  exists (mkL states' timers' cycles). split; [| split].
  - unfold advance_lights, mbind, M_bind, bind, get. rewrite HL. simpl. exact Hrun.
  - exists states', timers', cycles. split; [reflexivity|].
    intros k Hk. destruct (timers !! k) as [t |] eqn:Ht.
    + destruct (Hdom k) as [[s Hs] [c Hc]]; [eauto|].
      destruct (Hin k s t c (Hkeys k t Ht) Hs Ht Hc) as [-> _]. eauto.
    + destruct (Hout k (Hnokeys k Ht)) as [_ E]. rewrite E, Ht in Hk.
      destruct Hk; discriminate.
  - intros k. rewrite HL. unfold signal_at. simpl.
    destruct (timers !! k) as [t |] eqn:Ht.
    + destruct (Hdom k) as [[s Hs] [c Hc]]; [eauto|].
      destruct (Hin k s t c (Hkeys k t Ht) Hs Ht Hc) as [-> ->].
      rewrite Hs, Hc. reflexivity.
    + destruct (Hout k (Hnokeys k Ht)) as [-> ->]. rewrite Ht.
      destruct (states !! k); reflexivity.
Qed.

(** The lights after [step] are those after its signal loop, whatever
    happens to the agents. *)
Lemma step_signals e :
  lights_complete (lights e) ->
  lights_complete (lights (step e).2) /\
  forall k, signal_at (lights (step e).2) k = advanced <$> signal_at (lights e) k.
Proof.
  intros HL.
  destruct (advance_lights_spec (set_steps (steps e + 1) e) HL)
    as (l' & Hrun & Hc & Hsig).
  assert (E : lights (step e).2 = l').
  { unfold step. unfold mbind at 1, M_bind at 1, bind at 1. unfold modify at 1.
    unfold mbind at 1, M_bind at 1, bind at 1. rewrite Hrun.
    unfold mbind at 1, M_bind at 1, bind at 1. unfold get at 1.
    set (e1 := set_lights l' (set_steps (steps e + 1) e)).
    assert (F := preserves_for_each lights (elements (active_agents (pool e1)))
                   step_agent step_agent_lights e1).
    unfold mbind at 1, M_bind at 1, bind at 1.
    destruct (for_each (elements (active_agents (pool e1))) step_agent e1)
      as [[[] | x] e2]; simpl in *; exact F. }
  rewrite E. split; [assumption|]. intros k. rewrite Hsig. reflexivity.
Qed.

End LightProps.

Section SignalCycle.

Context {providers : Providers}.

Lemma steps_n_signals n : forall e e',
  lights_complete (lights e) ->
  steps_n n e = (Ok tt, e') ->
  lights_complete (lights e') /\
  forall k, signal_at (lights e') k = advanced_n n <$> signal_at (lights e) k.
Proof.
  induction n as [| n IH]; intros e e' HL Hrun.
  - simpl in Hrun. inversion Hrun; subst. split; [assumption|].
    intros k. simpl. destruct (signal_at (lights e') k); reflexivity.
  - simpl in Hrun. unfold mbind, M_bind, bind in Hrun.
    destruct (step_signals e HL) as [HL1 Hsig1].
    destruct (step e) as [[r | x] e1]; [| discriminate]. simpl in *.
    destruct (IH e1 e' HL1 Hrun) as [HL2 Hsig2].
    split; [assumption|]. intros k. rewrite Hsig2, Hsig1.
    destruct (signal_at (lights e) k) as [x |]; simpl; [| reflexivity].
    f_equal. unfold advanced_n. clear. induction n; simpl; congruence.
Qed.

Lemma advanced_n_20_30 n :
  advanced_n n (red, 0, mkCycle 20 30) =
  ((phase_20_30 n).1, (phase_20_30 n).2, mkCycle 20 30).
Proof.
  induction n as [| n IH].
  - reflexivity.
  - unfold advanced_n in *. simpl. rewrite IH. clear IH.
    unfold phase_20_30. rewrite Nat2Z.inj_succ.
    set (z := Z.of_nat n). assert (Hz : 0 <= z) by lia.
    assert (Hm := Z.mod_pos_bound z 50 ltac:(lia)).
    assert (Hs : Z.succ z mod 50 = if z mod 50 =? 49 then 0 else z mod 50 + 1).
    { destruct (z mod 50 =? 49) eqn:E.
      - apply Z.eqb_eq in E. symmetry.
        apply (Z.mod_unique_pos _ _ (z / 50 + 1)); [lia|].
        assert (D := Z.div_mod z 50 ltac:(lia)). lia.
      - apply Z.eqb_neq in E. symmetry.
        apply (Z.mod_unique_pos _ _ (z / 50)); [lia|].
        assert (D := Z.div_mod z 50 ltac:(lia)). lia. }
    rewrite Hs. clear Hs. unfold advanced, advance_signal.
    destruct (z mod 50 <? 20) eqn:E1; simpl.
    + apply Z.ltb_lt in E1.
      destruct (z mod 50 =? 49) eqn:E2; [apply Z.eqb_eq in E2; lia|].
      destruct (20 <=? z mod 50 + 1) eqn:E3; simpl.
      * apply Z.leb_le in E3.
        destruct (z mod 50 + 1 <? 20) eqn:E4; [apply Z.ltb_lt in E4; lia|].
        simpl. do 2 f_equal. lia.
      * apply Z.leb_gt in E3.
        destruct (z mod 50 + 1 <? 20) eqn:E4; [| apply Z.ltb_ge in E4; lia].
        reflexivity.
    + apply Z.ltb_ge in E1.
      destruct (30 <=? z mod 50 - 20 + 1) eqn:E3; simpl.
      * apply Z.leb_le in E3.
        destruct (z mod 50 =? 49) eqn:E2; [| apply Z.eqb_neq in E2; lia].
        reflexivity.
      * apply Z.leb_gt in E3.
        destruct (z mod 50 =? 49) eqn:E2; [apply Z.eqb_eq in E2; lia|].
        destruct (z mod 50 + 1 <? 20) eqn:E4; [apply Z.ltb_lt in E4; lia|].
        simpl. do 2 f_equal. lia.
Qed.

(** C1: one tick advances every signal that has a timer, a state and
    durations: the timer is incremented and, when it has reached the
    duration of the current state, reset to zero with the state flipped.
    Consequently a signal with durations 20 (red) and 30 (green) that is
    red with a zero timer is, after [n] ticks, red while [n mod 50 < 20]
    and green otherwise: green from tick 20, red again from tick 50, with
    period 50. *)
Theorem signal_cycle_correctness (e : DriveGraphEnv) (k : Z) (s : light) (t : Z)
    (c : cycle) :
  lights_complete (lights e) ->
  signal_at (lights e) k = Some (s, t, c) ->
  signal_at (lights (step e).2) k =
    Some (if cycle_time c s <=? t + 1 then (flip s, 0, c) else (s, t + 1, c)) /\
  (s = red -> t = 0 -> c = mkCycle 20 30 ->
   forall n e', steps_n n e = (Ok tt, e') ->
     signal_at (lights e') k =
       Some (if Z.of_nat n mod 50 <? 20 then red else green,
             if Z.of_nat n mod 50 <? 20 then Z.of_nat n mod 50
             else Z.of_nat n mod 50 - 20,
             mkCycle 20 30)).
Proof.
  intros HL Hk. split.
  - destruct (step_signals e HL) as [_ Hsig]. rewrite Hsig, Hk. simpl.
    unfold advance_signal. simpl. destruct (cycle_time c s <=? t + 1); reflexivity.
  - intros -> -> -> n e' Hrun.
    destruct (steps_n_signals n e e' HL Hrun) as [_ Hsig].
    rewrite Hsig, Hk. simpl. rewrite advanced_n_20_30. unfold phase_20_30.
    destruct (Z.of_nat n mod 50 <? 20); reflexivity.
Qed.

End SignalCycle.

Lemma lights_complete_just_red : lights_complete (lights Demo.just_red).
Proof.
  eexists _, _, _. split; [reflexivity|]. intros k [t Ht].
  destruct (decide (k = 2)) as [-> | Hne].
  - rewrite !lookup_singleton_eq. eauto.
  - rewrite lookup_singleton_ne in Ht by auto. discriminate.
Qed.

Lemma signal_cycle_correctness_witness :
  signal_at (lights (step (providers := Demo.providers) Demo.just_red).2) 2
    = Some (red, 1, mkCycle 20 30) /\
  (forall n e',
     steps_n (providers := Demo.providers) n Demo.just_red = (Ok tt, e') ->
     signal_at (lights e') 2 =
       Some (if Z.of_nat n mod 50 <? 20 then red else green,
             if Z.of_nat n mod 50 <? 20 then Z.of_nat n mod 50
             else Z.of_nat n mod 50 - 20,
             mkCycle 20 30)).
Proof.
  destruct (signal_cycle_correctness (providers := Demo.providers)
              Demo.just_red 2 red 0 (mkCycle 20 30) lights_complete_just_red)
    as [H1 H2].
  - vm_compute. reflexivity.
  - split; [exact H1 | exact (H2 eq_refl eq_refl eq_refl)].
Defined.

(** The signal of the small world over its first two periods: red until
    tick 19, green from tick 20, red again from tick 50, green from tick
    70, red at tick 100. *)
Example signal_flips_at_20_and_50 :
  map (fun n => fst <$> (signal_at
         (lights (steps_n (providers := Demo.providers) n Demo.just_red).2) 2))
      [0; 19; 20; 49; 50; 69; 70; 100]%nat
  = [Some (red, 0); Some (red, 19); Some (green, 0); Some (green, 29);
     Some (red, 0); Some (red, 19); Some (green, 0); Some (red, 0)].
Proof. vm_compute. reflexivity. Qed.

(** ** The loop body of [step] *)

Section StepAgent.

Context {providers : Providers}.

Lemma py_index_nonempty {A} (l : list A) i x : py_index l i = Ok x -> l <> [].
Proof.
  intros Hx ->. unfold py_index in Hx. simpl in Hx.
  destruct (_ || _); discriminate.
Qed.


End StepAgent.


Section Guard.

Context {providers : Providers}.

Lemma py_index_past_end {A} (l : list A) (i : Z) :
  Z.of_nat (length l) <= i -> py_index l i = Raise IndexError.
Proof.
  intros Hi. unfold py_index.
  assert (E1 : (i <? 0) = false) by (apply Z.ltb_ge; lia). rewrite E1.
  assert (E2 : (Z.of_nat (length l) <=? i) = true) by (apply Z.leb_le; lia).
  rewrite E2, orb_true_r. reflexivity.
Qed.


End Guard.


(** ** Loading tiles leaves the light tables and the display flag alone *)

Section LoadFrames.

Context {providers : Providers}.

Lemma get_required_tile_bounds_lights b : preserves lights (_get_required_tile_bounds b).
Proof. unfold _get_required_tile_bounds. frame. Qed.

Lemma get_required_tile_bounds_shown b :
  preserves lights_shown (_get_required_tile_bounds b).
Proof. unfold _get_required_tile_bounds. frame. Qed.

Lemma load_tile_graph_lights b : preserves lights (_load_tile_graph b).
Proof. unfold _load_tile_graph, write_cache. frame. Qed.

Lemma load_tile_graph_shown b : preserves lights_shown (_load_tile_graph b).
Proof. unfold _load_tile_graph, write_cache. frame. Qed.

#[local] Hint Resolve get_required_tile_bounds_lights get_required_tile_bounds_shown
  load_tile_graph_lights load_tile_graph_shown : frames.

Lemma load_tiles_lights bs : forall acc, preserves lights (load_tiles bs acc).
Proof. induction bs as [| b bs IH]; intros acc; simpl; frame. Qed.

Lemma load_tiles_shown bs : forall acc, preserves lights_shown (load_tiles bs acc).
Proof. induction bs as [| b bs IH]; intros acc; simpl; frame. Qed.

Lemma load_traffic_signals_lights : preserves lights _load_traffic_signals_for_bbox.
Proof. unfold _load_traffic_signals_for_bbox. frame. Qed.

Lemma load_traffic_signals_shown : preserves lights_shown _load_traffic_signals_for_bbox.
Proof. unfold _load_traffic_signals_for_bbox. frame. Qed.

#[local] Hint Resolve load_tiles_lights load_tiles_shown load_traffic_signals_lights
  load_traffic_signals_shown : frames.

Lemma load_and_merge_lights : preserves lights _load_and_merge_graph_tiles.
Proof. unfold _load_and_merge_graph_tiles. frame. Qed.

Lemma load_and_merge_shown : preserves lights_shown _load_and_merge_graph_tiles.
Proof. unfold _load_and_merge_graph_tiles. frame. Qed.

(** With lights hidden, [_initialize_traffic_lights] returns at once. *)
Lemma initialize_hidden e :
  lights_shown e = false -> _initialize_traffic_lights e = (Ok tt, e).
Proof.
  intros Hs. unfold _initialize_traffic_lights, mbind, M_bind, bind, get.
  unfold lights_shown in Hs. rewrite Hs. reflexivity.
Qed.

(** [step] without a timer table raises at its first statement on
    signals. *)
Lemma step_without_timers e :
  traffic_light_timers (lights e) = None -> (step e).1 = Raise AttributeError.
Proof.
  intros Ht. unfold step, advance_lights, mbind, M_bind, bind, modify, get. simpl.
  rewrite Ht. reflexivity.
Qed.

(** C10: an environment constructed with [show_traffic_lights] off has
    none of the three traffic-light tables, and its first tick raises an
    attribute error, directly after construction and also after the reset
    that precedes the tick loop. *)
Theorem hidden_lights_first_tick_fails
    (b : Bounds) (force_osm_refresh show_traffic_lanes : bool)
    (max_agents max_steps : Z) (snap_resolution : Q) (num_agents : Z)
    (cache_dir : string) (max_zoom : Q) (d : gmap string cache_file) (p : nat)
    (e : DriveGraphEnv) :
  new_env b force_osm_refresh false show_traffic_lanes max_agents max_steps
          snap_resolution num_agents cache_dir max_zoom d p = (Ok tt, e) ->
  lights e = no_lights /\
  (step e).1 = Raise AttributeError /\
  (exists e', reset e = (Ok tt, e') /\ lights e' = no_lights /\
              (step e').1 = Raise AttributeError).
Proof.
  intros Hnew.
  assert (HL : lights e = no_lights).
  { revert Hnew. unfold new_env.
    set (e0 := mkEnv _ _ _ _ _ _ _ _ _).
    unfold mbind at 1, M_bind at 1, bind at 1.
    assert (H1 := load_and_merge_lights e0).
    assert (H2 := load_and_merge_shown e0).
    destruct (_load_and_merge_graph_tiles e0) as [[[] | x] e1]; [| discriminate].
    simpl in H1, H2.
    unfold mbind at 1, M_bind at 1, bind at 1.
    rewrite (initialize_hidden e1 H2).
    unfold modify. intros Heq. inversion Heq; subst e. simpl. exact H1. }
  split; [exact HL|]. split.
  - apply step_without_timers. rewrite HL. reflexivity.
  - destruct (reset_total e) as [[] Hr]. assert (Hl := reset_lights e).
    destruct (reset e) as [r e'] eqn:Hreset. simpl in Hr, Hl. subst r.
    exists e'. split; [reflexivity|]. rewrite Hl, HL.
    split; [reflexivity|]. apply step_without_timers. rewrite Hl, HL. reflexivity.
Qed.

End LoadFrames.

Lemma hidden_lights_first_tick_fails_witness :
  lights (Demo.constructed false) = no_lights /\
  (step (providers := Demo.providers) (Demo.constructed false)).1 = Raise AttributeError.
Proof.
  destruct (hidden_lights_first_tick_fails (providers := Demo.providers)
              Demo.viewport false true 100000 1000 (1 # 20) 1 "./cache" (1 # 2) ∅ 0
              (Demo.constructed false)) as (H1 & H2 & _).
  - vm_compute. reflexivity.
  - split; assumption.
Defined.

(** ** Path planning *)

Section Planning.

Context {providers : Providers}.

Lemma attempt_shift G nodes p j :
  attempt G nodes (S (S p)) j = attempt G nodes p (S j).
Proof.
  unfold attempt, attempt_pair.
  replace (S (S p) + 2 * j)%nat with (p + 2 * S j)%nat by lia. reflexivity.
Qed.

Lemma attempt_pair_shift nodes p j :
  attempt_pair nodes (S (S p)) j = attempt_pair nodes p (S j).
Proof.
  unfold attempt_pair.
  replace (S (S p) + 2 * j)%nat with (p + 2 * S j)%nat by lia. reflexivity.
Qed.

Lemma attempt_zero G nodes p :
  attempt G nodes p 0 =
  shortest_path G (fst (choose2 nodes (rand p) (rand (S p))))
                  (snd (choose2 nodes (rand p) (rand (S p)))).
Proof.
  unfold attempt, attempt_pair. rewrite Nat.mul_0_r, Nat.add_0_r. reflexivity.
Qed.

(** The retry loop: it stops at the first accepted attempt, and otherwise
    makes exactly the [n] attempts it was given. *)
Lemma plan_attempts_spec G nodes n : forall p last used,
  match plan_attempts G nodes n p last used with
  | (Some l, last', p', used') =>
      exists i, (i < n)%nat /\ used' = (used + S i)%nat /\ p' = (p + 2 * S i)%nat /\
        accepted (attempt G nodes p i) = Some l /\
        last' = Some (attempt_pair nodes p i) /\
        forall j, (j < i)%nat -> accepted (attempt G nodes p j) = None
  | (None, _, p', used') =>
      used' = (used + n)%nat /\ p' = (p + 2 * n)%nat /\
      forall j, (j < n)%nat -> accepted (attempt G nodes p j) = None
  end.
Proof.
  induction n as [| n IH]; intros p last used.
  - simpl. repeat split; intros; lia.
  - cbn [plan_attempts].
    assert (Hz := attempt_zero G nodes p).
    assert (Hpz : attempt_pair nodes p 0 = choose2 nodes (rand p) (rand (S p))).
    { unfold attempt_pair. rewrite Nat.mul_0_r, Nat.add_0_r. reflexivity. }
    destruct (choose2 nodes (rand p) (rand (S p))) as [s g] eqn:Hch.
    simpl in Hz.
    assert (Hrec : forall last0,
      accepted (attempt G nodes p 0) = None ->
      match plan_attempts G nodes n (S (S p)) last0 (S used) with
      | (Some l, last', p', used') =>
          exists i, (i < S n)%nat /\ used' = (used + S i)%nat /\
            p' = (p + 2 * S i)%nat /\
            accepted (attempt G nodes p i) = Some l /\
            last' = Some (attempt_pair nodes p i) /\
            forall j, (j < i)%nat -> accepted (attempt G nodes p j) = None
      | (None, _, p', used') =>
          used' = (used + S n)%nat /\ p' = (p + 2 * S n)%nat /\
          forall j, (j < S n)%nat -> accepted (attempt G nodes p j) = None
      end).
    { intros last0 Hfail. specialize (IH (S (S p)) last0 (S used)).
      destruct (plan_attempts G nodes n (S (S p)) last0 (S used))
        as [[[[l |] last'] p'] used'].
      - destruct IH as (i & Hi & Hu & Hp & Hacc & Hlast & Hbefore).
        exists (S i). rewrite <- attempt_shift, <- attempt_pair_shift.
        repeat split; try lia; try assumption.
        intros [| j] Hj; [assumption|]. rewrite <- attempt_shift. apply Hbefore. lia.
      - destruct IH as (Hu & Hp & Hbefore). repeat split; try lia.
        intros [| j] Hj; [assumption|]. rewrite <- attempt_shift. apply Hbefore. lia. }
    destruct (shortest_path G s g) as [l | | |] eqn:Hsp; cbv beta iota;
      try (apply Hrec; rewrite Hz; reflexivity).
    destruct (1 <? length l)%nat eqn:Hlen; cbv beta iota.
    + exists 0%nat. rewrite Hz, Hpz. simpl. rewrite Hlen.
      repeat split; intros; lia.
    + apply Hrec. rewrite Hz. simpl. rewrite Hlen. reflexivity.
Qed.

Lemma accepted_length r l : accepted r = Some l -> (2 <= length l)%nat.
Proof.
  destruct r as [l' | | |]; simpl; try discriminate.
  destruct (1 <? length l')%nat eqn:E; [| discriminate].
  intros Heq. inversion Heq; subst. apply Nat.ltb_lt in E. lia.
Qed.

(** C7: planning returns on every graph and viewport after at most 20
    attempts (two random draws each).  The path it leaves on the agent, if
    any, is the first answer of the shortest-path routine with at least two
    nodes; when all 20 attempts fail the agent is left without a path; and
    the first such answer is indeed taken whenever the positions of its
    nodes are known. *)
Theorem planning_terminates_within_budget (agent : AgentState) (e : DriveGraphEnv) :
  let G := drive_graph_proj (net e) in
  let nodes := planning_candidates e in
  let p := rng_pos e in
  exists (agent' : AgentState) (e' : DriveGraphEnv) (attempts : nat),
    respawn_agent agent e = (Ok agent', e') /\
    (attempts <= 20)%nat /\
    rng_pos e' = (p + 2 * attempts)%nat /\
    ((forall j, (j < 20)%nat -> accepted (attempt G nodes p j) = None) ->
     path agent' = None) /\
    (forall l, path agent' = Some l ->
       (2 <= length l)%nat /\
       exists i, (i < 20)%nat /\ attempts = S i /\
         accepted (attempt G nodes p i) = Some l /\
         forall j, (j < i)%nat -> accepted (attempt G nodes p j) = None) /\
    (forall i l, (i < 20)%nat ->
       accepted (attempt G nodes p i) = Some l ->
       (forall j, (j < i)%nat -> accepted (attempt G nodes p j) = None) ->
       (2 <= length nodes)%nat ->
       positions_known e (attempt_pair nodes p i) l ->
       path agent' = Some l /\ path_index agent' = 0 /\ attempts = S i).
Proof.
  intros G nodes p.
  unfold respawn_agent, mbind, M_bind, bind, get. fold nodes.
  destruct (length nodes <? 2)%nat eqn:Hlen.
  - exists (with_path agent None), e, 0%nat. simpl.
    split; [reflexivity|]. split; [lia|]. split; [fold p; lia|].
    split; [reflexivity|]. split; [discriminate|].
    intros i l _ _ _ Hn. apply Nat.ltb_lt in Hlen. lia.
  - assert (Hspec := plan_attempts_spec G nodes 20 p None 0). fold G p.
    destruct (plan_attempts G nodes 20 p None 0) as [[[[l0 |] last'] p'] used'].
    + destruct Hspec as (i & Hi & Hu & Hp & Hacc & Hlast & Hbefore).
      subst last'. destruct (attempt_pair nodes p i) as [s g] eqn:Hpair.
      assert (Huniq : forall i' l', (i' < 20)%nat ->
                accepted (attempt G nodes p i') = Some l' ->
                (forall j, (j < i')%nat -> accepted (attempt G nodes p j) = None) ->
                i' = i /\ l' = l0).
      { intros i' l' Hi' Hacc' Hbefore'.
        destruct (Nat.lt_trichotomy i' i) as [Hlt | [-> | Hgt]].
        - rewrite (Hbefore i' Hlt) in Hacc'. discriminate.
        - rewrite Hacc in Hacc'. inversion Hacc'. auto.
        - rewrite (Hbefore' i Hgt) in Hacc. discriminate. }
      unfold modify. simpl.
      destruct (get_node_position e s) as [start_pos |] eqn:Hs;
        [destruct (get_node_position e g) as [goal_pos |] eqn:Hg;
         [destruct (mapM id (map (get_node_position e) l0)) as [ps |] eqn:Hps |] |];
        simpl; eexists _, _, used'; (split; [reflexivity|]);
        (split; [lia|]); (split; [simpl; lia|]); simpl.
      * split; [intros Hall; rewrite (Hall i Hi) in Hacc; discriminate|].
        split.
        -- intros l Hl. inversion Hl; subst l.
           split; [exact (accepted_length _ _ Hacc)|]. exists i. repeat split; auto; lia.
        -- intros i' l' Hi' Hacc' Hbefore' _ _.
           destruct (Huniq i' l' Hi' Hacc' Hbefore') as [-> ->].
           repeat split; auto; lia.
      * split; [reflexivity|]. split; [discriminate|].
        intros i' l' Hi' Hacc' Hbefore' _ (_ & _ & Hknown).
        destruct (Huniq i' l' Hi' Hacc' Hbefore') as [-> ->].
        exfalso. assert (Hsome : is_Some (mapM id (map (get_node_position e) l0))).
        { apply mapM_is_Some. apply Forall_forall. intros o Ho.
          apply list_elem_of_In, in_map_iff in Ho as (n & <- & Hn).
          apply Hknown. apply list_elem_of_In. assumption. }
        rewrite Hps in Hsome. destruct Hsome; discriminate.
      * split; [reflexivity|]. split; [discriminate|].
        intros i' l' Hi' Hacc' Hbefore' _ (_ & Hkg & _).
        destruct (Huniq i' l' Hi' Hacc' Hbefore') as [-> ->].
        rewrite Hpair in Hkg. simpl in Hkg. rewrite Hg in Hkg.
        destruct Hkg; discriminate.
      * split; [reflexivity|]. split; [discriminate|].
        intros i' l' Hi' Hacc' Hbefore' _ (Hks & _ & _).
        destruct (Huniq i' l' Hi' Hacc' Hbefore') as [-> ->].
        rewrite Hpair in Hks. simpl in Hks. rewrite Hs in Hks.
        destruct Hks; discriminate.
    + destruct Hspec as (Hu & Hp & Hnone).
      exists (with_path agent None), (set_rng_pos p' e), used'.
      split; [reflexivity|]. split; [lia|]. split; [simpl; lia|].
      split; [reflexivity|]. split; [discriminate|].
      intros i l Hi Hacc _ _ _. rewrite (Hnone i Hi) in Hacc. discriminate.
Qed.

End Planning.

Lemma planning_terminates_within_budget_witness :
  let agent0 :=
    {| agent_id := "vehicle_0"; position := vzero; velocity := vzero; goal := vzero;
       path := None; path_index := 0; path_positions := None |} in
  exists agent' e' attempts,
    respawn_agent (providers := Demo.providers) agent0 (Demo.constructed true)
      = (Ok agent', e') /\
    (attempts <= 20)%nat /\ path agent' = Some [1; 2; 3] /\ attempts = 2%nat.
Proof.
  intros agent0.
  destruct (planning_terminates_within_budget (providers := Demo.providers)
              agent0 (Demo.constructed true))
    as (agent' & e' & attempts & Hrun & Hle & _ & _ & _ & Hfirst).
  exists agent', e', attempts. split; [exact Hrun|]. split; [exact Hle|].
  destruct (Hfirst 1%nat [1; 2; 3]) as (Hp & _ & Ha).
  - lia.
  - vm_compute. reflexivity.
  - intros j Hj. assert (j = 0%nat) by lia. subst j. vm_compute. reflexivity.
  - vm_compute. lia.
  - split; [| split].
    + vm_compute. eauto.
    + vm_compute. eauto.
    + intros n Hn.
      repeat (apply elem_of_cons in Hn as [-> | Hn]; [vm_compute; eauto|]).
      inversion Hn.
  - auto.
Defined.

(** ** Loading one tile *)

Section LoadTile.

Context {providers : Providers}.

(** C6 on the code: on a cache miss (or a forced refresh) the outcome of
    [_load_tile_graph] follows the provider.  "No data" stores an empty
    tile under the cache path and returns it; a failure while processing
    the fetched graph returns no tile and leaves the cache as it was; but a
    failure of the download itself, other than "no data", is not caught:
    the method raises instead of returning no tile. *)
Theorem load_tile_graph_outcomes (tile_bounds : Bounds) (e : DriveGraphEnv) :
  force_osm_refresh (cfg e) || negb (cache_usable (disk e) (cache_path_of e tile_bounds))
    = true ->
  match graph_from_bbox tile_bounds with
  | InsufficientResponse =>
      _load_tile_graph tile_bounds e =
        (Ok (Some empty_tile),
         set_disk (<[cache_path_of e tile_bounds := Cached empty_tile]> (disk e)) e)
  | FetchFailed => _load_tile_graph tile_bounds e = (Raise ProviderError, e)
  | Fetched G =>
      match add_edge_speeds G with
      | None => _load_tile_graph tile_bounds e = (Ok None, e)
      | Some G_unproj =>
          match project_graph G_unproj with
          | None => _load_tile_graph tile_bounds e = (Ok None, e)
          | Some G_proj =>
              exists t,
                tile_drive_graph_proj t = G_proj /\
                tile_drive_graph_unproj t = G_unproj /\
                _load_tile_graph tile_bounds e =
                  (Ok (Some t),
                   set_disk (<[cache_path_of e tile_bounds := Cached t]> (disk e)) e)
          end
      end
  end.
Proof.
  intros Hmiss.
  assert (Hcond : negb (force_osm_refresh (cfg e)) &&
                  cache_usable (disk e) (cache_path_of e tile_bounds) = false).
  { destruct (force_osm_refresh (cfg e)); [reflexivity|].
    simpl in *. apply negb_true_iff in Hmiss. assumption. }
  unfold _load_tile_graph, mbind, M_bind, bind, get. rewrite Hcond.
  destruct (graph_from_bbox tile_bounds) as [G | |].
  - destruct (add_edge_speeds G) as [G_unproj |]; [| reflexivity].
    destruct (project_graph G_unproj) as [G_proj |]; [| reflexivity].
    eexists. split; [| split]; [| | reflexivity]; reflexivity.
  - reflexivity.
  - reflexivity.
Qed.

End LoadTile.

Lemma load_tile_graph_outcomes_witness :
  _load_tile_graph (providers := Demo.offline) Demo.viewport_north (Demo.constructed true)
  = (Raise ProviderError, Demo.constructed true) /\
  (new_env (providers := Demo.offline) Demo.viewport false true true 100000 1000
           (1 # 20) 1 "./cache" (1 # 2) ∅ 0).1 = Raise ProviderError.
Proof.
  split.
  - apply (load_tile_graph_outcomes (providers := Demo.offline)
             Demo.viewport_north (Demo.constructed true)).
    vm_compute. reflexivity.
  - vm_compute. reflexivity.
Defined.

(** ** Re-initialization of the signals *)

Section Reinitialize.

Context {providers : Providers}.

Lemma randint_range r : 20 <= randint_20_40 r < 40.
Proof.
  unfold randint_20_40.
  assert (H := Nat.mod_upper_bound r 20 ltac:(lia)). lia.
Qed.

(** The loop of [_initialize_traffic_lights]: the nodes of the list get a
    zero timer, a state and durations in range; the others keep what the
    tables had. *)
Lemma init_fold_spec ks : forall states0 timers0 cycles0 p0,
  match fold_left init_light ks (states0, timers0, cycles0, p0) with
  | (states, timers, cycles, _) =>
      forall k : Z,
        (k ∈ ks -> exists s c, states !! k = Some s /\ timers !! k = Some 0 /\
                               cycles !! k = Some c /\ cycle_in_range c) /\
        (k ∉ ks -> states !! k = states0 !! k /\ timers !! k = timers0 !! k /\
                   cycles !! k = cycles0 !! k)
  end.
Proof.
  induction ks as [| k0 ks IH]; intros states0 timers0 cycles0 p0.
  - simpl. intros k. split; [intros Hk; inversion Hk | auto].
  - cbn [fold_left]. unfold init_light at 2.
    specialize (IH (<[k0 := light_of_draw (rand p0)]> states0)
                   (<[k0 := 0]> timers0)
                   (<[k0 := {| cycle_red := randint_20_40 (rand (S p0));
                               cycle_green := randint_20_40 (rand (S (S p0))) |}]> cycles0)
                   (S (S (S p0)))).
    destruct (fold_left init_light ks _) as [[[states timers] cycles] p'].
    intros k. destruct (IH k) as [Hin Hout]. split.
    + intros Hk. destruct (decide (k ∈ ks)) as [Hks | Hks]; [auto|].
      apply elem_of_cons in Hk as [-> | Hk]; [| contradiction].
      destruct (Hout Hks) as (-> & -> & ->). rewrite !lookup_insert_eq.
      eexists _, _. repeat split; try reflexivity; apply randint_range.
    + intros Hk. apply not_elem_of_cons in Hk as [Hne Hks].
      destruct (Hout Hks) as (-> & -> & ->).
      rewrite !lookup_insert_ne by auto. auto.
Qed.

(** With lights shown, [_initialize_traffic_lights] discards the tables
    and builds them anew from [traffic_signals]. *)
Lemma initialize_shown e :
  lights_shown e = true ->
  exists e', _initialize_traffic_lights e = (Ok tt, e') /\
             net e' = net e /\ lights_shown e' = true /\ freshly_initialized e'.
Proof.
  intros Hs. unfold lights_shown in Hs.
  unfold _initialize_traffic_lights, mbind, M_bind, bind, get. rewrite Hs. simpl.
  assert (Hspec := init_fold_spec (elements (traffic_signals (net e))) ∅ ∅ ∅ (rng_pos e)).
  destruct (fold_left init_light _ _) as [[[states timers] cycles] p'].
  eexists. split; [reflexivity|]. split; [reflexivity|]. split; [exact Hs|].
  exists states, timers, cycles. split; [reflexivity|].
  intros k. destruct (Hspec k) as [Hin Hout]. simpl. split.
  - intros Hk. apply Hin. apply elem_of_elements. assumption.
  - intros Hk. rewrite <- elem_of_elements in Hk.
    destruct (Hout Hk) as (-> & -> & ->). rewrite !lookup_empty. auto.
Qed.

Lemma freshly_initialized_complete e :
  freshly_initialized e -> lights_complete (lights e).
Proof.
  intros (states & timers & cycles & HL & Hk).
  exists states, timers, cycles. split; [exact HL|].
  intros k [t Ht]. destruct (Hk k) as [Hin Hout].
  destruct (decide (k ∈ traffic_signals (net e))) as [Hs | Hs].
  - destruct (Hin Hs) as (s & c & -> & _ & -> & _). eauto.
  - destruct (Hout Hs) as (_ & Hn & _). congruence.
Qed.

(** An environment constructed with lights shown has complete tables, so
    that [signal_cycle_correctness] applies to it and, by [step_signals],
    to every state reached from it by ticks. *)
Lemma constructed_lights_complete
    (b : Bounds) (force_osm_refresh show_traffic_lanes : bool)
    (max_agents max_steps : Z) (snap_resolution : Q) (num_agents : Z)
    (cache_dir : string) (max_zoom : Q) (d : gmap string cache_file) (p : nat)
    (e : DriveGraphEnv) :
  new_env b force_osm_refresh true show_traffic_lanes max_agents max_steps
          snap_resolution num_agents cache_dir max_zoom d p = (Ok tt, e) ->
  lights_complete (lights e).
Proof.
  unfold new_env. set (e0 := mkEnv _ _ _ _ _ _ _ _ _).
  unfold mbind at 1, M_bind at 1, bind at 1.
  assert (H2 := load_and_merge_shown e0).
  destruct (_load_and_merge_graph_tiles e0) as [[[] | x] e1]; [| discriminate].
  simpl in H2.
  destruct (initialize_shown e1 H2) as (e2 & Hinit & _ & _ & Hf).
  unfold mbind at 1, M_bind at 1, bind at 1. rewrite Hinit.
  unfold modify. intros Heq. inversion Heq; subst e. simpl.
  apply freshly_initialized_complete. assumption.
Qed.

Lemma load_traffic_signals_total : total _load_traffic_signals_for_bbox.
Proof. unfold _load_traffic_signals_for_bbox. totality. Qed.

(** C3, amended: re-initialization with lights shown rebuilds all three
    tables from the current signal set, so that every signal node, whether
    or not it had state before, gets a zero timer and newly drawn state and
    durations, and no other node has an entry; with lights hidden it does
    nothing.  A bounds update either leaves the tables as they were or,
    with lights shown, ends with tables rebuilt in this way; it leaves them
    as they were when the required tiles are already loaded, unless lights
    were hidden, are now shown, and the signal set is empty. *)
Theorem reinitialization_rebuilds_signals
    (e : DriveGraphEnv) (b : Bounds) (show_lights show_lanes : bool) :
  (lights_shown e = true ->
   exists e', _initialize_traffic_lights e = (Ok tt, e') /\
              net e' = net e /\ freshly_initialized e') /\
  (lights_shown e = false -> _initialize_traffic_lights e = (Ok tt, e)) /\
  (let r := update_bounds b show_lights show_lanes e in
   lights r.2 = lights e \/
   (show_lights = true /\ r.1 = Ok tt /\ freshly_initialized r.2)) /\
  (forall b' tiles,
     required_tile_bounds (max_zoom (cfg e)) (snap_resolution (cfg e)) b = (b', Ok tiles) ->
     tiles_loaded e tiles = true ->
     show_lights && negb (lights_shown e) &&
       bool_decide (traffic_signals (net e) = ∅) = false ->
     lights (update_bounds b show_lights show_lanes e).2 = lights e).
Proof.
  split; [| split; [| split]].
  - intros Hs. destruct (initialize_shown e Hs) as (e' & H1 & H2 & _ & H4). eauto.
  - apply initialize_hidden.
  - cbv zeta.
    unfold update_bounds, _get_required_tile_bounds, mbind, M_bind, bind, get, modify, lift.
    cbn [fst snd cfg set_view].
    destruct (required_tile_bounds _ _ b) as [b' [tiles | x]]; [| left; reflexivity].
    cbn [fst snd mret M_ret ret].
    set (e1 := set_view _ (set_view _ e)).
    destruct (tiles_loaded _ tiles).
    + destruct (show_lights && negb (show_traffic_lights (view e))) eqn:Hnew;
        [| left; reflexivity].
      destruct (bool_decide (traffic_signals (net (set_view _ e)) = ∅));
        [| left; reflexivity].
      apply andb_true_iff in Hnew as [Hsl _].
      destruct (load_traffic_signals_total e1) as [[] Ht].
      assert (Hsh := load_traffic_signals_shown e1).
      destruct (_load_traffic_signals_for_bbox e1) as [r1 e2]. simpl in Ht, Hsh. subst r1.
      assert (Hs2 : lights_shown e2 = true) by (rewrite Hsh; exact Hsl).
      destruct (initialize_shown e2 Hs2) as (e3 & -> & _ & _ & Hf).
      right. auto.
    + assert (Hsh := load_and_merge_shown e1). assert (Hl := load_and_merge_lights e1).
      destruct (_load_and_merge_graph_tiles e1) as [[[] | x] e2]; simpl in Hsh, Hl;
        [| left; exact Hl].
      destruct show_lights.
      * assert (Hs2 : lights_shown e2 = true) by (rewrite Hsh; reflexivity).
        destruct (initialize_shown e2 Hs2) as (e3 & -> & _ & _ & Hf). right. auto.
      * assert (Hs2 : lights_shown e2 = false) by (rewrite Hsh; reflexivity).
        rewrite (initialize_hidden e2 Hs2). left. exact Hl.
  - intros b' tiles Hreq Hloaded Hcond.
    unfold update_bounds, _get_required_tile_bounds, mbind, M_bind, bind, get, modify, lift.
    cbn [fst snd cfg set_view]. rewrite Hreq. cbn [fst snd mret M_ret ret].
    change (tiles_loaded (set_view _ e) tiles) with (tiles_loaded e tiles).
    rewrite Hloaded. unfold lights_shown in Hcond.
    destruct (show_lights && negb (show_traffic_lights (view e))); [| reflexivity].
    simpl in Hcond.
    change (traffic_signals (net (set_view _ e))) with (traffic_signals (net e)).
    rewrite Hcond. reflexivity.
Qed.

End Reinitialize.

Lemma reinitialization_rebuilds_signals_witness :
  lights_shown Demo.running = true /\
  (exists e', _initialize_traffic_lights (providers := Demo.providers) Demo.running
              = (Ok tt, e') /\
              net e' = net Demo.running /\ freshly_initialized e') /\
  lights (update_bounds (providers := Demo.providers) Demo.viewport true true
            Demo.running).2 = lights Demo.running.
Proof.
  destruct (reinitialization_rebuilds_signals (providers := Demo.providers)
              Demo.running Demo.viewport true true) as (H1 & _ & _ & H4).
  split; [reflexivity|]. split.
  - apply H1. reflexivity.
  - eapply H4.
    + vm_compute. reflexivity.
    + vm_compute. reflexivity.
    + vm_compute. reflexivity.
Defined.

(** C3 as stated fails: the signal at node 2, red with timer 5 and
    durations 20 and 30, does not survive a re-initialization, nor a bounds
    update to a viewport in another tile whose signal set is again node 2:
    both leave it green with a zero timer and durations 24 and 25. *)
Lemma reinitialization_resets_existing_signal :
  let after_init :=
    (_initialize_traffic_lights (providers := Demo.providers) Demo.running).2 in
  let after_update :=
    (update_bounds (providers := Demo.providers) Demo.viewport_north true true
                   Demo.running).2 in
  signal_at (lights Demo.running) 2 = Some (red, 5, mkCycle 20 30) /\
  traffic_signals (net after_update) = traffic_signals (net Demo.running) /\
  signal_at (lights after_init) 2 = Some (green, 0, mkCycle 24 25) /\
  signal_at (lights after_update) 2 = Some (green, 0, mkCycle 24 25) /\
  ~ keeps_existing_signals Demo.running after_init /\
  ~ keeps_existing_signals Demo.running after_update.
Proof.
  intros after_init after_update.
  assert (H0 : signal_at (lights Demo.running) 2 = Some (red, 5, mkCycle 20 30))
    by (vm_compute; reflexivity).
  assert (H1 : signal_at (lights after_init) 2 = Some (green, 0, mkCycle 24 25))
    by (vm_compute; reflexivity).
  assert (H2 : signal_at (lights after_update) 2 = Some (green, 0, mkCycle 24 25))
    by (vm_compute; reflexivity).
  split; [exact H0|]. split; [vm_compute; reflexivity|].
  split; [exact H1|]. split; [exact H2|]. split.
  - intros Hk. specialize (Hk 2 _ H0). rewrite H1 in Hk. discriminate.
  - intros Hk. specialize (Hk 2 _ H0). rewrite H2 in Hk. discriminate.
Qed.

(** ** The session handler *)

Section HandlerProps.

Context {providers : Providers}.

Lemma no_create_cancel o : forallb (fun ev => negb (is_create ev)) (cancel_if_set o) = true.
Proof. destruct o; reflexivity. Qed.

Lemma no_create_datasets s f :
  forallb (fun ev => negb (is_create ev)) (dataset_sends s f) = true.
Proof.
  unfold dataset_sends.
  destruct (f_show_bart_lines f && bart_data s), (f_show_muni_stops f && muni_data s),
    (f_show_sf_parcels f); reflexivity.
Qed.

Lemma no_await_cancel o : forallb (fun ev => negb (is_await ev)) (cancel_if_set o) = true.
Proof. destruct o; reflexivity. Qed.

Lemma no_await_datasets s f :
  forallb (fun ev => negb (is_await ev)) (dataset_sends s f) = true.
Proof.
  unfold dataset_sends.
  destruct (f_show_bart_lines f && bart_data s), (f_show_muni_stops f && muni_data s),
    (f_show_sf_parcels f); reflexivity.
Qed.

(** A trace without creation cannot be split at a creation. *)
Lemma no_create_no_split l pre k t post :
  forallb (fun ev => negb (is_create ev)) l = true ->
  l <> pre ++ EvCreate k t :: post.
Proof.
  intros Hl Heq. subst l. rewrite forallb_app in Hl.
  apply andb_true_iff in Hl as [_ Hl]. simpl in Hl. discriminate.
Qed.

(** A trace that ends with its only creation splits there. *)
Lemma split_at_last_create l k0 t0 : forall pre k t post,
  forallb (fun ev => negb (is_create ev)) l = true ->
  l ++ [EvCreate k0 t0] = pre ++ EvCreate k t :: post ->
  pre = l /\ k = k0.
Proof.
  induction l as [| ev l IH]; intros pre k t post Hl Heq.
  - destruct pre as [| ev' pre]; simpl in Heq.
    + inversion Heq. auto.
    + inversion Heq as [[He Hrest]]. destruct pre; discriminate.
  - simpl in Hl. apply andb_true_iff in Hl as [Hev Hl].
    destruct pre as [| ev' pre]; simpl in Heq.
    + inversion Heq; subst. discriminate.
    + inversion Heq as [[He Hrest]]. subst ev'.
      destruct (IH pre k t post Hl Hrest) as [-> ->]. auto.
Qed.

Ltac trace_scan :=
  repeat (rewrite ?forallb_app, ?no_create_cancel, ?no_create_datasets,
            ?no_await_cancel, ?no_await_datasets;
          cbn [forallb negb is_create is_await andb]);
  reflexivity.

(** C8, amended: when handling a message creates a task of some kind while
    the session holds a task of that kind that has not finished, the
    cancellation of that task was requested earlier in the same handling;
    the handler never awaits a task. *)
Theorem replacement_cancels_prior_task
    (done : nat -> bool) (msg : message) (s : Session) (k : task_kind) (t : nat) :
  task_of k s = Some t ->
  done t = false ->
  cancelled_before_create k t (trace_of done msg s) /\
  forallb (fun ev => negb (is_await ev)) (trace_of done msg s) = true.
Proof.
  intros Htask Hdone. unfold trace_of, cancelled_before_create. split.
  - intros pre t' post Heq. revert Heq.
    destruct msg as [[b |] n f | [b |] f | [n |] | | |]; simpl;
      try solve [intros Heq; exfalso; revert Heq; apply no_create_no_split; trace_scan].
    + destruct (env s) as [e0 |];
        (destruct (new_env _ _ _ _ _ _ _ _ _ _ _ _) as [[[] | x] e1];
         [destruct (reset e1) as [[[] | x] e2] |]); simpl; intros Heq;
        try solve [exfalso; revert Heq; apply no_create_no_split; trace_scan].
      all: change (EvSend "initial_road_network"
                   :: dataset_sends s f ++ [EvCreate TickLoop (next_task_id s)])
             with (([EvSend "initial_road_network"] ++ dataset_sends s f)
                   ++ [EvCreate TickLoop (next_task_id s)]) in Heq;
        rewrite app_assoc in Heq;
        apply split_at_last_create in Heq as [-> ->]; [| trace_scan];
        simpl in Htask; rewrite Htask; simpl; left.
    + destruct (env s) as [e0 |]; simpl;
        [destruct (update_bounds _ _ _ e0) as [[[] | x] e1] |]; simpl; intros Heq;
        exfalso; revert Heq; apply no_create_no_split; trace_scan.
    + destruct (env s) as [e0 |]; simpl; intros Heq;
        [| exfalso; revert Heq; apply no_create_no_split; trace_scan].
      change (?c ++ [EvSend "info"; EvCreate Resize (next_task_id s)])
        with (c ++ [EvSend "info"] ++ [EvCreate Resize (next_task_id s)]) in Heq.
      rewrite app_assoc in Heq.
      apply split_at_last_create in Heq as [-> ->].
      * simpl in Htask. rewrite Htask, Hdone. left.
      * destruct (agent_setter_task s) as [t0 |]; [destruct (done t0) |]; trace_scan.
    + destruct (env s); intros Heq; exfalso; revert Heq; apply no_create_no_split;
        trace_scan.
  - destruct msg as [[b |] n f | [b |] f | [n |] | | |]; simpl; try trace_scan.
    + destruct (env s) as [e0 |];
        (destruct (new_env _ _ _ _ _ _ _ _ _ _ _ _) as [[[] | x] e1];
         [destruct (reset e1) as [[[] | x] e2] |]); simpl; trace_scan.
    + destruct (env s) as [e0 |]; simpl;
        [destruct (update_bounds _ _ _ e0) as [[[] | x] e1] |]; simpl; trace_scan.
    + destruct (env s) as [e0 |]; simpl; [| trace_scan].
      destruct (agent_setter_task s) as [t0 |]; [destruct (done t0) |]; trace_scan.
    + destruct (env s); trace_scan.
Qed.

End HandlerProps.

Example busy_session_traces :
  trace_of (providers := Demo.providers) DemoSession.nothing_done
           (MsgSetNumAgents (Some 5)) DemoSession.busy
  = [EvCancel 1; EvSend "info"; EvCreate Resize 2] /\
  trace_of (providers := Demo.providers) DemoSession.nothing_done
           DemoSession.start_msg DemoSession.busy
  = [EvCancel 0; EvCancel 1; EvSend "initial_road_network"; EvCreate TickLoop 2].
Proof. split; vm_compute; reflexivity. Qed.

Lemma replacement_cancels_prior_task_witness :
  cancelled_before_create Resize 1
    (trace_of (providers := Demo.providers) DemoSession.nothing_done
              (MsgSetNumAgents (Some 5)) DemoSession.busy) /\
  cancelled_before_create TickLoop 0
    (trace_of (providers := Demo.providers) DemoSession.nothing_done
              DemoSession.start_msg DemoSession.busy).
Proof.
  split.
  - exact (proj1 (replacement_cancels_prior_task (providers := Demo.providers)
                    DemoSession.nothing_done (MsgSetNumAgents (Some 5))
                    DemoSession.busy Resize 1 eq_refl eq_refl)).
  - exact (proj1 (replacement_cancels_prior_task (providers := Demo.providers)
                    DemoSession.nothing_done DemoSession.start_msg
                    DemoSession.busy TickLoop 0 eq_refl eq_refl)).
Defined.

(** C8 as stated fails: with a resize and a tick loop in flight, a new
    resize request and a new start each cancel the task they replace and
    create the replacement without awaiting the cancelled task. *)
Lemma replacement_does_not_await_prior_task :
  task_of Resize DemoSession.busy = Some 1%nat /\
  task_of TickLoop DemoSession.busy = Some 0%nat /\
  ~ cancelled_and_awaited_before_create Resize 1
      (trace_of (providers := Demo.providers) DemoSession.nothing_done
                (MsgSetNumAgents (Some 5)) DemoSession.busy) /\
  ~ cancelled_and_awaited_before_create TickLoop 0
      (trace_of (providers := Demo.providers) DemoSession.nothing_done
                DemoSession.start_msg DemoSession.busy).
Proof.
  destruct busy_session_traces as [-> ->].
  split; [reflexivity|]. split; [reflexivity|]. split.
  - intros Hc.
    destruct (Hc [EvCancel 1; EvSend "info"] 2%nat [] eq_refl) as (a & b & c & Heq).
    assert (Hin : EvAwaitTask 1 ∈ [EvCancel 1; EvSend "info"]).
    { rewrite Heq. apply elem_of_app; right. apply elem_of_cons; right.
      apply elem_of_app; right. left. }
    repeat (apply elem_of_cons in Hin as [Hin | Hin]; [discriminate|]).
    inversion Hin.
  - intros Hc.
    destruct (Hc [EvCancel 0; EvCancel 1; EvSend "initial_road_network"] 2%nat []
                 eq_refl) as (a & b & c & Heq).
    assert (Hin : EvAwaitTask 0 ∈ [EvCancel 0; EvCancel 1; EvSend "initial_road_network"]).
    { rewrite Heq. apply elem_of_app; right. apply elem_of_cons; right.
      apply elem_of_app; right. left. }
    repeat (apply elem_of_cons in Hin as [Hin | Hin]; [discriminate|]).
    inversion Hin.
Qed.

(** * Further properties *)

(** ** Snapping: coverage, grid and idempotence *)

Lemma snap_value (b : Bounds) (r : Q) :
  (0 < r)%Q ->
  _generate_snapped_bounds b r =
  Ok {| minLat := inject_Z (math_floor (minLat b / r)) * r;
        maxLat := if Qleb (inject_Z (math_ceil (maxLat b / r)) * r)
                          (inject_Z (math_floor (minLat b / r)) * r)
                  then inject_Z (math_floor (minLat b / r)) * r + r
                  else inject_Z (math_ceil (maxLat b / r)) * r;
        minLng := inject_Z (math_floor (minLng b / r)) * r;
        maxLng := if Qleb (inject_Z (math_ceil (maxLng b / r)) * r)
                          (inject_Z (math_floor (minLng b / r)) * r)
                  then inject_Z (math_floor (minLng b / r)) * r + r
                  else inject_Z (math_ceil (maxLng b / r)) * r |}%Q.
Proof.
  intros Hr. unfold _generate_snapped_bounds.
  rewrite !float_div_pos by assumption. reflexivity.
Qed.

(** One axis: the snapped interval contains the given one and its ends
    are multiples of the resolution. *)
Lemma snap_axis_covers lo hi r :
  (0 < r)%Q ->
  let smin := (inject_Z (math_floor (lo / r)) * r)%Q in
  let smax := (inject_Z (math_ceil (hi / r)) * r)%Q in
  let smax' := if Qleb smax smin then (smin + r)%Q else smax in
  (smin <= lo)%Q /\ (hi <= smax')%Q /\ multiple_of r smin /\ multiple_of r smax' /\
  (smin < smax')%Q.
Proof.
  intros Hr smin smax smax'.
  assert (H1 := floor_step_le lo r Hr). assert (H2 := ceil_step_ge hi r Hr).
  fold smin in H1. fold smax in H2.
  split; [exact H1|]. subst smax'. destruct (Qleb smax smin) eqn:E.
  - apply Qleb_le in E. split; [lra|]. split; [| split; [| lra]].
    + eexists. reflexivity.
    + exists (math_floor (lo / r) + 1). subst smin.
      rewrite inject_Z_plus. change (inject_Z 1) with 1%Q. ring.
  - split; [exact H2|]. split; [| split]; [eexists; reflexivity ..|].
    apply Qltb_lt. unfold Qltb, Qleb in *. rewrite E. reflexivity.
Qed.



Lemma floor_of_multiple (x r : Q) (k : Z) :
  (0 < r)%Q -> (x == inject_Z k * r)%Q -> math_floor (x / r) = k.
Proof.
  intros Hr Hx. unfold math_floor.
  rewrite (Qfloor_comp (x / r) (inject_Z k)); [apply Qfloor_Z|].
  rewrite Hx. field. lra.
Qed.

Lemma ceil_of_multiple (x r : Q) (k : Z) :
  (0 < r)%Q -> (x == inject_Z k * r)%Q -> math_ceil (x / r) = k.
Proof.
  intros Hr Hx. unfold math_ceil.
  rewrite (Qceiling_comp (x / r) (inject_Z k)); [apply Qceiling_Z|].
  rewrite Hx. field. lra.
Qed.

(** One axis of a second snap: an interval on the grid with its minimum
    below its maximum is left as it is. *)
Lemma resnap_axis lo hi r :
  (0 < r)%Q -> multiple_of r lo -> multiple_of r hi -> (lo < hi)%Q ->
  let smin := (inject_Z (math_floor (lo / r)) * r)%Q in
  let smax := (inject_Z (math_ceil (hi / r)) * r)%Q in
  (smin == lo /\ (if Qleb smax smin then smin + r else smax) == hi)%Q.
Proof.
  intros Hr [k Hk] [m Hm] Hlt smin smax.
  assert (E1 : (smin == lo)%Q).
  { subst smin. rewrite (floor_of_multiple lo r k Hr Hk). symmetry. exact Hk. }
  assert (E2 : (smax == hi)%Q).
  { subst smax. rewrite (ceil_of_multiple hi r m Hr Hm). symmetry. exact Hm. }
  split; [exact E1|].
  destruct (Qleb smax smin) eqn:E; [| exact E2].
  apply Qleb_le in E. lra.
Qed.





(** ** The name of a cache file *)

Lemma hex_length bytes : String.length (SHA1.hex bytes) = (2 * length bytes)%nat.
Proof. induction bytes as [| b bytes IH]; simpl; [reflexivity | rewrite IH; lia]. Qed.

Lemma digest_length msg : length (SHA1.digest msg) = 20%nat.
Proof. unfold SHA1.digest, SHA1.be_bytes. reflexivity. Qed.

Lemma string_length_app (s t : string) :
  String.length (s ++ t) = (String.length s + String.length t)%nat.
Proof. induction s as [| c s IH]; simpl; [reflexivity | rewrite IH; reflexivity]. Qed.



(** ** Signals: timer range and period for arbitrary durations *)

Lemma advanced_in_range s t c :
  positive_cycle c -> timer_in_range (s, t, c) -> timer_in_range (advanced (s, t, c)).
Proof.
  intros [Hr Hg] Ht. unfold advanced, advance_signal, timer_in_range in *. simpl.
  destruct (cycle_time c s <=? t + 1) eqn:E; simpl.
  - destruct s; simpl; lia.
  - apply Z.leb_gt in E. lia.
Qed.

Lemma advanced_n_in_range n : forall x,
  positive_cycle (snd x) -> timer_in_range x ->
  timer_in_range (advanced_n n x) /\ snd (advanced_n n x) = snd x.
Proof.
  induction n as [| n IH]; intros [[s t] c] Hc Hx; [auto|].
  destruct (IH (s, t, c) Hc Hx) as [H1 H2].
  unfold advanced_n in *. simpl.
  destruct (Nat.iter n advanced (s, t, c)) as [[s' t'] c'] eqn:E.
  simpl in H2. subst c'. split; [apply advanced_in_range; assumption | reflexivity].
Qed.

Lemma mod_succ (z P : Z) :
  0 < P -> (z + 1) mod P = if z mod P =? P - 1 then 0 else z mod P + 1.
Proof.
  intros HP. assert (Hm := Z.mod_pos_bound z P HP).
  assert (D := Z.div_mod z P ltac:(lia)).
  destruct (z mod P =? P - 1) eqn:E.
  - apply Z.eqb_eq in E. symmetry.
    apply (Z.mod_unique_pos _ _ (z / P + 1)); lia.
  - apply Z.eqb_neq in E. symmetry.
    apply (Z.mod_unique_pos _ _ (z / P)); lia.
Qed.

Lemma phase_succ c n :
  positive_cycle c ->
  advanced ((phase c n).1, (phase c n).2, c) = ((phase c (n + 1)).1, (phase c (n + 1)).2, c).
Proof.
  intros [Hr Hg]. unfold phase.
  set (P := cycle_red c + cycle_green c). assert (HP : 0 < P) by (subst P; lia).
  rewrite (mod_succ n P HP). assert (Hm := Z.mod_pos_bound n P HP).
  unfold advanced, advance_signal.
  destruct (n mod P <? cycle_red c) eqn:E1; simpl.
  - apply Z.ltb_lt in E1.
    destruct (n mod P =? P - 1) eqn:E2; [apply Z.eqb_eq in E2; subst P; lia|].
    destruct (cycle_red c <=? n mod P + 1) eqn:E3; simpl.
    + apply Z.leb_le in E3.
      destruct (n mod P + 1 <? cycle_red c) eqn:E4; [apply Z.ltb_lt in E4; lia|].
      simpl. do 2 f_equal. lia.
    + apply Z.leb_gt in E3.
      destruct (n mod P + 1 <? cycle_red c) eqn:E4; [| apply Z.ltb_ge in E4; lia].
      reflexivity.
  - apply Z.ltb_ge in E1.
    destruct (cycle_green c <=? n mod P - cycle_red c + 1) eqn:E3; simpl.
    + apply Z.leb_le in E3.
      destruct (n mod P =? P - 1) eqn:E2; [| apply Z.eqb_neq in E2; subst P; lia].
      destruct (0 <? cycle_red c) eqn:E4; [| apply Z.ltb_ge in E4; lia].
      reflexivity.
    + apply Z.leb_gt in E3.
      destruct (n mod P =? P - 1) eqn:E2; [apply Z.eqb_eq in E2; subst P; lia|].
      destruct (n mod P + 1 <? cycle_red c) eqn:E4; [apply Z.ltb_lt in E4; lia|].
      simpl. do 2 f_equal. lia.
Qed.

Lemma advanced_n_phase c k : forall n,
  positive_cycle c ->
  advanced_n k ((phase c n).1, (phase c n).2, c)
  = ((phase c (n + Z.of_nat k)).1, (phase c (n + Z.of_nat k)).2, c).
Proof.
  induction k as [| k IH]; intros n Hc.
  - simpl. rewrite Z.add_0_r. reflexivity.
  - unfold advanced_n in *. simpl. rewrite (IH n Hc), (phase_succ c _ Hc).
    replace (n + Z.of_nat k + 1) with (n + Z.of_nat (S k)) by lia. reflexivity.
Qed.

(** Every signal with its timer in range is a phase of its cycle. *)
Lemma in_range_is_phase s t c :
  positive_cycle c -> timer_in_range (s, t, c) ->
  exists n, 0 <= n /\ phase c n = (s, t).
Proof.
  intros [Hr Hg] Ht. unfold timer_in_range in Ht. unfold phase.
  destruct s; simpl in Ht.
  - exists t. split; [lia|]. rewrite Z.mod_small by lia.
    destruct (t <? cycle_red c) eqn:E; [reflexivity | apply Z.ltb_ge in E; lia].
  - exists (cycle_red c + t). split; [lia|]. rewrite Z.mod_small by lia.
    destruct (cycle_red c + t <? cycle_red c) eqn:E; [apply Z.ltb_lt in E; lia|].
    f_equal. lia.
Qed.

Lemma phase_period c n :
  positive_cycle c -> phase c (n + (cycle_red c + cycle_green c)) = phase c n.
Proof.
  intros [Hr Hg]. unfold phase.
  replace (n + (cycle_red c + cycle_green c))
    with (n + 1 * (cycle_red c + cycle_green c)) by lia.
  rewrite Z.mod_add by lia. reflexivity.
Qed.

Section SignalInvariants.

Context {providers : Providers}.

(** For every signal with positive durations whose timer is below the
    duration of its state, any number of successful ticks keeps the
    durations and keeps the timer in that range; and after
    [red + green] ticks the signal is exactly as it was: every signal is
    periodic with the sum of its two durations. *)
Theorem signal_is_periodic (e : DriveGraphEnv) (k : Z) (s : light) (t : Z) (c : cycle) :
  lights_complete (lights e) ->
  signal_at (lights e) k = Some (s, t, c) ->
  positive_cycle c ->
  timer_in_range (s, t, c) ->
  (forall n e', steps_n n e = (Ok tt, e') ->
     exists s' t', signal_at (lights e') k = Some (s', t', c) /\
                   timer_in_range (s', t', c)) /\
  (forall e', steps_n (Z.to_nat (cycle_red c + cycle_green c)) e = (Ok tt, e') ->
     signal_at (lights e') k = Some (s, t, c)).
Proof.
  intros HL Hk Hc Ht. split.
  - intros n e' Hrun. destruct (steps_n_signals n e e' HL Hrun) as [_ Hsig].
    rewrite Hsig, Hk. simpl.
    destruct (advanced_n_in_range n (s, t, c) Hc Ht) as [H1 H2].
    destruct (advanced_n n (s, t, c)) as [[s' t'] c']. simpl in H2. subst c'.
    exists s', t'. auto.
  - intros e' Hrun. destruct (steps_n_signals _ e e' HL Hrun) as [_ Hsig].
    rewrite Hsig, Hk. simpl. f_equal.
    destruct (in_range_is_phase s t c Hc Ht) as (n & Hn & Hph).
    assert (Hst : (s, t, c) = ((phase c n).1, (phase c n).2, c)) by (rewrite Hph; reflexivity).
    rewrite Hst at 1. rewrite advanced_n_phase by assumption.
    destruct Hc as [Hr Hg]. rewrite Z2Nat.id by lia.
    rewrite phase_period by (split; assumption). symmetry. exact Hst.
Qed.

End SignalInvariants.

Lemma signal_is_periodic_witness :
  signal_at (lights (steps_n (providers := Demo.providers) 50 Demo.just_red).2) 2
    = Some (red, 0, mkCycle 20 30).
Proof.
  destruct (signal_is_periodic (providers := Demo.providers)
              Demo.just_red 2 red 0 (mkCycle 20 30) lights_complete_just_red)
    as [_ H].
  - vm_compute. reflexivity.
  - split; reflexivity.
  - split; [discriminate | reflexivity].
  - destruct (steps_n (providers := Demo.providers) 50 Demo.just_red)
      as [[[] | x] e'] eqn:Hrun.
    + exact (H e' Hrun).
    + vm_compute in Hrun. discriminate.
Defined.

(** ** The agent pool: ids, the active set and the size *)

Lemma vehicle_id_inj k1 k2 : vehicle_id k1 = vehicle_id k2 -> k1 = k2.
Proof.
  unfold vehicle_id. intros Heq.
  apply (inj (String.append "vehicle_")) in Heq.
  apply (inj pretty) in Heq. exact Heq.
Qed.

Lemma fresh_vehicle_id p :
  ids_issued p -> agents p !! vehicle_id (next_agent_id p) = None.
Proof.
  intros Hids. destruct (agents p !! vehicle_id (next_agent_id p)) eqn:E; [| reflexivity].
  destruct (Hids _ (mk_is_Some _ _ E)) as (k & Hk & Heq).
  apply vehicle_id_inj in Heq. lia.
Qed.

Lemma pool_ok_store cap n id a p :
  pool_ok cap n p -> is_Some (agents p !! id) -> pool_ok cap n (pool_store id a p).
Proof.
  intros (Hids & Hsync & Hsize & Hcap) Hin. unfold pool_ok, pool_store. simpl.
  split; [| split; [| split]].
  - intros id' Hid'. apply Hids. simpl in Hid'.
    destruct (decide (id = id')) as [-> | Hne]; [assumption|].
    rewrite lookup_insert_ne in Hid' by assumption. assumption.
  - unfold pool_in_sync in *. simpl. rewrite dom_insert_lookup_L by assumption.
    assumption.
  - rewrite map_size_insert_Some by assumption. assumption.
  - assumption.
Qed.

Lemma pool_ok_remove cap n id p :
  pool_ok cap n p -> is_Some (agents p !! id) ->
  exists m, n = S m /\ pool_ok cap m (pool_remove id p).
Proof.
  intros (Hids & Hsync & Hsize & Hcap) Hin.
  assert (Hs : size (agents p) = S (size (delete id (agents p)))).
  { destruct Hin as [x Hx].
    rewrite <- (insert_delete_id (agents p) id x Hx) at 1.
    apply map_size_insert_None. apply lookup_delete_eq. }
  exists (size (delete id (agents p))). split; [lia|].
  unfold pool_ok, pool_remove. simpl. split; [| split; [| split]].
  - intros id' Hid'. apply Hids. simpl in Hid'.
    destruct (decide (id = id')) as [-> | Hne].
    + rewrite lookup_delete_eq in Hid'. destruct Hid'; discriminate.
    + rewrite lookup_delete_ne in Hid' by assumption. assumption.
  - unfold pool_in_sync in *. simpl. rewrite dom_delete_L, Hsync. reflexivity.
  - reflexivity.
  - lia.
Qed.

Lemma pool_ok_remove_absent cap n id p :
  pool_ok cap n p -> agents p !! id = None -> id ∉ active_agents p.
Proof.
  intros (_ & Hsync & _) Hout. rewrite Hsync. apply not_elem_of_dom. assumption.
Qed.

Lemma pool_ok_add cap n a p :
  pool_ok cap n p -> Z.of_nat n < cap -> pool_ok cap (S n) (pool_add a p).
Proof.
  intros (Hids & Hsync & Hsize & Hcap) Hlt.
  assert (Hfresh := fresh_vehicle_id p Hids).
  unfold pool_ok, pool_add. simpl. split; [| split; [| split]].
  - intros id' Hid'. simpl in *.
    destruct (decide (vehicle_id (next_agent_id p) = id')) as [<- | Hne].
    + exists (next_agent_id p). split; [lia | reflexivity].
    + rewrite lookup_insert_ne in Hid' by assumption.
      destruct (Hids id' Hid') as (k & Hk & ->). exists k. split; [lia | reflexivity].
  - unfold pool_in_sync in *. simpl. rewrite dom_insert_L, Hsync. reflexivity.
  - rewrite map_size_insert_None by assumption. lia.
  - lia.
Qed.

Section PoolOps.

Context {providers : Providers}.

(** [respawn_agent] returns the agent under its id and touches neither
    the pool nor the configuration. *)
Lemma respawn_agent_result a e :
  exists a' e', respawn_agent a e = (Ok a', e') /\ agent_id a' = agent_id a /\
                pool e' = pool e /\ cfg e' = cfg e.
Proof.
  unfold respawn_agent, mbind, M_bind, bind, get, modify, mret, M_ret, ret.
  destruct (length (planning_candidates e) <? 2)%nat; [eauto 10|].
  destruct (plan_attempts _ _ _ _ _ _) as [[[np last] p] u]. simpl.
  destruct np as [l |]; [| eauto 10].
  destruct last as [[s g] |]; [| eauto 10].
  destruct (get_node_position e s); [| eauto 10].
  destruct (get_node_position e g); [| eauto 10].
  destruct (mapM id _); eauto 10.
Qed.

Lemma remove_agent_present id e :
  is_Some (agents (pool e) !! id) ->
  exists e', remove_agent id e = (Ok true, e') /\
             pool e' = pool_remove id (pool e) /\ cfg e' = cfg e.
Proof.
  intros [a Ha]. unfold remove_agent, mbind, M_bind, bind, get, modify. rewrite Ha.
  eexists. split; [reflexivity|]. split; reflexivity.
Qed.

Lemma remove_agent_absent id e :
  agents (pool e) !! id = None -> remove_agent id e = (Ok false, e).
Proof.
  intros Ha. unfold remove_agent, mbind, M_bind, bind, get. rewrite Ha. reflexivity.
Qed.

Lemma add_agent_at_cap e :
  max_agents (cfg e) <= Z.of_nat (size (agents (pool e))) ->
  add_agent e = (Ok None, e).
Proof.
  intros Hcap. unfold add_agent, mbind, M_bind, bind, get.
  apply Z.leb_le in Hcap. rewrite Hcap. reflexivity.
Qed.

Lemma add_agent_below_cap e :
  Z.of_nat (size (agents (pool e))) < max_agents (cfg e) ->
  exists a' e',
    add_agent e = (Ok (Some (vehicle_id (next_agent_id (pool e)))), e') /\
    agent_id a' = vehicle_id (next_agent_id (pool e)) /\
    pool e' = pool_add a' (pool e) /\ cfg e' = cfg e.
Proof.
  intros Hcap. unfold add_agent, mbind, M_bind, bind, get.
  apply Z.leb_gt in Hcap. rewrite Hcap. unfold modify at 1.
  set (a0 := mkAgent _ _ _ _ _ _ _). set (e1 := set_pool _ e).
  destruct (respawn_agent_result a0 e1) as (a' & e2 & -> & Hid & Hp & Hc).
  exists a', (store_agent (vehicle_id (next_agent_id (pool e))) a' e2).2.
  split; [reflexivity|]. split; [exact Hid|]. split.
  - unfold store_agent, modify. simpl. rewrite Hp. subst e1. simpl.
    unfold pool_add. f_equal. apply insert_insert_eq.
  - unfold store_agent, modify. simpl. rewrite Hc. reflexivity.
Qed.

(** [remove_agent] on an id of a well-formed pool. *)
Lemma remove_agent_spec (n : nat) (id : string) (e : DriveGraphEnv) :
  env_pool_ok n e ->
  is_Some (agents (pool e) !! id) ->
  exists e' m,
    remove_agent id e = (Ok true, e') /\ n = S m /\ env_pool_ok m e' /\
    agents (pool e') !! id = None /\ (id ∉ active_agents (pool e')) /\
    (forall id', id' <> id -> agents (pool e') !! id' = agents (pool e) !! id') /\
    remove_agent id e' = (Ok false, e').
Proof.
  intros Hok Hin.
  destruct (remove_agent_present id e Hin) as (e' & Hrun & Hp & Hc).
  destruct (pool_ok_remove _ _ id _ Hok Hin) as (m & -> & Hok').
  assert (Hgone : agents (pool e') !! id = None)
    by (rewrite Hp; apply lookup_delete_eq).
  exists e', m. split; [exact Hrun|]. split; [reflexivity|].
  split; [unfold env_pool_ok; rewrite Hp, Hc; exact Hok'|].
  split; [exact Hgone|]. split.
  - rewrite Hp. simpl. apply not_elem_of_difference. right.
    apply elem_of_singleton. reflexivity.
  - split; [| apply remove_agent_absent; exact Hgone].
    intros id' Hne. rewrite Hp. simpl. apply lookup_delete_ne. auto.
Qed.

(** [remove_agent]: removing an agent of a well-formed pool answers
    [True] and leaves a well-formed pool with one agent less in which the
    id is neither in the table nor active; removing it again, or removing
    any id that is not in the table, answers [False] and changes
    nothing. *)
Theorem remove_agent_is_idempotent (n : nat) (id : string) (e : DriveGraphEnv) :
  env_pool_ok n e ->
  is_Some (agents (pool e) !! id) ->
  exists e' m,
    remove_agent id e = (Ok true, e') /\ n = S m /\ env_pool_ok m e' /\
    agents (pool e') !! id = None /\ (id ∉ active_agents (pool e')) /\
    (forall id', id' <> id -> agents (pool e') !! id' = agents (pool e) !! id') /\
    remove_agent id e' = (Ok false, e').
Proof. exact (remove_agent_spec n id e). Qed.

(** [add_agent] on a well-formed pool, at the cap and below it. *)
Lemma add_agent_spec (n : nat) (e : DriveGraphEnv) :
  env_pool_ok n e ->
  (max_agents (cfg e) <= Z.of_nat n -> add_agent e = (Ok None, e)) /\
  (Z.of_nat n < max_agents (cfg e) ->
   exists e',
     add_agent e = (Ok (Some (vehicle_id (next_agent_id (pool e)))), e') /\
     agents (pool e) !! vehicle_id (next_agent_id (pool e)) = None /\
     is_Some (agents (pool e') !! vehicle_id (next_agent_id (pool e))) /\
     next_agent_id (pool e') = next_agent_id (pool e) + 1 /\
     env_pool_ok (S n) e').
Proof.
  intros Hok. assert (Hsize : size (agents (pool e)) = n) by apply Hok. split.
  - intros Hcap. apply add_agent_at_cap. rewrite Hsize. exact Hcap.
  - intros Hcap.
    destruct (add_agent_below_cap e) as (a' & e' & Hrun & _ & Hp & Hc);
      [rewrite Hsize; exact Hcap|].
    exists e'. split; [exact Hrun|].
    split; [apply fresh_vehicle_id; apply Hok|].
    split; [rewrite Hp; simpl; rewrite lookup_insert_eq; eauto|].
    split; [rewrite Hp; reflexivity|].
    unfold env_pool_ok. rewrite Hp, Hc. apply pool_ok_add; assumption.
Qed.

(** [add_agent]: at the cap nothing happens and no id is returned; below
    the cap the pool grows by exactly one agent, stored under the next
    [vehicle_N] id, which was not in use, and the counter advances. *)
Theorem add_agent_respects_cap (n : nat) (e : DriveGraphEnv) :
  env_pool_ok n e ->
  (max_agents (cfg e) <= Z.of_nat n -> add_agent e = (Ok None, e)) /\
  (Z.of_nat n < max_agents (cfg e) ->
   exists e',
     add_agent e = (Ok (Some (vehicle_id (next_agent_id (pool e)))), e') /\
     agents (pool e) !! vehicle_id (next_agent_id (pool e)) = None /\
     is_Some (agents (pool e') !! vehicle_id (next_agent_id (pool e))) /\
     next_agent_id (pool e') = next_agent_id (pool e) + 1 /\
     env_pool_ok (S n) e').
Proof. exact (add_agent_spec n e). Qed.

End PoolOps.

Section PoolSize.

Context {providers : Providers}.

Lemma respawn_agent_steps a : preserves steps (respawn_agent a).
Proof. unfold respawn_agent. frame. Qed.

Lemma respawn_agent_num a : preserves num_agents (respawn_agent a).
Proof. unfold respawn_agent. frame. Qed.

#[local] Hint Resolve respawn_agent_steps respawn_agent_num : frames.

Lemma add_agent_steps : preserves steps add_agent.
Proof. unfold add_agent, store_agent. frame. Qed.

Lemma add_agent_num : preserves num_agents add_agent.
Proof. unfold add_agent, store_agent. frame. Qed.

Lemma remove_agent_num id : preserves num_agents (remove_agent id).
Proof. unfold remove_agent. frame. Qed.

Lemma remove_agent_cfg id : preserves cfg (remove_agent id).
Proof. unfold remove_agent. frame. Qed.

#[local] Hint Resolve add_agent_steps add_agent_num remove_agent_num remove_agent_cfg
  : frames.

Lemma add_agents_steps k : preserves steps (add_agents k).
Proof. induction k; simpl; frame. Qed.

Lemma add_agents_num k : preserves num_agents (add_agents k).
Proof. induction k; simpl; frame. Qed.

(** [k] calls of [add_agent] fill the pool up to the cap and no
    further. *)
Lemma add_agents_size k : forall n e,
  env_pool_ok n e ->
  exists e',
    add_agents k e = (Ok tt, e') /\ cfg e' = cfg e /\
    env_pool_ok (Nat.min (n + k) (Z.to_nat (max_agents (cfg e)))) e' /\
    next_agent_id (pool e') =
      next_agent_id (pool e)
      + Z.of_nat (Nat.min (n + k) (Z.to_nat (max_agents (cfg e))) - n).
Proof.
  induction k as [| k IH]; intros n e Hok.
  - exists e. assert (Hcap : Z.of_nat n <= max_agents (cfg e)) by apply Hok.
    replace (Nat.min (n + 0) (Z.to_nat (max_agents (cfg e)))) with n by lia.
    replace (Z.of_nat (n - n)) with 0 by lia. rewrite Z.add_0_r. auto.
  - simpl. unfold mbind, M_bind, bind.
    destruct (add_agent_spec n e Hok) as [Hfull Hroom].
    destruct (Z_lt_le_dec (Z.of_nat n) (max_agents (cfg e))) as [Hlt | Hge].
    + destruct (Hroom Hlt) as (e1 & Hrun & _ & _ & Hnext & Hok1).
      assert (Hc1 : cfg e1 = cfg e).
      { destruct (add_agent_below_cap e) as (a' & e1' & Hrun' & _ & _ & Hc);
          [replace (size (agents (pool e))) with n by (symmetry; apply Hok); exact Hlt|].
        rewrite Hrun in Hrun'. inversion Hrun'; subst. exact Hc. }
      rewrite Hrun. destruct (IH (S n) e1 Hok1) as (e' & Hrun' & Hc' & Hok' & Hnext').
      exists e'. rewrite Hc1 in *. split; [exact Hrun'|]. split; [exact Hc'|].
      replace (n + S k)%nat with (S n + k)%nat by lia. split; [exact Hok'|].
      rewrite Hnext', Hnext. lia.
    + rewrite (Hfull Hge).
      destruct (IH n e Hok) as (e' & Hrun' & Hc' & Hok' & Hnext').
      exists e'. split; [exact Hrun'|]. split; [exact Hc'|].
      replace (Nat.min (n + S k) (Z.to_nat (max_agents (cfg e))))
        with (Nat.min (n + k) (Z.to_nat (max_agents (cfg e)))) by lia.
      split; [exact Hok' | exact Hnext'].
Qed.

Lemma empty_pool_ok cap : 0 <= cap -> pool_ok cap 0 (mkPool ∅ ∅ 0).
Proof.
  intros Hcap. split; [| split; [| split]].
  - intros id [a Ha]. simpl in Ha. rewrite lookup_empty in Ha. discriminate.
  - unfold pool_in_sync. simpl. rewrite dom_empty_L. reflexivity.
  - apply map_size_empty.
  - simpl. exact Hcap.
Qed.

(** [reset] for a non-negative cap. *)
Lemma reset_spec (e : DriveGraphEnv) :
  0 <= max_agents (cfg e) ->
  exists e',
    reset e = (Ok tt, e') /\ steps e' = 0 /\ num_agents e' = num_agents e /\
    env_pool_ok (Nat.min (Z.to_nat (num_agents e)) (Z.to_nat (max_agents (cfg e)))) e' /\
    next_agent_id (pool e') = Z.of_nat (size (agents (pool e'))).
Proof.
  intros Hcap. unfold reset, mbind, M_bind, bind, modify, get.
  set (e0 := set_steps 0 (set_pool _ e)).
  assert (Hok0 : env_pool_ok 0 e0) by (apply empty_pool_ok; exact Hcap).
  destruct (add_agents_size (Z.to_nat (num_agents e0)) 0 e0 Hok0)
    as (e' & Hrun & Hc & Hok & Hnext).
  assert (Hs := add_agents_steps (Z.to_nat (num_agents e0)) e0).
  assert (Hn := add_agents_num (Z.to_nat (num_agents e0)) e0).
  rewrite Hrun in Hs, Hn. simpl in Hs, Hn.
  exists e'. split; [exact Hrun|]. split; [exact Hs|]. split; [exact Hn|].
  split; [exact Hok|].
  rewrite Hnext. destruct Hok as (_ & _ & -> & _). simpl. lia.
Qed.

(** [reset] (for a non-negative cap) always returns; afterwards the step
    counter is zero, the pool is well-formed and holds [num_agents]
    agents, or as many as the cap allows, and the ids in use are exactly
    those the counter has issued since the reset. *)
Theorem reset_fills_pool (e : DriveGraphEnv) :
  0 <= max_agents (cfg e) ->
  exists e',
    reset e = (Ok tt, e') /\ steps e' = 0 /\ num_agents e' = num_agents e /\
    env_pool_ok (Nat.min (Z.to_nat (num_agents e)) (Z.to_nat (max_agents (cfg e)))) e' /\
    next_agent_id (pool e') = Z.of_nat (size (agents (pool e'))).
Proof. exact (reset_spec e). Qed.

End PoolSize.

(** The demo world after [reset]: a well-formed pool of one agent. *)
Lemma demo_started_pool_ok : env_pool_ok 1 Demo.started.
Proof.
  destruct (reset_spec (providers := Demo.providers) (Demo.constructed true))
    as (e' & Hrun & _ & _ & Hok & _); [vm_compute; discriminate|].
  unfold Demo.started. rewrite Hrun. exact Hok.
Qed.

Lemma reset_fills_pool_witness :
  exists e',
    reset (providers := Demo.providers) (Demo.constructed true) = (Ok tt, e') /\
    size (agents (pool e')) = 1%nat /\ next_agent_id (pool e') = 1.
Proof.
  destruct (reset_fills_pool (providers := Demo.providers) (Demo.constructed true))
    as (e' & Hrun & _ & _ & Hok & Hnext).
  - vm_compute. discriminate.
  - exists e'. split; [exact Hrun|].
    destruct Hok as (_ & _ & Hsize & _). split.
    + rewrite Hsize. vm_compute. reflexivity.
    + rewrite Hnext, Hsize. vm_compute. reflexivity.
Defined.

Lemma remove_agent_is_idempotent_witness :
  exists e',
    remove_agent "vehicle_0" Demo.started = (Ok true, e') /\
    remove_agent "vehicle_0" e' = (Ok false, e').
Proof.
  assert (Hok := demo_started_pool_ok).
  destruct (remove_agent_is_idempotent 1 "vehicle_0"
              Demo.started Hok) as (e' & m & H1 & _ & _ & _ & _ & _ & H2).
  - vm_compute. eauto.
  - exists e'. split; assumption.
Defined.

Lemma add_agent_respects_cap_witness :
  exists e',
    add_agent (providers := Demo.providers) Demo.started = (Ok (Some "vehicle_1"), e') /\
    env_pool_ok 2 e'.
Proof.
  assert (Hok := demo_started_pool_ok).
  destruct (add_agent_respects_cap (providers := Demo.providers) 1 Demo.started Hok)
    as [_ H].
  destruct H as (e' & Hrun & _ & _ & _ & Hok'); [vm_compute; reflexivity|].
  exists e'. split; [exact Hrun | exact Hok'].
Defined.

Section Resize.

Context {providers : Providers}.

(** [sample] of [k] entries of a duplicate-free list with at least [k]
    entries: [k] distinct entries of the list; only the random stream
    moves. *)
Lemma sample_spec {A} k : forall (l : list A) e,
  (k <= length l)%nat -> NoDup l ->
  exists xs e',
    sample l k e = (Ok xs, e') /\ pool e' = pool e /\ cfg e' = cfg e /\
    num_agents e' = num_agents e /\
    length xs = k /\ NoDup xs /\ (forall x, x ∈ xs -> x ∈ l).
Proof.
  induction k as [| k IH]; intros l e Hk Hnd.
  - exists [], e. simpl. repeat split; auto using NoDup_nil_2.
    intros x Hx. inversion Hx.
  - simpl. unfold mbind, M_bind, bind, draw.
    set (i := (rand (rng_pos e) mod length l)%nat).
    assert (Hi : (i < length l)%nat) by (apply Nat.mod_upper_bound; lia).
    destruct (lookup_lt_is_Some_2 l i Hi) as [x Hx]. rewrite Hx.
    set (e1 := set_rng_pos (S (rng_pos e)) e).
    assert (Hsplit : l = take i l ++ x :: drop (S i) l)
      by (symmetry; apply take_drop_middle; exact Hx).
    assert (Hnd' : NoDup (take i l ++ drop (S i) l)).
    { rewrite Hsplit in Hnd. apply NoDup_app in Hnd as (H1 & H2 & H3).
      apply NoDup_cons in H3 as [H3 H4]. apply NoDup_app. split; [exact H1|].
      split; [| exact H4]. intros y Hy Hy'. apply (H2 y Hy). right. exact Hy'. }
    assert (Hlen : length (take i l ++ drop (S i) l) = (length l - 1)%nat).
    { rewrite length_app, length_take, length_drop. lia. }
    destruct (IH (take i l ++ drop (S i) l) e1) as (xs & e' & Hrun & Hp & Hc & Hn & Hl & Hd & Hsub);
      [lia | exact Hnd' |].
    rewrite Hrun. exists (x :: xs), e'. split; [reflexivity|].
    split; [exact Hp|]. split; [exact Hc|]. split; [exact Hn|].
    split; [simpl; lia|]. split.
    + apply NoDup_cons. split; [| exact Hd]. intros Hin. apply Hsub in Hin.
      rewrite Hsplit in Hnd. apply NoDup_app in Hnd as (H1 & H2 & H3).
      apply NoDup_cons in H3 as [H3 H4].
      apply elem_of_app in Hin as [Hin | Hin]; [| contradiction].
      apply (H2 x Hin). left.
    + intros y Hy. apply elem_of_cons in Hy as [-> | Hy].
      * apply list_elem_of_lookup. eauto.
      * apply Hsub in Hy. rewrite Hsplit.
        apply elem_of_app in Hy as [Hy | Hy]; apply elem_of_app; [left | right]; auto.
        right. exact Hy.
Qed.

(** Removing distinct ids of the table one after the other. *)
Lemma remove_all_spec xs : forall n e,
  env_pool_ok n e -> NoDup xs ->
  (forall id, id ∈ xs -> is_Some (agents (pool e) !! id)) ->
  exists e',
    for_each xs (fun id => remove_agent id;; mret tt) e = (Ok tt, e') /\
    cfg e' = cfg e /\ num_agents e' = num_agents e /\
    env_pool_ok (n - length xs) e'.
Proof.
  induction xs as [| id xs IH]; intros n e Hok Hnd Hin.
  - exists e. simpl. replace (n - 0)%nat with n by lia. auto.
  - apply NoDup_cons in Hnd as [Hid Hnd].
    destruct (remove_agent_spec n id e Hok) as
      (e1 & m & Hrun & -> & Hok1 & _ & _ & Hother & _); [apply Hin; left|].
    assert (Hc1 := remove_agent_cfg id e). assert (Hn1 := remove_agent_num id e).
    rewrite Hrun in Hc1, Hn1. simpl in Hc1, Hn1.
    destruct (IH m e1 Hok1 Hnd) as (e' & Hrun' & Hc & Hn & Hok').
    { intros id' Hid'. rewrite Hother; [apply Hin; right; exact Hid'|].
      intros ->. contradiction. }
    exists e'. simpl. unfold mbind, M_bind, bind, mret, M_ret, ret in *.
    rewrite Hrun.
    split; [exact Hrun'|]. split; [congruence|]. split; [congruence|].
    exact Hok'.
Qed.

(** [set_num_agents]: on a well-formed pool the method always returns,
    records the requested number, and leaves a well-formed pool of exactly
    that many agents, except that it never grows beyond the cap and that a
    negative request empties the pool. *)
Theorem set_num_agents_is_exact (n : nat) (new_num_agents : Z) (e : DriveGraphEnv) :
  env_pool_ok n e ->
  exists e',
    set_num_agents new_num_agents e = (Ok tt, e') /\
    num_agents e' = new_num_agents /\
    env_pool_ok (Z.to_nat (Z.min new_num_agents (max_agents (cfg e)))) e'.
Proof.
  intros Hok.
  assert (Hsize : size (agents (pool e)) = n) by apply Hok.
  assert (Hcap : Z.of_nat n <= max_agents (cfg e)) by apply Hok.
  unfold set_num_agents. unfold mbind at 1 2, M_bind at 1 2, bind at 1 2.
  unfold modify at 1, get at 1.
  set (e0 := set_num_agents_field new_num_agents e).
  change (size (agents (pool e0))) with (size (agents (pool e))). rewrite Hsize.
  assert (Hok0 : env_pool_ok n e0) by exact Hok.
  destruct (0 <? new_num_agents - Z.of_nat n) eqn:Hgrow.
  - apply Z.ltb_lt in Hgrow.
    destruct (add_agents_size (Z.to_nat (new_num_agents - Z.of_nat n)) n e0 Hok0)
      as (e' & Hrun & Hc & Hok' & _).
    assert (Hn := add_agents_num (Z.to_nat (new_num_agents - Z.of_nat n)) e0).
    rewrite Hrun in Hn. simpl in Hn.
    exists e'. split; [exact Hrun|]. split; [exact Hn|].
    replace (Z.to_nat (Z.min new_num_agents (max_agents (cfg e))))
      with (Nat.min (n + Z.to_nat (new_num_agents - Z.of_nat n))
                    (Z.to_nat (max_agents (cfg e0)))) by (simpl; lia).
    exact Hok'.
  - apply Z.ltb_ge in Hgrow.
    destruct (new_num_agents - Z.of_nat n <? 0) eqn:Hshrink.
    + apply Z.ltb_lt in Hshrink.
      set (ids := (map_to_list (agents (pool e0))).*1).
      assert (Hids_nd : NoDup ids) by apply NoDup_fst_map_to_list.
      assert (Hids_len : length ids = n).
      { subst ids. rewrite length_fmap, length_map_to_list. exact Hsize. }
      assert (Hids_in : forall id, id ∈ ids -> is_Some (agents (pool e0) !! id)).
      { intros id Hid. subst ids. apply list_elem_of_fmap in Hid as ([id' a] & -> & Hid).
        apply elem_of_map_to_list in Hid. eauto. }
      destruct (Z.of_nat n <? Z.abs (new_num_agents - Z.of_nat n)) eqn:Hall.
      * apply Z.ltb_lt in Hall.
        unfold mbind at 1, M_bind at 1, bind at 1. unfold mret at 1, M_ret at 1, ret at 1.
        destruct (remove_all_spec ids n e0 Hok0 Hids_nd Hids_in)
          as (e' & Hrun & Hc & Hn & Hok').
        exists e'. split; [exact Hrun|]. split; [exact Hn|].
        replace (Z.to_nat (Z.min new_num_agents (max_agents (cfg e))))
          with (n - length ids)%nat by lia.
        exact Hok'.
      * apply Z.ltb_ge in Hall.
        unfold mbind at 1, M_bind at 1, bind at 1.
        destruct (sample_spec (Z.to_nat (Z.abs (new_num_agents - Z.of_nat n))) ids e0)
          as (xs & e1 & Hrun1 & Hp1 & Hc1 & Hn1 & Hlen & Hnd & Hsub);
          [lia | exact Hids_nd |].
        rewrite Hrun1.
        assert (Hok1 : env_pool_ok n e1)
          by (unfold env_pool_ok; rewrite Hp1, Hc1; exact Hok0).
        destruct (remove_all_spec xs n e1 Hok1 Hnd) as (e' & Hrun & Hc & Hn & Hok').
        { intros id Hid. rewrite Hp1. apply Hids_in, Hsub, Hid. }
        exists e'. split; [exact Hrun|]. split; [rewrite Hn, Hn1; reflexivity|].
        replace (Z.to_nat (Z.min new_num_agents (max_agents (cfg e))))
          with (n - length xs)%nat by lia.
        exact Hok'.
    + apply Z.ltb_ge in Hshrink. exists e0. split; [reflexivity|].
      split; [reflexivity|].
      replace (Z.to_nat (Z.min new_num_agents (max_agents (cfg e)))) with n by lia.
      exact Hok0.
Qed.

End Resize.

(** ** Rules for triples *)

Section Triples.

Context {A B : Type}.
Implicit Types (P E : DriveGraphEnv -> Prop).

Lemma hoare_ret P (Q : A -> DriveGraphEnv -> Prop) E (a : A) :
  (forall e, P e -> Q a e) -> hoare P (mret a) Q E.
Proof. intros H e HP. apply H, HP. Qed.

Lemma hoare_raise P (Q : A -> DriveGraphEnv -> Prop) E x :
  (forall e, P e -> E e) -> hoare P (raise x) Q E.
Proof. intros H e HP. apply H, HP. Qed.

Lemma hoare_bind P (m : M A) (k : A -> M B) R Q E :
  hoare P m R E -> (forall a, hoare (R a) (k a) Q E) -> hoare P (m ≫= k) Q E.
Proof.
  intros Hm Hk e HP. unfold mbind, M_bind, bind. specialize (Hm e HP).
  destruct (m e) as [[a | x] e']; [apply Hk, Hm | exact Hm].
Qed.

Lemma hoare_get P E : hoare P get (fun a e => P e /\ a = e) E.
Proof. intros e HP. simpl. auto. Qed.

Lemma hoare_lift P E (r : res A) :
  (forall e, P e -> E e) -> hoare P (lift r) (fun a e => P e /\ r = Ok a) E.
Proof. intros H e HP. unfold lift. destruct r; simpl; auto. Qed.

Lemma hoare_attr P E (o : option A) :
  (forall e, P e -> E e) -> hoare P (attr o) (fun a e => P e /\ o = Some a) E.
Proof. intros H e HP. unfold attr. destruct o; simpl; auto. Qed.

Lemma hoare_weaken P P' (m : M A) (Q Q' : A -> DriveGraphEnv -> Prop) E E' :
  hoare P' m Q' E' ->
  (forall e, P e -> P' e) -> (forall a e, Q' a e -> Q a e) -> (forall e, E' e -> E e) ->
  hoare P m Q E.
Proof.
  intros Hm HP HQ HE e He. specialize (Hm e (HP e He)).
  destruct (m e) as [[a | x] e']; auto.
Qed.

End Triples.

Lemma hoare_key {K} `{Countable K} {A} P E (d : gmap K A) (k : K) :
  (forall e, P e -> E e) -> hoare P (key d k) (fun a e => P e /\ d !! k = Some a) E.
Proof. intros HE e HP. unfold key. destruct (d !! k); simpl; auto. Qed.

Lemma hoare_post {A} P (m : M A) Q E e :
  hoare P m (fun _ => Q) E -> (forall e, E e -> Q e) -> P e -> Q (m e).2.
Proof.
  intros Hm HE HP. specialize (Hm e HP). destruct (m e) as [[a | x] e']; simpl; auto.
Qed.

Lemma hoare_for_each {A} (I : DriveGraphEnv -> Prop) (xs : list A) (body : A -> M unit) :
  (forall x, hoare I (body x) (fun _ => I) I) ->
  hoare I (for_each xs body) (fun _ => I) I.
Proof.
  intros Hb. induction xs as [| x xs IH]; simpl.
  - apply hoare_ret. auto.
  - eapply hoare_bind; [apply Hb | intros u; exact IH].
Qed.

Section StepPool.

Context {providers : Providers}.

Lemma hoare_store n id a :
  hoare (env_pool_with n id) (store_agent id a)
        (fun _ => env_pool_with n id) (env_pool_ok n).
Proof.
  intros e [Hok Hin]. unfold store_agent, modify. simpl. split.
  - apply pool_ok_store; assumption.
  - simpl. rewrite lookup_insert_eq. eauto.
Qed.

Lemma hoare_respawn n id a :
  hoare (env_pool_with n id) (respawn_agent a)
        (fun _ => env_pool_with n id) (env_pool_ok n).
Proof.
  intros e [Hok Hin].
  destruct (respawn_agent_result a e) as (a' & e' & -> & _ & Hp & Hc).
  unfold env_pool_with, env_pool_ok. rewrite Hp, Hc. auto.
Qed.

(** Removing a present agent and spawning a replacement restores the
    size. *)
Lemma hoare_replace n id {A} (a : A) :
  hoare (env_pool_with n id) (remove_agent id;; add_agent;; mret a)
        (fun a' e => a' = a /\ env_pool_ok n e) (env_pool_ok n).
Proof.
  intros e [Hok Hin].
  destruct (remove_agent_present id e Hin) as (e1 & Hrun & Hp1 & Hc1).
  assert (Hcap : Z.of_nat n <= max_agents (cfg e)) by apply Hok.
  destruct (pool_ok_remove _ _ id _ Hok Hin) as (m & -> & Hok1').
  assert (Hok1 : env_pool_ok m e1) by (unfold env_pool_ok; rewrite Hp1, Hc1; exact Hok1').
  destruct (add_agent_spec m e1 Hok1) as [_ Hroom].
  destruct Hroom as (e2 & Hrun2 & _ & _ & _ & Hok2); [rewrite Hc1; lia|].
  unfold mbind, M_bind, bind. rewrite Hrun, Hrun2. simpl. auto.
Qed.

End StepPool.

Lemma hoare_get_bind {A} P (k : DriveGraphEnv -> M A) Q E :
  (forall e0, hoare P (k e0) Q E) -> hoare P (get ≫= k) Q E.
Proof. intros H e HP. unfold mbind, M_bind, bind, get. apply H, HP. Qed.

Lemma hoare_bind_same {A B} P (m : M A) (k : A -> M B) Q E :
  hoare P m (fun _ => P) E -> (forall a, hoare P (k a) Q E) -> hoare P (m ≫= k) Q E.
Proof. intros Hm Hk. eapply hoare_bind; [exact Hm | exact Hk]. Qed.

Lemma hoare_pure {A} P (m : M A) E :
  (forall e, (m e).2 = e) -> (forall e, P e -> E e) -> hoare P m (fun _ => P) E.
Proof.
  intros Hm HE e HP. specialize (Hm e). destruct (m e) as [[a | x] e']; simpl in Hm;
    subst e'; auto.
Qed.

Lemma key_pure {K} `{Countable K} {A} (d : gmap K A) (k : K) e : (key d k e).2 = e.
Proof. unfold key. destruct (d !! k); reflexivity. Qed.

Lemma attr_pure {A} (o : option A) e : (attr o e).2 = e.
Proof. destruct o; reflexivity. Qed.

Lemma lift_pure {A} (r : res A) e : (lift r e).2 = e.
Proof. reflexivity. Qed.

Lemma ret_pure {A} (a : A) e : ((mret a : M A) e).2 = e.
Proof. reflexivity. Qed.

(** Turns a frame property of the pool and the configuration into a
    triple. *)
Lemma hoare_of_preserves {A} n (m : M A) :
  preserves pool m -> preserves cfg m ->
  hoare (env_pool_ok n) m (fun _ => env_pool_ok n) (env_pool_ok n).
Proof.
  intros Hp Hc e Hok. specialize (Hp e). specialize (Hc e).
  assert (H : env_pool_ok n (m e).2) by (unfold env_pool_ok; rewrite Hp, Hc; exact Hok).
  destruct (m e) as [[a | x] e']; exact H.
Qed.

(** ** What a tick leaves alone *)

Section TickFrame.

Context {providers : Providers}.
Context {X : Type} (pi : DriveGraphEnv -> X).

Hypothesis pi_pool : forall p e, pi (set_pool p e) = pi e.
Hypothesis pi_rng : forall p e, pi (set_rng_pos p e) = pi e.
Hypothesis pi_lights : forall l e, pi (set_lights l e) = pi e.

Ltac frame_pi :=
  repeat first
    [ solve [auto with frames nocore]
    | apply preserves_ret
    | apply preserves_raise
    | apply preserves_lift
    | apply preserves_get
    | apply preserves_attr
    | apply preserves_key
    | apply preserves_bind; [| intros ]
    | apply preserves_for_each; intros
    | apply preserves_modify; intros;
        first [apply pi_pool | apply pi_rng | apply pi_lights]
    | match goal with
      | |- preserves _ (if ?b then _ else _) => destruct b
      | |- preserves _ (match ?x with _ => _ end) => destruct x
      | |- preserves _ (let '(_, _) := ?x in _) => destruct x
      | |- preserves _ (let _ := _ in _) => cbv zeta
      end ].

Lemma respawn_agent_frame a : preserves pi (respawn_agent a).
Proof. unfold respawn_agent. frame_pi. Qed.
#[local] Hint Resolve respawn_agent_frame : frames.

Lemma store_agent_frame id a : preserves pi (store_agent id a).
Proof. unfold store_agent. frame_pi. Qed.
#[local] Hint Resolve store_agent_frame : frames.

Lemma add_agent_frame : preserves pi add_agent.
Proof. unfold add_agent. frame_pi. Qed.
#[local] Hint Resolve add_agent_frame : frames.

Lemma remove_agent_frame id : preserves pi (remove_agent id).
Proof. unfold remove_agent. frame_pi. Qed.
#[local] Hint Resolve remove_agent_frame : frames.

Lemma move_agent_frame att id a p c n : preserves pi (move_agent att id a p c n).
Proof. unfold move_agent, put_agent. frame_pi. Qed.
#[local] Hint Resolve move_agent_frame : frames.

Lemma step_agent_frame id : preserves pi (step_agent id).
Proof. unfold step_agent. frame_pi. Qed.
#[local] Hint Resolve step_agent_frame : frames.

Lemma advance_light_frame k : preserves pi (advance_light k).
Proof. unfold advance_light. frame_pi. Qed.
#[local] Hint Resolve advance_light_frame : frames.

Lemma advance_lights_frame : preserves pi advance_lights.
Proof. unfold advance_lights. frame_pi. Qed.
#[local] Hint Resolve advance_lights_frame : frames.

Lemma tick_body_frame : preserves pi tick_body.
Proof. unfold tick_body. frame_pi. Qed.

End TickFrame.

Section TickLeavesAlone.

Context {providers : Providers}.

Lemma step_is_tick_body e : step e = tick_body (set_steps (steps e + 1) e).
Proof. reflexivity. Qed.


End TickLeavesAlone.

(** ** Invariants of the agent loop *)

Section StepInvariant.

Context {providers : Providers}.

(** The loop body for [id] keeps a well-formed pool of [n] agents
    together with any further property [K] that its three updates of the
    pool keep. *)
Variables (n : nat) (id : string) (K : DriveGraphEnv -> Prop).

Hypothesis K_store : forall a e, env_pool_with n id e -> K e -> K (store_agent id a e).2.
Hypothesis K_respawn : forall a e, K e -> K (respawn_agent a e).2.
Hypothesis K_replace :
  forall e, env_pool_with n id e -> K e -> K ((remove_agent id;; add_agent) e).2.

Lemma present_good e : (pool_with_and n id K) e -> (pool_ok_and n K) e.
Proof. intros [[H _] HK]. split; assumption. Qed.

Lemma hoareK_store a : hoare (pool_with_and n id K) (store_agent id a) (fun _ => (pool_with_and n id K)) (pool_ok_and n K).
Proof.
  intros e [Hin HK]. assert (H := hoare_store n id a e Hin).
  assert (HK' := K_store a e Hin HK).
  unfold store_agent, modify in H, HK' |- *. simpl in H, HK' |- *. split; assumption.
Qed.

Lemma hoareK_store_last a : hoare (pool_with_and n id K) (store_agent id a) (fun _ => (pool_ok_and n K)) (pool_ok_and n K).
Proof.
  eapply hoare_weaken; [apply (hoareK_store a) | auto | | auto].
  intros u e. apply present_good.
Qed.

Lemma hoareK_respawn a : hoare (pool_with_and n id K) (respawn_agent a) (fun _ => (pool_with_and n id K)) (pool_ok_and n K).
Proof.
  intros e [Hin HK]. assert (H := hoare_respawn n id a e Hin).
  assert (HK' := K_respawn a e HK).
  destruct (respawn_agent a e) as [[a' | x] e']; simpl in H, HK' |- *; split; assumption.
Qed.

Lemma hoareK_replace {A} (a : A) :
  hoare (pool_with_and n id K) (remove_agent id;; add_agent;; mret a)
        (fun a' e => a' = a /\ (pool_ok_and n K) e) (pool_ok_and n K).
Proof.
  intros e [Hin HK]. assert (H := hoare_replace n id a e Hin).
  assert (HK' := K_replace e Hin HK).
  unfold mbind, M_bind, bind, mret, M_ret, ret in H, HK' |- *.
  destruct (remove_agent id e) as [[b | x] e1]; simpl in H, HK' |- *.
  - destruct (add_agent e1) as [[o | x] e2]; simpl in H, HK' |- *.
    + destruct H as [_ H]. split; [reflexivity | split; assumption].
    + split; assumption.
  - split; assumption.
Qed.

Lemma hoareK_replace_unit :
  hoare (pool_with_and n id K) (remove_agent id;; add_agent;; mret tt) (fun _ => (pool_ok_and n K)) (pool_ok_and n K).
Proof.
  eapply hoare_weaken; [apply (hoareK_replace tt) | auto | | auto].
  intros a e [_ H]. exact H.
Qed.

Ltac hoare_side := intros ? ?; first [assumption | apply present_good; assumption].

Ltac hoare_leaf :=
  lazymatch goal with
  | |- hoare _ (mret _) _ _ => apply hoare_ret; hoare_side
  | |- hoare _ (raise _) _ _ => apply hoare_raise; hoare_side
  | |- hoare _ (key _ _) _ _ => apply hoare_pure; [apply key_pure | hoare_side]
  | |- hoare _ (attr _) _ _ => apply hoare_pure; [apply attr_pure | hoare_side]
  | |- hoare _ (lift _) _ _ => apply hoare_pure; [apply lift_pure | hoare_side]
  | |- hoare _ (store_agent _ _) _ _ => first [apply hoareK_store | apply hoareK_store_last]
  | |- hoare _ (respawn_agent _) _ _ => apply hoareK_respawn
  end.

Ltac hoare_pool :=
  repeat lazymatch goal with
    | |- hoare _ (get ≫= _) _ _ => apply hoare_get_bind; intros
    | |- hoare _ (if ?b then _ else _) _ _ => destruct b eqn:?
    | |- hoare _ (match ?x with _ => _ end) _ _ => destruct x eqn:?
    | |- hoare _ (let _ := _ in _) _ _ => cbv zeta
    | |- hoare _ (remove_agent _;; add_agent;; mret tt) _ _ => apply hoareK_replace_unit
    | |- hoare _ (_ ≫= _) _ _ => eapply hoare_bind_same; [| intros ]
    | |- hoare _ _ _ _ => hoare_leaf
    end.

(** The kinematic part of the loop body, for an agent that is still in
    the table. *)
Lemma hoareK_move_agent a p c nx :
  hoare (pool_with_and n id K) (move_agent true id a p c nx) (fun _ => (pool_ok_and n K)) (pool_ok_and n K).
Proof. unfold move_agent. cbn [put_agent]. hoare_pool. Qed.

(** The whole loop body, also when it raises. *)
Lemma hoareK_step_agent : hoare (pool_ok_and n K) (step_agent id) (fun _ => (pool_ok_and n K)) (pool_ok_and n K).
Proof.
  unfold step_agent. eapply hoare_bind; [apply hoare_get|]. intros e0.
  destruct (agents (pool e0) !! id) as [agent |] eqn:Hag;
    [| apply hoare_ret; intros e [H _]; exact H].
  apply (hoare_weaken _ (pool_with_and n id K) _ _ (fun _ => (pool_ok_and n K)) _ (pool_ok_and n K));
    [| intros e [[H HK] <-]; split; [split; eauto | exact HK] | auto | auto].
  clear e0 Hag. eapply hoare_bind_same.
  { destruct (path_falsy (path agent)); hoare_pool. }
  intros agent0. destruct (path agent0) as [[| n0 rest] |]; try (apply hoare_ret; hoare_side).
  destruct (Z.of_nat (length (n0 :: rest)) - 1 <=? path_index agent0) eqn:G.
  - eapply hoare_bind; [apply (hoareK_replace false)|].
    intros attached e [-> Hok]. apply Z.leb_le in G.
    unfold mbind, M_bind, bind, lift.
    destruct (py_index (n0 :: rest) (path_index agent0)) as [c | x]; [| exact Hok].
    rewrite py_index_past_end by lia. exact Hok.
  - apply (hoare_bind _ _ _ (fun a e => (pool_with_and n id K) e /\ a = true));
      [apply hoare_ret; intros e0 H0; exact (conj H0 (eq_refl true))|].
    intros attached.
    apply (hoare_weaken _ (fun e => (pool_with_and n id K) e /\ attached = true) _ _
             (fun _ => (pool_ok_and n K)) _ (pool_ok_and n K)); [| auto | auto | auto].
    intros e [Hin ->]. revert e Hin.
    change (hoare (pool_with_and n id K)
              (lift (py_index (n0 :: rest) (path_index agent0)) ≫=
               (fun current_node_id =>
                  lift (py_index (n0 :: rest) (path_index agent0 + 1)) ≫=
                  (fun next_node_id =>
                     move_agent true id agent0 (n0 :: rest) current_node_id next_node_id)))
              (fun _ => (pool_ok_and n K)) (pool_ok_and n K)).
    eapply hoare_bind_same; [hoare_leaf | intros c].
    eapply hoare_bind_same; [hoare_leaf | intros nx].
    apply hoareK_move_agent.
Qed.

End StepInvariant.

Section StepKeepsPool.

Context {providers : Providers}.

Lemma hoare_step_agent n id :
  hoare (env_pool_ok n) (step_agent id) (fun _ => env_pool_ok n) (env_pool_ok n).
Proof.
  apply (hoare_weaken _ (fun e => env_pool_ok n e /\ True) _ _
           (fun _ e => env_pool_ok n e /\ True) _ (fun e => env_pool_ok n e /\ True)).
  - apply (hoareK_step_agent n id (fun _ => True)); auto.
  - auto.
  - intros _ e [H _]. exact H.
  - intros e [H _]. exact H.
Qed.

(** One tick keeps the pool well-formed and of the same size, whether it
    returns or raises. *)
Lemma hoare_step n :
  hoare (env_pool_ok n) step (fun _ => env_pool_ok n) (env_pool_ok n).
Proof.
  unfold step.
  eapply hoare_bind_same.
  { intros e H. exact H. }
  intros _. eapply hoare_bind_same.
  { apply hoare_of_preserves; frame. }
  intros _. apply hoare_get_bind. intros e0.
  eapply hoare_bind_same.
  { apply hoare_for_each. intros id. apply hoare_step_agent. }
  intros _. apply hoare_get_bind. intros e1. apply hoare_ret. auto.
Qed.

(** Ticks never change the number of agents: over any number of ticks in
    a row a well-formed pool of [n] agents stays a well-formed pool of [n]
    agents (the active set is the key set of the table, every id in use
    was issued by the counter, and the cap holds), also when a tick stops
    with an exception half-way through the agents. *)
Theorem ticks_keep_pool_size (n : nat) (k : nat) (e : DriveGraphEnv) :
  env_pool_ok n e ->
  env_pool_ok n (steps_n k e).2 /\ size (agents (pool (steps_n k e).2)) = n.
Proof.
  intros Hok.
  assert (H : hoare (env_pool_ok n) (steps_n k) (fun _ => env_pool_ok n) (env_pool_ok n)).
  { induction k as [| k IH]; simpl.
    - apply hoare_ret. auto.
    - eapply hoare_bind_same; [apply hoare_step | intros _; exact IH]. }
  assert (H' := hoare_post _ _ _ _ e H (fun _ h => h) Hok).
  split; [exact H' | apply H'].
Qed.

End StepKeepsPool.

(** ** Agents whose road is not in the network *)

Lemma py_index_lookup {A} (l : list A) (i : Z) (x : A) :
  0 <= i -> l !! Z.to_nat i = Some x -> py_index l i = Ok x.
Proof.
  intros Hi Hx. assert (Hlt := lookup_lt_Some _ _ _ Hx).
  unfold py_index. cbv zeta.
  replace (i <? 0) with false by (symmetry; apply Z.ltb_ge; lia).
  replace (i <? 0) with false by (symmetry; apply Z.ltb_ge; lia).
  replace (Z.of_nat (length l) <=? i) with false by (symmetry; apply Z.leb_gt; lia).
  simpl. rewrite Hx. reflexivity.
Qed.

Section Stranded.

Context {providers : Providers}.

(** The loop body does nothing at all for such an agent. *)
Lemma stranded_step_agent e id agent c nx :
  agents (pool e) !! id = Some agent -> en_route agent c nx ->
  off_network (net e) c nx -> step_agent id e = (Ok tt, e).
Proof.
  intros Hag (p & Hp & H0 & Hc & Hn) Hoff.
  assert (Hlt := lookup_lt_Some _ _ _ Hn).
  assert (Hpf : path_falsy (path agent) = false).
  { rewrite Hp. destruct p; [discriminate | reflexivity]. }
  assert (Hguard : (Z.of_nat (length p) - 1 <=? path_index agent) = false)
    by (apply Z.leb_gt; lia).
  assert (Hcur := py_index_lookup p _ _ H0 Hc).
  assert (Hnext : py_index p (path_index agent + 1) = Ok nx)
    by (apply py_index_lookup; [lia | exact Hn]).
  cbv [step_agent move_agent mbind M_bind bind get mret M_ret ret lift key attr
       put_agent].
  rewrite Hag, Hpf, Hp. destruct p as [| n0 rest]; [discriminate|].
  rewrite Hguard, Hcur, Hnext.
  unfold off_network in Hoff.
  destruct (get_edge_data (drive_graph_proj (net e)) c nx) as [edges |]; [| reflexivity].
  destruct Hoff as [-> | ([ed Hed] & Hpos)].
  - rewrite bool_decide_eq_true_2 by apply dom_empty_L. reflexivity.
  - destruct (bool_decide (dom edges = ∅)); [reflexivity|]. rewrite Hed.
    unfold get_node_position.
    destruct Hpos as [-> | ->]; [reflexivity|].
    destruct (node_positions (net e) !! c); reflexivity.
Qed.

Variables (n : nat) (id0 : string) (agent0 : AgentState) (nw : Network).

Lemma keep_store id a e :
  id <> id0 -> agent_and_net_are id0 agent0 nw e ->
  agent_and_net_are id0 agent0 nw (store_agent id a e).2.
Proof.
  intros Hne [Hag Hnet]. split; [| exact Hnet].
  unfold store_agent, modify. simpl. rewrite lookup_insert_ne by assumption. exact Hag.
Qed.

Lemma keep_respawn a e :
  agent_and_net_are id0 agent0 nw e ->
  agent_and_net_are id0 agent0 nw (respawn_agent a e).2.
Proof.
  intros [Hag Hnet].
  assert (Hn : net ((respawn_agent a) e).2 = net e)
    by (apply (respawn_agent_frame net); intros; reflexivity).
  destruct (respawn_agent_result a e) as (a' & e' & Hrun & _ & Hp & _).
  rewrite Hrun in Hn |- *. simpl in Hn |- *. split; [rewrite Hp; exact Hag | congruence].
Qed.

Lemma keep_replace id e :
  id <> id0 -> env_pool_with n id e -> agent_and_net_are id0 agent0 nw e ->
  agent_and_net_are id0 agent0 nw ((remove_agent id;; add_agent) e).2.
Proof.
  intros Hne [Hok Hin] [Hag Hnet].
  destruct (remove_agent_spec n id e Hok Hin)
    as (e1 & m & Hrun & -> & Hok1 & _ & _ & Hother & _).
  assert (Hn1 : net ((remove_agent id) e).2 = net e)
    by (apply (remove_agent_frame net); intros; reflexivity).
  assert (Hc1 := remove_agent_cfg id e).
  rewrite Hrun in Hn1, Hc1. simpl in Hn1, Hc1.
  assert (Hag1 : agents (pool e1) !! id0 = Some agent0)
    by (rewrite Hother by congruence; exact Hag).
  assert (Hsize : size (agents (pool e1)) = m) by apply Hok1.
  assert (Hcap : Z.of_nat (S m) <= max_agents (cfg e)) by apply Hok.
  destruct (add_agent_below_cap e1) as (a' & e2 & Hrun2 & _ & Hp2 & _);
    [rewrite Hsize, Hc1; lia|].
  assert (Hn2 : net (add_agent e1).2 = net e1)
    by (apply (add_agent_frame net); intros; reflexivity).
  rewrite Hrun2 in Hn2. simpl in Hn2.
  unfold mbind, M_bind, bind. rewrite Hrun, Hrun2. simpl. split; [| congruence].
  rewrite Hp2. unfold pool_add. simpl.
  assert (Hfresh := fresh_vehicle_id (pool e1) (proj1 Hok1)).
  rewrite lookup_insert_ne by (intros Heq; rewrite Heq, Hag1 in Hfresh; discriminate).
  exact Hag1.
Qed.

Lemma hoare_step_agent_keeps c nx id :
  en_route agent0 c nx -> off_network nw c nx ->
  hoare (fun e => env_pool_ok n e /\ agent_and_net_are id0 agent0 nw e) (step_agent id)
        (fun _ e => env_pool_ok n e /\ agent_and_net_are id0 agent0 nw e)
        (fun e => env_pool_ok n e /\ agent_and_net_are id0 agent0 nw e).
Proof.
  intros Hroute Hoff. destruct (decide (id = id0)) as [-> | Hne].
  - intros e [Hok [Hag Hnet]].
    rewrite (stranded_step_agent e id0 agent0 c nx Hag Hroute); [split; [| split]; assumption|].
    rewrite Hnet. exact Hoff.
  - apply (hoareK_step_agent n id (agent_and_net_are id0 agent0 nw)).
    + intros a e _. apply keep_store. exact Hne.
    + apply keep_respawn.
    + intros e. apply keep_replace. exact Hne.
Qed.

Lemma hoare_step_keeps c nx :
  en_route agent0 c nx -> off_network nw c nx ->
  hoare (fun e => env_pool_ok n e /\ agent_and_net_are id0 agent0 nw e) step
        (fun _ e => env_pool_ok n e /\ agent_and_net_are id0 agent0 nw e)
        (fun e => env_pool_ok n e /\ agent_and_net_are id0 agent0 nw e).
Proof.
  intros Hroute Hoff. unfold step.
  eapply hoare_bind_same.
  { intros e H. exact H. }
  intros u. eapply hoare_bind_same.
  { intros e [Hok [Hag Hnet]].
    assert (Hp : pool (advance_lights e).2 = pool e)
    by (apply (advance_lights_frame pool); intros; reflexivity).
    assert (Hc : cfg (advance_lights e).2 = cfg e)
    by (apply (advance_lights_frame cfg); intros; reflexivity).
    assert (Hn : net (advance_lights e).2 = net e)
    by (apply (advance_lights_frame net); intros; reflexivity).
    assert (H : env_pool_ok n (advance_lights e).2 /\
                agent_and_net_are id0 agent0 nw (advance_lights e).2).
    { unfold env_pool_ok, agent_and_net_are. rewrite Hp, Hc, Hn. auto. }
    destruct (advance_lights e) as [[a | x] e']; exact H. }
  intros u'. apply hoare_get_bind. intros e0.
  eapply hoare_bind_same.
  { apply hoare_for_each. intros id. apply (hoare_step_agent_keeps c nx); assumption. }
  intros u''. apply hoare_get_bind. intros e1. apply hoare_ret. auto.
Qed.

End Stranded.

Section StrandedForever.

Context {providers : Providers}.


End StrandedForever.

Lemma ticks_keep_pool_size_witness :
  size (agents (pool (steps_n (providers := Demo.providers) 3 Demo.started).2)) = 1%nat.
Proof.
  exact (proj2 (ticks_keep_pool_size (providers := Demo.providers) 1 3 Demo.started
                  demo_started_pool_ok)).
Defined.

Lemma set_num_agents_is_exact_witness :
  exists e',
    set_num_agents (providers := Demo.providers) 3 Demo.started = (Ok tt, e') /\
    num_agents e' = 3 /\ size (agents (pool e')) = 3%nat.
Proof.
  destruct (set_num_agents_is_exact (providers := Demo.providers) 1 3 Demo.started
              demo_started_pool_ok) as (e' & Hrun & Hn & Hok).
  exists e'. split; [exact Hrun|]. split; [exact Hn|].
  destruct Hok as (_ & _ & Hsize & _). rewrite Hsize. vm_compute. reflexivity.
Defined.

Lemma env_pool_ok_set_net n x e : env_pool_ok n (set_net x e) = env_pool_ok n e.
Proof. reflexivity. Qed.


(** ** Waiting at a red signal *)

Section RedWait.

Context {providers : Providers}.


End RedWait.


(** ** Nodes of the viewport and the end points of a planned path *)

Lemma hoare_trivial {A} (P : DriveGraphEnv -> Prop) (m : M A) :
  hoare P m (fun _ _ => True) (fun _ => True).
Proof. intros e _. destruct (m e) as [[a | x] e']; exact I. Qed.

Section ViewportNodes.

Context {providers : Providers}.

(** [get_nodes_in_bounds] returns exactly the valid vehicle nodes whose
    known position lies in the closed box, each of them once. *)
Theorem nodes_in_bounds_exact (e : DriveGraphEnv) (b : Bounds) :
  NoDup (get_nodes_in_bounds e b) /\
  forall k, k ∈ get_nodes_in_bounds e b <->
    k ∈ valid_vehicle_node_ids (net e) /\
    exists pos, get_node_position e k = Some pos /\
      (minLat b <= fst pos)%Q /\ (fst pos <= maxLat b)%Q /\
      (minLng b <= snd pos)%Q /\ (snd pos <= maxLng b)%Q.
Proof.
  unfold get_nodes_in_bounds, get_node_position. cbv zeta. split.
  - apply (sublist_NoDup _ ((map_to_list (node_positions (net e))).*1));
      [apply NoDup_fst_map_to_list | apply fmap_sublist, sublist_filter].
  - intros k. rewrite list_elem_of_fmap. split.
    + intros [[k' pos] [-> Hin]]. apply list_elem_of_filter in Hin as [HP Hin].
      apply elem_of_map_to_list in Hin. simpl in *.
      apply andb_True in HP as [Hv Hb]. apply bool_decide_unpack in Hv.
      apply elem_of_list_to_set in Hv. split; [exact Hv|]. exists pos.
      split; [exact Hin|]. unfold in_bounds in Hb.
      apply andb_True in Hb as [Hb H4]. apply andb_True in Hb as [Hb H3].
      apply andb_True in Hb as [H1 H2].
      apply Is_true_true in H1, H2, H3, H4.
      apply Qleb_le in H1, H2, H3, H4. auto.
    + intros [Hv (pos & Hpos & H1 & H2 & H3 & H4)]. exists (k, pos). split; [reflexivity|].
      apply list_elem_of_filter. split; [| apply elem_of_map_to_list; exact Hpos].
      simpl. apply andb_True. split.
      * apply bool_decide_pack. apply elem_of_list_to_set. exact Hv.
      * unfold in_bounds. apply Qleb_le in H1, H2, H3, H4. simpl.
        rewrite H1, H2, H3, H4. exact I.
Qed.

Lemma nodes_in_bounds_nodup e b : NoDup (get_nodes_in_bounds e b).
Proof.
  unfold get_nodes_in_bounds. cbv zeta.
  apply (sublist_NoDup _ ((map_to_list (node_positions (net e))).*1));
    [apply NoDup_fst_map_to_list | apply fmap_sublist, sublist_filter].
Qed.

Lemma nodes_in_bounds_valid e b k :
  k ∈ get_nodes_in_bounds e b -> k ∈ valid_vehicle_node_ids (net e).
Proof.
  unfold get_nodes_in_bounds. cbv zeta. rewrite list_elem_of_fmap.
  intros [[k' pos] [-> Hin]]. apply list_elem_of_filter in Hin as [HP _].
  apply andb_True in HP as [Hv _]. apply bool_decide_unpack in Hv.
  apply elem_of_list_to_set in Hv. exact Hv.
Qed.

(** Two entries at distinct positions of a duplicate-free list. *)
Lemma choose2_distinct (l : list Z) (r1 r2 : nat) :
  NoDup l -> (2 <= length l)%nat ->
  (choose2 l r1 r2).1 <> (choose2 l r1 r2).2 /\
  (choose2 l r1 r2).1 ∈ l /\ (choose2 l r1 r2).2 ∈ l.
Proof.
  intros Hnd Hlen. unfold choose2. cbv zeta.
  set (n := length l). set (i := (r1 mod n)%nat). set (j0 := (r2 mod (n - 1))%nat).
  assert (Hi : (i < n)%nat) by (apply Nat.mod_upper_bound; lia).
  assert (Hj0 : (j0 < n - 1)%nat) by (apply Nat.mod_upper_bound; lia).
  set (j := if (j0 <? i)%nat then j0 else S j0).
  assert (Hj : (j < n)%nat /\ i <> j).
  { subst j. destruct (j0 <? i)%nat eqn:E.
    - apply Nat.ltb_lt in E. lia.
    - apply Nat.ltb_ge in E. lia. }
  destruct Hj as [Hj Hij]. simpl. split; [| split].
  - intros Heq. apply Hij. apply NoDup_ListNoDup in Hnd.
    apply (proj1 (NoDup_nth l 0) Hnd i j Hi Hj Heq).
  - apply list_elem_of_In. apply nth_In. exact Hi.
  - apply list_elem_of_In. apply nth_In. exact Hj.
Qed.

Lemma load_and_merge_valid_ids :
  hoare (fun _ => True) _load_and_merge_graph_tiles
        (fun _ e => NoDup (valid_vehicle_node_ids (net e))) (fun _ => True).
Proof.
  unfold _load_and_merge_graph_tiles. apply hoare_get_bind. intros e0.
  eapply hoare_bind; [apply hoare_trivial|]. intros [b' tiles].
  eapply hoare_bind; [apply hoare_trivial|]. intros u.
  eapply hoare_bind; [apply hoare_trivial|]. intros u'.
  eapply hoare_bind; [apply hoare_trivial|]. intros ts.
  apply (hoare_bind _ _ _ (fun _ e => NoDup (valid_vehicle_node_ids (net e)))).
  { intros e _. simpl. apply NoDup_elements. }
  intros u''. apply hoare_get_bind. intros e1.
  destruct (show_traffic_lights (view e1)); [| apply hoare_ret; auto].
  intros e Hnd.
  unfold _load_traffic_signals_for_bbox, mbind, M_bind, bind, get, modify.
  destruct (features_from_bbox (bounds (view e))) as [pts |]; [| exact Hnd].
  destruct (negb (bool_decide (pts = [])) && graph_truthy (drive_graph_unproj (net e)));
    exact Hnd.
Qed.

(** After a successful merge of the tiles, every planning attempt draws
    two different nodes, both of them valid vehicle nodes: no path is
    ever planned from a node to itself. *)
Theorem planning_endpoints_differ (e : DriveGraphEnv) (p i : nat) :
  let e' := (_load_and_merge_graph_tiles e).2 in
  (_load_and_merge_graph_tiles e).1 = Ok tt ->
  (2 <= length (planning_candidates e'))%nat ->
  let ends := attempt_pair (planning_candidates e') p i in
  ends.1 <> ends.2 /\
  ends.1 ∈ valid_vehicle_node_ids (net e') /\ ends.2 ∈ valid_vehicle_node_ids (net e').
Proof.
  intros e' Hrun Hlen ends.
  assert (Hnd : NoDup (valid_vehicle_node_ids (net e'))).
  { assert (H := load_and_merge_valid_ids e I). subst e'.
    destruct (_load_and_merge_graph_tiles e) as [[a | x] e1]; [exact H | discriminate]. }
  assert (Hcand : NoDup (planning_candidates e') /\
                  forall k, k ∈ planning_candidates e' -> k ∈ valid_vehicle_node_ids (net e')).
  { unfold planning_candidates. cbv zeta.
    destruct (length (get_nodes_in_bounds e' (bounds (view e'))) <? 2)%nat.
    - split; [exact Hnd | auto].
    - split; [apply nodes_in_bounds_nodup | apply nodes_in_bounds_valid]. }
  destruct Hcand as [Hnd' Hsub].
  destruct (choose2_distinct (planning_candidates e') (rand (p + 2 * i))
              (rand (S (p + 2 * i))) Hnd' Hlen) as (Hne & H1 & H2).
  subst ends. unfold attempt_pair. auto.
Qed.

End ViewportNodes.

Lemma planning_endpoints_differ_witness :
  let e' := (_load_and_merge_graph_tiles (providers := Demo.providers) Demo.started).2 in
  let ends := attempt_pair (providers := Demo.providers) (planning_candidates e') 0 0 in
  ends.1 <> ends.2.
Proof.
  intros e' ends.
  apply (planning_endpoints_differ (providers := Demo.providers) Demo.started 0 0).
  - vm_compute. reflexivity.
  - vm_compute. lia.
Defined.

(** ** The tile cache *)

Section TileCache.

Lemma load_tile_graph_cached {Q : Providers} tile_bounds e t :
  force_osm_refresh (cfg e) = false ->
  disk e !! cache_path_of e tile_bounds = Some (Cached t) ->
  _load_tile_graph tile_bounds e = (Ok (Some t), e).
Proof.
  intros Hforce Hd. unfold _load_tile_graph, mbind, M_bind, bind, get, cache_usable.
  rewrite Hforce, Hd. reflexivity.
Qed.


(** A cache file that cannot be parsed is never repaired: the tile loop
    takes no tile from it, asks no provider, leaves the cache directory
    and the node tables as they are, and only records the failure; the
    state it leaves is one on which every later pass does the same. *)
Theorem unreadable_cache_is_never_repaired (P : Providers) (tile_bounds : Bounds)
    (to_merge : list Tile) (e : DriveGraphEnv) :
  force_osm_refresh (cfg e) = false ->
  disk e !! cache_path_of e tile_bounds = Some Unreadable ->
  (forall t, tile_graphs (net e) !! cache_path_of e tile_bounds <> Some (Some t)) ->
  exists e1,
    load_tiles (providers := P) [tile_bounds] to_merge e = (Ok to_merge, e1) /\
    disk e1 = disk e /\
    node_positions (net e1) = node_positions (net e) /\
    valid_vehicle_node_ids (net e1) = valid_vehicle_node_ids (net e) /\
    tile_graphs (net e1) !! cache_path_of e tile_bounds = Some None /\
    load_tiles (providers := P) [tile_bounds] to_merge e1 = (Ok to_merge, e1).
Proof.
  intros Hforce Hd Hmem.
  assert (Hload : forall e0, cfg e0 = cfg e -> disk e0 = disk e ->
            _load_tile_graph (providers := P) tile_bounds e0 = (Ok None, e0)).
  { intros e0 Hc Hd0.
    unfold _load_tile_graph, mbind, M_bind, bind, get, cache_usable, cache_path_of.
    rewrite Hc, Hd0. unfold cache_path_of in Hd. rewrite Hforce, Hd. reflexivity. }
  set (k := cache_path_of e tile_bounds) in *.
  set (e1 := set_net {| tile_graphs := <[k := None]> (tile_graphs (net e));
                        node_positions := node_positions (net e);
                        valid_vehicle_node_ids := valid_vehicle_node_ids (net e);
                        traffic_signals := traffic_signals (net e);
                        drive_graph_proj := drive_graph_proj (net e);
                        drive_graph_unproj := drive_graph_unproj (net e) |} e).
  assert (Hfirst : load_tiles (providers := P) [tile_bounds] to_merge e = (Ok to_merge, e1)).
  { cbn [load_tiles]. unfold mbind at 1, M_bind at 1, bind at 1, get at 1.
    fold k. unfold mbind at 1, M_bind at 1, bind at 1.
    destruct (tile_graphs (net e) !! k) as [[t |] |] eqn:Hk.
    - exfalso. exact (Hmem t eq_refl).
    - unfold mbind at 1, M_bind at 1, bind at 1.
      rewrite (Hload e eq_refl eq_refl). unfold modify.
      unfold mbind, M_bind, bind, get. fold e1.
      change (tile_graphs (net e1) !! k) with ((<[k := None]> (tile_graphs (net e))) !! k).
      rewrite lookup_insert_eq. reflexivity.
    - unfold mbind at 1, M_bind at 1, bind at 1.
      rewrite (Hload e eq_refl eq_refl). unfold modify.
      unfold mbind, M_bind, bind, get. fold e1.
      change (tile_graphs (net e1) !! k) with ((<[k := None]> (tile_graphs (net e))) !! k).
      rewrite lookup_insert_eq. reflexivity. }
  exists e1. split; [exact Hfirst|]. split; [reflexivity|]. split; [reflexivity|].
  split; [reflexivity|]. split; [apply lookup_insert_eq|].
  cbn [load_tiles]. unfold mbind at 1, M_bind at 1, bind at 1, get at 1.
  change (cache_path_of e1 tile_bounds) with k.
  change (tile_graphs (net e1) !! k) with ((<[k := None]> (tile_graphs (net e))) !! k).
  rewrite lookup_insert_eq.
  unfold mbind at 1, M_bind at 1, bind at 1. unfold mbind at 1, M_bind at 1, bind at 1.
  rewrite (Hload e1 eq_refl eq_refl). unfold modify.
  unfold mbind, M_bind, bind, get. simpl.
  rewrite insert_insert_eq, lookup_insert_eq. reflexivity.
Qed.

End TileCache.


Lemma unreadable_cache_is_never_repaired_witness :
  let k := cache_path_of Demo.started Demo.viewport_north in
  let e := set_disk (<[k := Unreadable]> (disk Demo.started)) Demo.started in
  exists e1,
    load_tiles (providers := Demo.providers) [Demo.viewport_north] [] e = (Ok [], e1) /\
    disk e1 = disk e.
Proof.
  intros k e.
  destruct (unreadable_cache_is_never_repaired Demo.providers Demo.viewport_north [] e)
    as (e1 & Hrun & Hd & _).
  - vm_compute. reflexivity.
  - vm_compute. reflexivity.
  - intros t. vm_compute. discriminate.
  - exists e1. split; [exact Hrun | exact Hd].
Defined.
